(** * ParamPassTiming: a shallow embedding of ParamPassTiming.cpp

    The program times passing fixed-size arrays by value and by reference.
    Its global objects (the generator [rnd], the work buffer [gWork], the two
    sum vectors, the timing table, the clock and the output stream) are
    gathered in one record, [World], and every function of the source that
    touches a global is a computation in a state-and-fault monad over it.
    Line numbers are those of ParamPassTiming.cpp.

    Conventions.
    - [size_t] is a 64-bit unsigned word: a value of [N], reduced by [wrap]
      after every arithmetic operation that can leave the range.
    - [units] (std::chrono::milliseconds) has a signed representation: a
      duration is its tick count, a value of [Z].  Readings of the clock
      and their differences are taken to fit that representation, so no
      reduction is written for them.
    - [assert], an index outside a [std::array], a remainder by zero and
      [front] on an empty vector are faults: the computation stops with
      [Fail].
    - The library functions the program calls are modelled by what the C++
      standard says of them: [std::has_single_bit] as the test for a power of
      two, [std::ranges::nth_element] by its postcondition (class
      [StdRanges]), the clock as a sequence of readings. *)

From stdpp Require Import base tactics numbers list strings sorting.
From Stdlib Require Import NArith ZArith Lia.

Local Open Scope N_scope.

(** ** Machine integers *)

Definition size_t_bits : N := 64.

Definition wrap (x : N) : N := x mod 2 ^ size_t_bits.

(** [static_cast<int>] of a [size_t]: the low 32 bits, read as two's
    complement. *)
Definition to_int (x : N) : Z :=
  let low := (Z.of_N x mod 2 ^ 32)%Z in
  if (low <? 2 ^ 31)%Z then low else (low - 2 ^ 32)%Z.

(** The four element types the driver instantiates. *)
Inductive ElemT := uint8_t | uint16_t | uint32_t | uint64_t.

Definition sizeof (T : ElemT) : N :=
  match T with uint8_t => 1 | uint16_t => 2 | uint32_t => 4 | uint64_t => 8 end.

Definition CHAR_BIT : N := 8.

(** [static_cast<T>] of a [size_t]. *)
Definition cast_to (T : ElemT) (x : N) : N := x mod 2 ^ (sizeof T * CHAR_BIT).

(** ** Faults and results *)

Inductive Fault :=
| AssertionFailed
| OutOfRange
| RemainderByZero
| FrontOfEmpty
| LoopBoundExceeded
| TemplateDepthExceeded.

Inductive Res (A : Type) :=
| Ok (a : A)
| Fail (f : Fault).
Arguments Ok {A} a.
Arguments Fail {A} f.

Global Instance Res_ret : MRet Res := λ A a, Ok a.

Global Instance Res_bind : MBind Res :=
  λ A B k r, match r with Ok a => k a | Fail f => Fail f end.

(** Checked element access of [std::array]. *)
Definition arr_get {A} (l : list A) (i : N) : Res A :=
  match l !! N.to_nat i with Some x => Ok x | None => Fail OutOfRange end.

Definition arr_set {A} (l : list A) (i : N) (x : A) : Res (list A) :=
  if decide (N.to_nat i < length l)%nat then Ok (<[N.to_nat i := x]> l)
  else Fail OutOfRange.

(** ** Compile-time constants (lines 42-69) *)

Definition kMaxArraySizex2 : N := 4096.
Definition kValuesToSumMax : N := 4.
Definition kSlots : N := 16.

(** [kTotalRuns] and [kTotalPasses] depend on the build. *)
Record Config := mkConfig { kTotalRuns : N; kTotalPasses : N }.

Definition config_of (_DEBUG : bool) : Config :=
  if _DEBUG then mkConfig 3 100000 else mkConfig 31 100000000.

(** ** Exp2 and Log2 (lines 72-91) *)

(** [assert( exponent < sizeof(size_t) * CHAR_BIT ); return size_t(1) << exponent;] *)
Definition Exp2 (exponent : N) : Res N :=
  if exponent <? size_t_bits then Ok (wrap (N.shiftl 1 exponent))
  else Fail AssertionFailed.

(** [std::has_single_bit]: true if and only if the argument is an integral
    power of two. *)
Definition has_single_bit (x : N) : bool :=
  negb (x =? 0) && (x =? 2 ^ N.log2 x).

(** [while( powerOf2 >>= 1 ) ++result;]  Each round removes one bit of a
    64-bit word, so [size_t_bits] rounds are a bound. *)
Fixpoint Log2_loop (bound : nat) (powerOf2 result : N) : Res N :=
  let powerOf2' := N.shiftr powerOf2 1 in
  if powerOf2' =? 0 then Ok result
  else match bound with
       | O => Fail LoopBoundExceeded
       | S bound' => Log2_loop bound' powerOf2' (wrap (result + 1))
       end.

(** [assert( std::has_single_bit(powerOf2) )], then the loop. *)
Definition Log2 (powerOf2 : N) : Res N :=
  if has_single_bit powerOf2 then Log2_loop (N.to_nat size_t_bits) powerOf2 0
  else Fail AssertionFailed.

Definition res_default {A} (d : A) (r : Res A) : A :=
  match r with Ok a => a | Fail _ => d end.

(** [Log2( sizeof( uint64_t ) ) + 1] and [Log2( kMaxArraySizex2 )],
    evaluated at compile time. *)
Definition kCountOfElemSizesToEval : N :=
  res_default 0 (Log2 (sizeof uint64_t)) + 1.

Definition kCountOfArraySizesToEval : N :=
  res_default 0 (Log2 kMaxArraySizex2).

(** ** GetMedian (lines 93-101) *)

(** What [std::ranges::nth_element(c, nth)] leaves behind: the range is
    reordered so that the element at [nth] has no greater element before it
    and no smaller element after it. *)
Definition nth_element_post (c : list Z) (nth : nat) (c' : list Z) : Prop :=
  c' ≡ₚ c ∧
  ∀ p, c' !! nth = Some p →
    (∀ i x, (i < nth)%nat → c' !! i = Some x → (x ≤ p)%Z) ∧
    (∀ j y, (nth < j)%nat → c' !! j = Some y → (p ≤ y)%Z).

(** The same in the words of the C++ standard: the element at [nth] is the
    one a full sort would put there, and no element from [nth] on is less
    than an element before [nth]. *)
Definition nth_element_std (c : list Z) (nth : nat) (c' : list Z) : Prop :=
  c' ≡ₚ c ∧
  ((nth < length c)%nat → c' !! nth = merge_sort Z.le c !! nth) ∧
  ∀ i j x y, (i < nth)%nat → (nth ≤ j)%nat →
    c' !! i = Some x → c' !! j = Some y → (x ≤ y)%Z.

Class StdRanges := {
  nth_element : list Z → nat → list Z;
  nth_element_spec : ∀ c nth, nth_element_post c nth (nth_element c nth)
}.

(** A selection by partitioning around the first element, for running the
    model; it is one implementation of the contract above. *)
Fixpoint select_nth (fuel : nat) (c : list Z) (nth : nat) : list Z :=
  match fuel, c with
  | S fuel', p :: rest =>
      let lo := filter (λ x, x < p)%Z rest in
      let hi := filter (λ x, ¬ (x < p))%Z rest in
      if decide (nth < length lo)%nat then select_nth fuel' lo nth ++ p :: hi
      else if decide (nth = length lo) then lo ++ p :: hi
      else lo ++ p :: select_nth fuel' hi (nth - length lo - 1)
  | _, _ => c
  end.

Definition quickselect (c : list Z) (nth : nat) : list Z :=
  select_nth (length c) c nth.

Section GetMedian.
Context `{!StdRanges}.

(** [assert( size % 2 == 1 ); half = size / 2; nth_element( c, begin + half );
    return *mid;]  The container is reordered in place: the result carries
    the value and the container as the call leaves it. *)
Definition GetMedian (c : list Z) : Res (Z * list Z) :=
  if decide (length c `mod` 2 = 1)%nat then
    let half := (length c `div` 2)%nat in
    let c' := nth_element c half in
    match c' !! half with
    | Some v => Ok (v, c')
    | None => Fail OutOfRange
    end
  else Fail AssertionFailed.
End GetMedian.

(** The reference of the specification: sort everything, take the middle. *)
Definition median_by_full_sort (c : list Z) : Z :=
  default 0%Z (merge_sort Z.le c !! (length c `div` 2)%nat).

(** ** The state-and-fault monad *)

Definition ST (S A : Type) : Type := S → Res (A * S).

Global Instance ST_ret {S} : MRet (ST S) := λ A a s, Ok (a, s).

Global Instance ST_bind {S} : MBind (ST S) :=
  λ A B k m s, match m s with Ok (a, s') => k a s' | Fail f => Fail f end.

Definition lift {S A} (r : Res A) : ST S A :=
  λ s, match r with Ok a => Ok (a, s) | Fail f => Fail f end.

(** A loop whose body runs [n] times on a loop-carried value. *)
Definition repeatM {S A} (n : N) (body : A → ST S A) (a : A) : ST S A :=
  N.iter n (λ m, x ← m; body x) (mret a).

(** [for( size_t i = 0; i < n; ++i ) body(i)]. *)
Definition for_upto {S} (n : N) (body : N → ST S unit) : ST S unit :=
  repeatM n (λ i, body i;; mret (wrap (i + 1))) 0;; mret tt.

(** ** TimingData (lines 103-148) *)

Abbreviation TimePerRun := (list Z).
Abbreviation Table := (list (list (list Z))).

Inductive Series := Baselines | ByRefs | ByVals.

Global Instance Series_eq_dec : EqDecision Series.
Proof. solve_decision. Defined.

(** [stores_] is a ghost field: the assignments [SetTimes] has made, in
    order.  No computed value depends on it. *)
Record TimingData := mkTimingData {
  baselines_ : Table;
  byRefs_ : Table;
  byVals_ : Table;
  stores_ : list (Series * N * N * N)
}.

Definition table_of (s : Series) (td : TimingData) : Table :=
  match s with
  | Baselines => baselines_ td
  | ByRefs => byRefs_ td
  | ByVals => byVals_ td
  end.

Definition set_table (s : Series) (t : Table) (td : TimingData) : TimingData :=
  match s with
  | Baselines => mkTimingData t (byRefs_ td) (byVals_ td) (stores_ td)
  | ByRefs => mkTimingData (baselines_ td) t (byVals_ td) (stores_ td)
  | ByVals => mkTimingData (baselines_ td) (byRefs_ td) t (stores_ td)
  end.

Definition log_store (s : Series) (e a r : N) (td : TimingData) : TimingData :=
  mkTimingData (baselines_ td) (byRefs_ td) (byVals_ td)
               (stores_ td ++ [(s, e, a, r)]).

(** [t[e][a]] *)
Definition table_get (t : Table) (e a : N) : Res TimePerRun :=
  row ← arr_get t e; arr_get row a.

(** [t[e][a] = cell] *)
Definition table_set (t : Table) (e a : N) (cell : TimePerRun) : Res Table :=
  row ← arr_get t e;
  row' ← arr_set row a cell;
  arr_set t e row'.

(** [s[e][a][run] = v] *)
Definition store (s : Series) (e a run : N) (v : Z) : ST TimingData unit :=
  λ td,
    cell ← table_get (table_of s td) e a;
    cell' ← arr_set cell run v;
    t' ← table_set (table_of s td) e a cell';
    Ok (tt, log_store s e a run (set_table s t' td)).

(** Lines 106-114. *)
Definition SetTimes (T : ElemT) (arraySize run : N) (baseline byRef byVal : Z)
  : ST TimingData unit :=
  elemSizeIdx ← lift (Log2 (sizeof T));
  arrSizeIdx ← lift (Log2 arraySize);
  store Baselines elemSizeIdx arrSizeIdx run baseline;;
  store ByRefs elemSizeIdx arrSizeIdx run byRef;;
  store ByVals elemSizeIdx arrSizeIdx run byVal.

(** The global [timingData] is zero-initialised. *)
Definition TimingData_init (cfg : Config) : TimingData :=
  let t := replicate (N.to_nat kCountOfElemSizesToEval)
             (replicate (N.to_nat kCountOfArraySizesToEval)
                (replicate (N.to_nat (kTotalRuns cfg)) 0%Z)) in
  mkTimingData t t t [].

(** ** The generator (lines 167-192) *)

Record FauxRand := mkFauxRand { next_ : N }.

Definition Seed (seed : N) (g : FauxRand) : FauxRand := mkFauxRand seed.

(** [operator()]: [next_ = next_ * 214013 + 2531011; return next_;] *)
Definition FauxRand_call (g : FauxRand) : N * FauxRand :=
  let next := wrap (wrap (next_ g * 214013) + 2531011) in
  (next, mkFauxRand next).

(** [n] successive calls and the values they return. *)
Fixpoint FauxRand_calls (n : nat) (g : FauxRand) : list N * FauxRand :=
  match n with
  | O => ([], g)
  | S n' =>
      let (x, g') := FauxRand_call g in
      let (xs, g'') := FauxRand_calls n' g' in
      (x :: xs, g'')
  end.

(** The recurrence of the specification, on its own. *)
Definition lcg_step (x : N) : N := wrap (x * 214013 + 2531011).

(** ** The globals *)

(** The clock is the program's one input: [clk_now k] is what the [k]-th
    call of [sysclk::now()] reads, in clock ticks, and [clk_ticks_per_unit]
    is the number of ticks in one [units]. *)
Record Clock := mkClock {
  clk_now : N → Z;
  clk_ticks_per_unit : Z;
  clk_reads : N
}.

(** What is written to [std::cout], one item per line. *)
Inductive Out :=
| OutText (s : string)
| OutRun (run : N)
| OutTiming (arrSize sizeofT : N)
| OutData (hdr : string) (arrSize elemSize : N) (time : Z).

(** (element size, array size) of a data line. *)
Definition line_key (o : Out) : option (N * N) :=
  match o with
  | OutData _ arrSize elemSize _ => Some (elemSize, arrSize)
  | _ => None
  end.

Definition line_hdr (o : Out) : option string :=
  match o with
  | OutData hdr _ _ _ => Some hdr
  | _ => None
  end.

Definition line_time (o : Out) : option Z :=
  match o with
  | OutData _ _ _ time => Some time
  | _ => None
  end.

Record World := mkWorld {
  rnd : FauxRand;
  gWork : list N;
  arrByValSums : list N;
  arrByRefSums : list N;
  timingData : TimingData;
  sysclk : Clock;
  cout : list Out
}.

Abbreviation M := (ST World).

Definition set_rnd (g : FauxRand) (w : World) : World :=
  mkWorld g (gWork w) (arrByValSums w) (arrByRefSums w) (timingData w)
          (sysclk w) (cout w).
Definition set_gWork (l : list N) (w : World) : World :=
  mkWorld (rnd w) l (arrByValSums w) (arrByRefSums w) (timingData w)
          (sysclk w) (cout w).
Definition set_arrByValSums (l : list N) (w : World) : World :=
  mkWorld (rnd w) (gWork w) l (arrByRefSums w) (timingData w)
          (sysclk w) (cout w).
Definition set_arrByRefSums (l : list N) (w : World) : World :=
  mkWorld (rnd w) (gWork w) (arrByValSums w) l (timingData w)
          (sysclk w) (cout w).
Definition set_timingData (td : TimingData) (w : World) : World :=
  mkWorld (rnd w) (gWork w) (arrByValSums w) (arrByRefSums w) td
          (sysclk w) (cout w).
Definition set_sysclk (c : Clock) (w : World) : World :=
  mkWorld (rnd w) (gWork w) (arrByValSums w) (arrByRefSums w) (timingData w)
          c (cout w).
Definition set_cout (l : list Out) (w : World) : World :=
  mkWorld (rnd w) (gWork w) (arrByValSums w) (arrByRefSums w) (timingData w)
          (sysclk w) l.

(** [rnd()] *)
Definition rnd_call : M N :=
  λ w, let (x, g) := FauxRand_call (rnd w) in Ok (x, set_rnd g w).

(** A method of the global [timingData]. *)
Definition on_timingData {A} (m : ST TimingData A) : M A :=
  λ w, match m (timingData w) with
       | Ok (a, td) => Ok (a, set_timingData td w)
       | Fail f => Fail f
       end.

(** [std::cout << ... << '\n'] *)
Definition print (o : Out) : M unit :=
  λ w, Ok (tt, set_cout (cout w ++ [o]) w).

(** [sysclk::now()] *)
Definition sysclk_now : M Z :=
  λ w, let c := sysclk w in
       Ok (clk_now c (clk_reads c),
           set_sysclk (mkClock (clk_now c) (clk_ticks_per_unit c)
                               (clk_reads c + 1)) w).

(** [std::chrono::duration_cast<units>]: truncation toward zero. *)
Definition duration_cast (ticks : Z) : M Z :=
  λ w, Ok ((ticks ÷ clk_ticks_per_unit (sysclk w))%Z, w).

Definition gets {S A} (f : S → A) : ST S A := λ s, Ok (f s, s).

Definition modify {S} (f : S → S) : ST S unit := λ s, Ok (tt, f s).

(** ** RandomWork (lines 194-200) *)

Definition RandomWork : M unit :=
  r ← rnd_call;
  let slot := r mod kSlots in
  random ← rnd_call;
  work ← gets gWork;
  old ← lift (arr_get work slot);
  work' ← lift (arr_set work slot
                  (wrap (old + N.lxor random (wrap (N.shiftl random 1)))));
  modify (set_gWork work').

(** ** RandArray (lines 202-230) *)

Record RandArray := mkRandArray {
  arr_T : ElemT;
  arr_N : N;
  arr_ : list N
}.

(** The constructor's [transform]: one draw per slot, first slot first. *)
Fixpoint RandArray_fill (T : ElemT) (n : nat) : M (list N) :=
  match n with
  | O => mret []
  | S n' =>
      x ← rnd_call;
      xs ← RandArray_fill T n';
      mret (cast_to T x :: xs)
  end.

Definition RandArray_new (T : ElemT) (n : N) : M RandArray :=
  elems ← RandArray_fill T (N.to_nat n);
  mret (mkRandArray T n elems).

(** [x % n] *)
Definition rem (x n : N) : Res N :=
  if n =? 0 then Fail RemainderByZero else Ok (x mod n).

(** One round of the loop of [ComputeValue]:
    [slot = rnd() % N; sum += static_cast<size_t>( arr_[slot] );]  The
    elements are unsigned, so the conversion keeps their value. *)
Definition ComputeValue_round (arr : RandArray) (sum : N) : M N :=
  r ← rnd_call;
  slot ← lift (rem r (arr_N arr));
  v ← lift (arr_get (arr_ arr) slot);
  mret (wrap (sum + v)).

(** The loop runs [numValuesToSum] times; its body does not read the
    counter. *)
Definition ComputeValue (arr : RandArray) : M N :=
  r ← rnd_call;
  let numValuesToSum := r mod kValuesToSumMax in
  repeatM numValuesToSum (ComputeValue_round arr) 0.

(** ** The timed functions (lines 241-301) and the timer (lines 150-165) *)

(** The copy that passing by value makes has the elements of the original. *)
Definition ByVal (arr : RandArray) : M N :=
  RandomWork;; ComputeValue arr.

Definition ByRef (arr : RandArray) : M N :=
  RandomWork;; ComputeValue arr.

Record Timer := mkTimer { start_ : Z }.

Definition Timer_new : M Timer :=
  t ← sysclk_now; mret (mkTimer t).

Definition GetElapsedMs (timer : Timer) : M Z :=
  end_ ← sysclk_now;
  let duration := (end_ - start_ timer)%Z in
  duration_cast duration.

Definition front (l : list N) : Res N :=
  match l with
  | x :: _ => Ok x
  | [] => Fail FrontOfEmpty
  end.

(** Instantiation depth a compiler accepts before it gives up (the default
    of GCC; any value above [Log2 kMaxArraySizex2] gives the same program). *)
Definition template_depth : nat := 900.

Section Driver.
Context `{!StdRanges} (cfg : Config).

(** The loop of [TimeArrBaseline]. *)
Definition Baseline_passes (arr : RandArray) : M N :=
  repeatM (kTotalPasses cfg)
    (λ sum, RandomWork;; v ← ComputeValue arr; mret (wrap (sum + v))) 0.

Definition TimeArrBaseline (arr : RandArray) : M Z :=
  timer ← Timer_new;
  Baseline_passes arr;;
  GetElapsedMs timer.

(** The loop of [TimeArrByVal]. *)
Definition ByVal_passes (arr : RandArray) : M N :=
  repeatM (kTotalPasses cfg)
    (λ sum, v ← ByVal arr; mret (wrap (sum + v))) 0.

Definition TimeArrByVal (arr : RandArray) : M Z :=
  timer ← Timer_new;
  sum ← ByVal_passes arr;
  end_ ← GetElapsedMs timer;
  modify (λ w, set_arrByValSums (arrByValSums w ++ [sum]) w);;
  mret end_.

(** The loop of [TimeArrByRef]. *)
Definition ByRef_passes (arr : RandArray) : M N :=
  repeatM (kTotalPasses cfg)
    (λ sum, v ← ByRef arr; mret (wrap (sum + v))) 0.

Definition TimeArrByRef (arr : RandArray) : M Z :=
  timer ← Timer_new;
  sum ← ByRef_passes arr;
  end_ ← GetElapsedMs timer;
  modify (λ w, set_arrByRefSums (arrByRefSums w ++ [sum]) w);;
  mret end_.

(** [GetMedian( c[elemSizeIdx][arrSizeIdx] )] on a member of the global
    [timingData] (lines 132-133); the cell stays as [nth_element] leaves
    it. *)
Definition TimingData_median (c : Series) (elemSizeIdx arrSizeIdx : N)
  : ST TimingData Z :=
  λ td,
    cell ← table_get (table_of c td) elemSizeIdx arrSizeIdx;
    '(v, cell') ← GetMedian cell;
    t' ← table_set (table_of c td) elemSizeIdx arrSizeIdx cell';
    Ok (v, set_table c t' td).

(** Lines 123-138; [c] names the member the caller passes by reference. *)
Definition Output (c : Series) (hdr : string) : M unit :=
  for_upto kCountOfElemSizesToEval (λ elemSizeIdx,
    elemSize ← lift (Exp2 elemSizeIdx);
    for_upto kCountOfArraySizesToEval (λ arrSizeIdx,
      baseline ← on_timingData
                   (TimingData_median Baselines elemSizeIdx arrSizeIdx);
      time ← on_timingData (TimingData_median c elemSizeIdx arrSizeIdx);
      arrSize ← lift (Exp2 arrSizeIdx);
      print (OutData hdr arrSize elemSize (time - baseline)))).

Definition OutputResults : M unit :=
  Output ByRefs "by ref";;
  Output ByVals "by val".

(** What the member function of [EvalParamPassing<T, MaxArrSize, ArrSize>]
    does with [run] before it calls the next instantiation (lines 311-318).
    Its static assertion on [sizeof( arr )] is about memory layout and has
    no counterpart here. *)
Definition EvalParamPassing_here (T : ElemT) (ArrSize run : N) : M unit :=
  arr ← RandArray_new T ArrSize;
  print (OutTiming ArrSize (sizeof T));;
  baseline ← TimeArrBaseline arr;
  byRef ← TimeArrByRef arr;
  byVal ← TimeArrByVal arr;
  on_timingData (SetTimes T ArrSize run baseline byRef byVal).

(** The member function itself (lines 306-330); the first test is the
    choice of the base-case specialisation, and [depth] is the instantiation
    depth left. *)
Fixpoint EvalParamPassing (depth : nat) (T : ElemT)
    (MaxArrSize ArrSize run : N) : M unit :=
  if decide (ArrSize = MaxArrSize) then mret tt
  else match depth with
       | O => lift (Fail TemplateDepthExceeded)
       | S depth' =>
           EvalParamPassing_here T ArrSize run;;
           EvalParamPassing depth' T MaxArrSize (wrap (ArrSize * 2)) run
       end.

(** The body of the run loop of [main] (lines 340-344). *)
Definition main_run (run : N) : M unit :=
  print (OutRun run);;
  EvalParamPassing template_depth uint8_t kMaxArraySizex2 1 run;;
  EvalParamPassing template_depth uint16_t kMaxArraySizex2 1 run;;
  EvalParamPassing template_depth uint32_t kMaxArraySizex2 1 run;;
  EvalParamPassing template_depth uint64_t kMaxArraySizex2 1 run.

(** [main] up to the end of its run loop (lines 337-345). *)
Definition main_runs : M unit :=
  print (OutText "Running timing evaluation");;
  for_upto (kTotalRuns cfg) main_run.

(** The rest of [main] (lines 348-352). *)
Definition main_report : M Z :=
  print (OutText "");;
  print (OutText "Param Pass Type, Array Size, sizeof(T), Time");;
  OutputResults;;
  byVal ← gets arrByValSums;
  v ← lift (front byVal);
  byRef ← gets arrByRefSums;
  r ← lift (front byRef);
  mret (to_int (wrap (v + r))).

Definition main : M Z :=
  main_runs;; main_report.

(** [static_assert( (kTotalRuns % 2) == 1 )] in [main]. *)
Definition static_assert_runs_odd : bool := kTotalRuns cfg mod 2 =? 1.

(** The translation unit: nothing to run when the static assertion
    fails. *)
Definition program : option (M Z) :=
  if static_assert_runs_odd then Some main else None.

(** The globals as static initialisation leaves them. *)
Definition World_init (now : N → Z) (ticks_per_unit : Z) : World :=
  mkWorld (mkFauxRand 42)
          (replicate (N.to_nat kSlots) 0)
          [] []
          (TimingData_init cfg)
          (mkClock now ticks_per_unit 0)
          [].
End Driver.

(** [quickselect] as the library's [nth_element], once it is known to meet
    the contract. *)
Definition quickselect_ranges
    (H : ∀ c nth, nth_element_post c nth (quickselect c nth)) : StdRanges :=
  {| nth_element := quickselect; nth_element_spec := H |}.

(** ** Vocabulary of the properties *)

(** The range split at the selected position. *)
Definition split_at (l : list Z) (k : nat) (lo : list Z) (p : Z)
    (hi : list Z) : Prop :=
  l = lo ++ p :: hi ∧ length lo = k ∧
  Forall (λ x, x ≤ p)%Z lo ∧ Forall (λ y, p ≤ y)%Z hi.

(** [m], started in [s], ends without a fault, in a result and a state that
    satisfy [Q]. *)
Definition runs_to {S A} (m : ST S A) (s : S) (Q : A → S → Prop) : Prop :=
  ∃ a s', m s = Ok (a, s') ∧ Q a s'.

Definition N_sum (l : list N) : N := foldr N.add 0 l.

(** [ComputeValue] in the words of the specification: a count below
    [kValuesToSumMax] from the first draw, then one slot index per further
    draw, and the sum of the elements at those slots. *)
Definition ComputeValue_count (g : FauxRand) : N :=
  (FauxRand_call g).1 mod kValuesToSumMax.

Definition ComputeValue_slots (arr : RandArray) (g : FauxRand) : list N :=
  let g1 := (FauxRand_call g).2 in
  (λ x, x mod arr_N arr)
    <$> (FauxRand_calls (N.to_nat (ComputeValue_count g)) g1).1.

Definition ComputeValue_ref (arr : RandArray) (g : FauxRand) : N * FauxRand :=
  let g1 := (FauxRand_call g).2 in
  (wrap (N_sum ((λ slot, default 0 (arr_ arr !! N.to_nat slot))
                  <$> ComputeValue_slots arr g)),
   (FauxRand_calls (N.to_nat (ComputeValue_count g)) g1).2).

(** The generator and the work buffer moved on; nothing else changed. *)
Definition churn (w w' : World) : Prop :=
  ∃ g l, w' = set_gWork l (set_rnd g w) ∧ length l = length (gWork w).

(** [0; 1; ...; n-1] *)
Definition N_range (n : N) : list N := N.of_nat <$> seq 0 (N.to_nat n).

(** *** The timing table *)

Definition tbl_cell (t : Table) (e a : N) : option TimePerRun :=
  row ← t !! N.to_nat e; row !! N.to_nat a.

Definition tbl_at (t : Table) (e a r : N) : option Z :=
  cell ← tbl_cell t e a; cell !! N.to_nat r.

Definition tbl_put_cell (t : Table) (e a : N) (cell : TimePerRun) : Table :=
  alter (<[N.to_nat a := cell]>) (N.to_nat e) t.

(** A table has the dimensions of its declaration. *)
Definition Table_wf (cfg : Config) (t : Table) : Prop :=
  length t = N.to_nat kCountOfElemSizesToEval ∧
  Forall (λ row,
    length row = N.to_nat kCountOfArraySizesToEval ∧
    Forall (λ cell : TimePerRun, length cell = N.to_nat (kTotalRuns cfg)) row) t.

Definition TimingData_wf (cfg : Config) (td : TimingData) : Prop :=
  ∀ s, Table_wf cfg (table_of s td).

(** Two tables hold, cell by cell, the same samples in some order. *)
Definition Table_perm (t t' : Table) : Prop :=
  Forall2 (Forall2 (≡ₚ)) t t'.

Definition TimingData_perm (td td' : TimingData) : Prop :=
  ∀ s, Table_perm (table_of s td) (table_of s td').

(** *** The clock *)

Definition advance (n : N) (c : Clock) : Clock :=
  mkClock (clk_now c) (clk_ticks_per_unit c) (clk_reads c + n).

(** What a [Timer] built at the [k]-th reading returns at the next one. *)
Definition elapsed (c : Clock) (k : N) : Z :=
  ((clk_now c (k + 1) - clk_now c k) ÷ clk_ticks_per_unit c)%Z.

(** *** How the world moves *)

(** From [w] to [w']: the generator and the contents of the work buffer are
    free, sums were pushed, the timing data became [td'], the clock was read
    [n] times and [out] was printed. *)
Definition moved (w : World) (dv dr : list N) (td' : TimingData) (n : N)
    (out : list Out) (w' : World) : Prop :=
  length (gWork w') = length (gWork w) ∧
  arrByValSums w' = arrByValSums w ++ dv ∧
  arrByRefSums w' = arrByRefSums w ++ dr ∧
  timingData w' = td' ∧
  sysclk w' = advance n (sysclk w) ∧
  cout w' = cout w ++ out.

(** *** The order of evaluation *)

Definition evals_per_run : N :=
  kCountOfElemSizesToEval * kCountOfArraySizesToEval.

(** The [k]-th evaluation of the driver, counted from the start of [main]:
    its run, element-size index and array-size index. *)
Definition coord_of (k : N) : N * N * N :=
  (k / evals_per_run,
   (k / kCountOfArraySizesToEval) mod kCountOfElemSizesToEval,
   k mod kCountOfArraySizesToEval).

Definition stores_of (k : N) : list (Series * N * N * N) :=
  let '(run, e, a) := coord_of k in
  [(Baselines, e, a, run); (ByRefs, e, a, run); (ByVals, e, a, run)].

Definition stores_upto (n : N) : list (Series * N * N * N) :=
  N_range n ≫= stores_of.

(** The three timings of the [k]-th evaluation: its timers are built at
    clock readings [6k], [6k+2] and [6k+4]. *)
Definition timing_of (c : Clock) (s : Series) (k : N) : Z :=
  elapsed c (6 * k + match s with Baselines => 0 | ByRefs => 2 | ByVals => 4 end).

(** What one assignment [s[e][a][run] = v] does to the timing data. *)
Definition stored (cfg : Config) (s : Series) (e a run : N) (v : Z)
    (td td' : TimingData) : Prop :=
  TimingData_wf cfg td' ∧
  stores_ td' = stores_ td ++ [(s, e, a, run)] ∧
  tbl_at (table_of s td') e a run = Some v ∧
  ∀ s' e' a' r', (s', e', a', r') ≠ (s, e, a, run) →
    tbl_at (table_of s' td') e' a' r' = tbl_at (table_of s' td) e' a' r'.

(** *** The globals between two evaluations *)

(** After [n] evaluations under a clock that reads [now] and has [tpu] ticks
    in a unit: the work buffer and the tables have their declared sizes, the
    clock was read [6 n] times, the assignments made so far are those of the
    first [n] evaluations, each of them left its three timings in the
    tables, and no data line was printed. *)
Definition Inv (cfg : Config) (now : N → Z) (tpu : Z) (n : N) (w : World)
  : Prop :=
  length (gWork w) = N.to_nat kSlots ∧
  TimingData_wf cfg (timingData w) ∧
  sysclk w = mkClock now tpu (6 * n) ∧
  stores_ (timingData w) = stores_upto n ∧
  (∀ k s, k < n →
    tbl_at (table_of s (timingData w))
           (coord_of k).1.2 (coord_of k).2 (coord_of k).1.1
      = Some (timing_of (mkClock now tpu 0) s k)) ∧
  Forall (λ o, line_time o = None) (cout w).

(** [r] and [v] are the totals that the by-reference loop and the by-value
    loop accumulate in the evaluation of [T] at array size [ArrSize] that
    starts in [w]. *)
Definition totals_of_evaluation (cfg : Config) (T : ElemT) (ArrSize : N)
    (w : World) (v r : N) : Prop :=
  ∃ arr wa wb wc wd tb tr wr wv,
    RandArray_new T ArrSize w = Ok (arr, wa) ∧
    print (OutTiming ArrSize (sizeof T)) wa = Ok (tt, wb) ∧
    TimeArrBaseline cfg arr wb = Ok (tb, wc) ∧
    (Timer_new;; ByRef_passes cfg arr) wc = Ok (r, wr) ∧
    TimeArrByRef cfg arr wc = Ok (tr, wd) ∧
    (Timer_new;; ByVal_passes cfg arr) wd = Ok (v, wv).

(** The sum vectors only grow at their ends. *)
Definition grows (w w' : World) : Prop :=
  arrByValSums w `prefix_of` arrByValSums w' ∧
  arrByRefSums w `prefix_of` arrByRefSums w'.

(** *** The report, in the words of the specification *)

(** The samples of series [c] at a coordinate. *)
Definition samples (td : TimingData) (c : Series) (e a : N) : TimePerRun :=
  default [] (tbl_cell (table_of c td) e a).

(** [median(mode cell) - median(baseline cell)] *)
Definition adjusted (td : TimingData) (c : Series) (e a : N) : Z :=
  (median_by_full_sort (samples td c e a)
   - median_by_full_sort (samples td Baselines e a))%Z.

Definition report_line (td : TimingData) (c : Series) (hdr : string)
    (e a : N) : Out :=
  OutData hdr (2 ^ a) (2 ^ e) (adjusted td c e a).

(** One line per coordinate, element sizes in ascending order and, for each,
    array sizes in ascending order. *)
Definition report_for (td : TimingData) (c : Series) (hdr : string)
  : list Out :=
  e ← N_range kCountOfElemSizesToEval;
  a ← N_range kCountOfArraySizesToEval;
  [report_line td c hdr e a].

Definition report (td : TimingData) : list Out :=
  report_for td ByRefs "by ref" ++ report_for td ByVals "by val".

(** The coordinates of the evaluated matrix, in the order of the report. *)
Definition report_coords : list (N * N) :=
  e ← N_range kCountOfElemSizesToEval;
  a ← N_range kCountOfArraySizesToEval;
  [(e, a)].

(** Lexicographic order on (element size, array size). *)
Definition key_lt (k k' : N * N) : Prop :=
  k.1 < k'.1 ∨ (k.1 = k'.1 ∧ k.2 < k'.2).

(** From [w] to [w'] only a report happened: [out] was printed and cells of
    the timing tables were reordered. *)
Definition reported (w : World) (out : list Out) (w' : World) : Prop :=
  rnd w' = rnd w ∧ gWork w' = gWork w ∧
  arrByValSums w' = arrByValSums w ∧ arrByRefSums w' = arrByRefSums w ∧
  sysclk w' = sysclk w ∧
  cout w' = cout w ++ out ∧
  TimingData_perm (timingData w) (timingData w') ∧
  stores_ (timingData w') = stores_ (timingData w).

Global Instance key_lt_dec k k' : Decision (key_lt k k').
Proof. unfold key_lt. apply _. Defined.

(** *** The claim that no adjusted duration is negative *)

Definition report_never_negative `{!StdRanges} (cfg : Config) : Prop :=
  ∀ now tpu code w' hdr arrSize elemSize time,
    main cfg (World_init cfg now tpu) = Ok (code, w') →
    OutData hdr arrSize elemSize time ∈ cout w' →
    (0 ≤ time)%Z.

(** A clock, in units, under which every baseline loop takes 5 units, every
    by-reference loop 3 and every by-value loop 4: the six readings of the
    [k]-th evaluation are [12k], [12k+5], [12k+5], [12k+8], [12k+8] and
    [12k+12]. *)
Definition clock_fast_calls (i : N) : Z :=
  Z.of_N (12 * (i / 6) + default 0 ([0; 5; 5; 8; 8; 12] !! N.to_nat (i mod 6))).

(** *** The timed loops when the generator is aligned *)

(** The element that pass [i] of a timed loop adds to its sum, when the loop
    starts with the generator at [s]: the pass draws four numbers and the
    fourth, modulo [N], is the slot. *)
Definition pass_pick (arr : RandArray) (s : N) (i : nat) : N :=
  default 0
    (arr_ arr !! N.to_nat (Nat.iter (4 * i + 4) lcg_step s mod arr_N arr)).

(** *** What main prints *)

(** The lines one chain of instantiations of [EvalParamPassing] prints for
    [T]: one per array size, smallest first. *)
Definition progress_of_type (T : ElemT) : list Out :=
  (λ a, OutTiming (2 ^ a) (sizeof T)) <$> N_range kCountOfArraySizesToEval.

(** The lines of one run: its number, then the four element types in the
    order of [main]. *)
Definition progress_of_run (run : N) : list Out :=
  OutRun run :: ([uint8_t; uint16_t; uint32_t; uint64_t] ≫= progress_of_type).

Definition progress (cfg : Config) : list Out :=
  OutText "Running timing evaluation"
    :: (N_range (kTotalRuns cfg) ≫= progress_of_run).

(** Everything [main] prints, given the timing data its run loop leaves. *)
Definition main_output (cfg : Config) (td : TimingData) : list Out :=
  progress cfg
    ++ [OutText ""; OutText "Param Pass Type, Array Size, sizeof(T), Time"]
    ++ report td.

(** From [w] to [w'] each sum vector got [k] more entries and [out] was
    printed. *)
Definition pushed (w : World) (k : nat) (out : list Out) (w' : World) : Prop :=
  length (arrByValSums w') = (length (arrByValSums w) + k)%nat ∧
  length (arrByRefSums w') = (length (arrByRefSums w) + k)%nat ∧
  cout w' = cout w ++ out.

(** * Properties *)

(** ** Machine integers, Exp2 and Log2 *)

Lemma wrap_small x : x < 2 ^ size_t_bits → wrap x = x.
Proof. intros. unfold wrap. by apply N.mod_small. Qed.

Lemma wrap_add_l x y : wrap (wrap x + y) = wrap (x + y).
Proof. unfold wrap. by rewrite N.Div0.add_mod_idemp_l. Qed.

Lemma pow2_lt_size k : k < size_t_bits → 2 ^ k < 2 ^ size_t_bits.
Proof. intros. apply N.pow_lt_mono_r; [reflexivity | done]. Qed.

Lemma Exp2_pow2 exponent :
  exponent < size_t_bits → Exp2 exponent = Ok (2 ^ exponent).
Proof.
  intros Hlt. unfold Exp2.
  destruct (N.ltb_spec exponent size_t_bits) as [_|Hge]; [|lia].
  rewrite N.shiftl_1_l, wrap_small; [done | by apply pow2_lt_size].
Qed.

Lemma Exp2_fails exponent :
  size_t_bits ≤ exponent → Exp2 exponent = Fail AssertionFailed.
Proof.
  intros Hge. unfold Exp2.
  destruct (N.ltb_spec exponent size_t_bits); [lia | done].
Qed.

Lemma has_single_bit_pow2 k : has_single_bit (2 ^ k) = true.
Proof.
  unfold has_single_bit. rewrite N.log2_pow2 by lia.
  rewrite N.eqb_refl, andb_true_r. apply negb_true_iff, N.eqb_neq.
  apply N.pow_nonzero. lia.
Qed.

Lemma has_single_bit_inv x : has_single_bit x = true → x = 2 ^ N.log2 x.
Proof.
  unfold has_single_bit. intros [_ H]%andb_true_iff. by apply N.eqb_eq.
Qed.

Lemma shiftr1_pow2 k : N.shiftr (2 ^ N.succ k) 1 = 2 ^ k.
Proof.
  rewrite N.shiftr_div_pow2, N.pow_1_r, N.pow_succ_r', N.mul_comm.
  by rewrite N.div_mul.
Qed.

Lemma Log2_loop_pow2 bound : ∀ k result,
  (N.to_nat k ≤ bound)%nat → result + k < 2 ^ size_t_bits →
  Log2_loop bound (2 ^ k) result = Ok (result + k).
Proof.
  induction bound as [|bound IH]; intros k result Hk Hres.
  - assert (k = 0) as -> by lia. simpl. by rewrite N.add_0_r.
  - destruct (N.eq_dec k 0) as [->|Hnz].
    + simpl. by rewrite N.add_0_r.
    + replace k with (N.succ (N.pred k)) by lia.
      cbn [Log2_loop]. rewrite shiftr1_pow2.
      destruct (N.eqb_spec (2 ^ N.pred k) 0) as [H0|_].
      { apply N.pow_nonzero in H0; [done | lia]. }
      rewrite (wrap_small (result + 1)) by lia.
      rewrite IH by lia. f_equal. lia.
Qed.

Lemma Log2_pow2 k : k < size_t_bits → Log2 (2 ^ k) = Ok k.
Proof.
  intros Hk. unfold Log2. rewrite has_single_bit_pow2.
  rewrite Log2_loop_pow2; [done | unfold size_t_bits in *; lia |].
  rewrite N.add_0_l. unfold size_t_bits in *.
  eapply N.lt_trans; [exact Hk | reflexivity].
Qed.

Lemma Log2_not_pow2 x : has_single_bit x = false → Log2 x = Fail AssertionFailed.
Proof. intros H. unfold Log2. by rewrite H. Qed.

Lemma kCountOfElemSizesToEval_eq : kCountOfElemSizesToEval = 4.
Proof. reflexivity. Qed.

Lemma kCountOfArraySizesToEval_eq : kCountOfArraySizesToEval = 12.
Proof. reflexivity. Qed.

Lemma Log2_sizeof T :
  ∃ e, Log2 (sizeof T) = Ok e ∧ e < kCountOfElemSizesToEval ∧ sizeof T = 2 ^ e.
Proof.
  destruct T; [exists 0 | exists 1 | exists 2 | exists 3]; by vm_compute.
Qed.

(** ** The generator *)

Lemma FauxRand_call_lcg g :
  FauxRand_call g = (lcg_step (next_ g), mkFauxRand (lcg_step (next_ g))).
Proof.
  unfold FauxRand_call, lcg_step. by rewrite wrap_add_l.
Qed.

Lemma FauxRand_calls_lcg n : ∀ g,
  FauxRand_calls n g =
    ((λ k, Nat.iter (S k) lcg_step (next_ g)) <$> seq 0 n,
     mkFauxRand (Nat.iter n lcg_step (next_ g))).
Proof.
  induction n as [|n IH]; intros [x]; [done|].
  cbn [FauxRand_calls]. rewrite FauxRand_call_lcg, IH. cbn [next_].
  rewrite <- cons_seq, <- fmap_S_seq. rewrite fmap_cons.
  rewrite <- (Nat.iter_succ_r n). f_equal. f_equal.
  rewrite <- list_fmap_compose.
  apply list_fmap_ext. intros _ k _. cbn [compose].
  by rewrite <- (Nat.iter_succ_r (S k)).
Qed.

(** C3. After [Seed(S)] the [k]-th call of the generator returns the [k]-th
    iterate of the recurrence [next * 214013 + 2531011] (reduced to the word
    size) from [S], whatever the generator held before; so two generators
    seeded alike return the same [n] values. *)
Theorem FauxRand_deterministic (S0 : N) (n : nat) :
  (∀ g, (FauxRand_calls n (Seed S0 g)).1 =
          (λ k, Nat.iter (S k) lcg_step S0) <$> seq 0 n) ∧
  (∀ g k, (k < n)%nat →
          (FauxRand_calls n (Seed S0 g)).1 !! k =
            Some (Nat.iter (S k) lcg_step S0)) ∧
  (∀ g1 g2, FauxRand_calls n (Seed S0 g1) = FauxRand_calls n (Seed S0 g2)).
Proof.
  split_and!.
  - intros g. by rewrite FauxRand_calls_lcg.
  - intros g k Hk. rewrite FauxRand_calls_lcg. cbn [fst].
    rewrite list_lookup_fmap, lookup_seq_lt by done. done.
  - done.
Qed.

(** ** GetMedian *)

Lemma nth_element_post_split c nth c' p :
  nth_element_post c nth c' → c' !! nth = Some p →
  ∃ lo hi, split_at c' nth lo p hi.
Proof.
  intros [_ Hpart] Hp. destruct (Hpart p Hp) as [Hlo Hhi].
  exists (take nth c'), (drop (S nth) c'). split_and!.
  - by rewrite take_drop_middle.
  - apply length_take_le. apply lookup_lt_Some in Hp. lia.
  - apply Forall_forall. intros x (i & Hi & Hlt)%elem_of_take. eauto.
  - apply Forall_forall. intros y (j & Hj)%list_elem_of_lookup_1.
    rewrite lookup_drop in Hj. eapply Hhi; [|done]. lia.
Qed.

Lemma split_at_post l k lo p hi c :
  split_at l k lo p hi → l ≡ₚ c → nth_element_post c k l.
Proof.
  intros (-> & Hlen & Hlo & Hhi) Hperm. split; [done|].
  intros q Hq. rewrite list_lookup_middle in Hq by done. simplify_eq.
  rewrite Forall_forall in Hlo. rewrite Forall_forall in Hhi. split.
  - intros i x Hi Hx. rewrite lookup_app_l in Hx by lia.
    eauto using list_elem_of_lookup_2.
  - intros j y Hj Hy. rewrite lookup_app_r in Hy by lia.
    rewrite lookup_cons_ne_0 in Hy by lia.
    eauto using list_elem_of_lookup_2.
Qed.

(** A sorted arrangement has the selected element at the selected place. *)
Lemma split_at_sorted l k lo p hi s :
  split_at l k lo p hi → StronglySorted Z.le s → s ≡ₚ l →
  s !! k = Some p.
Proof.
  intros (-> & Hlen & Hlo & Hhi) Hs Hperm.
  rewrite Forall_forall in Hlo. rewrite Forall_forall in Hhi.
  assert (s = merge_sort Z.le lo ++ p :: merge_sort Z.le hi) as ->.
  { apply (StronglySorted_unique Z.le); [done| |].
    - apply StronglySorted_app_2.
      + intros x1 x2 Hx1 Hx2. rewrite merge_sort_Permutation in Hx1.
        apply elem_of_cons in Hx2 as [->|Hx2]; [by apply Hlo|].
        rewrite merge_sort_Permutation in Hx2.
        etrans; [by apply Hlo | by apply Hhi].
      + apply (StronglySorted_merge_sort _).
      + apply StronglySorted_cons. split; [|apply (StronglySorted_merge_sort _)].
        apply Forall_forall. intros y Hy.
        rewrite merge_sort_Permutation in Hy. by apply Hhi.
    - by rewrite Hperm, !merge_sort_Permutation. }
  apply list_lookup_middle.
  by rewrite (Permutation_length (merge_sort_Permutation _ _)).
Qed.

Section GetMedian_facts.
Context `{!StdRanges}.

Lemma GetMedian_odd c :
  (length c `mod` 2 = 1)%nat →
  ∃ v c', GetMedian c = Ok (v, c') ∧ c' ≡ₚ c ∧
          ∀ s, StronglySorted Z.le s → s ≡ₚ c →
               s !! (length c `div` 2)%nat = Some v.
Proof.
  intros Hodd. unfold GetMedian. rewrite decide_True by done.
  pose proof (nth_element_spec c (length c `div` 2)%nat) as Hpost.
  set (c' := nth_element c (length c `div` 2)%nat) in *.
  assert (Hperm : c' ≡ₚ c) by apply Hpost.
  destruct (c' !! (length c `div` 2)%nat) as [v|] eqn:Hv.
  - exists v, c'. split_and!; [done..|]. intros s Hsorted Hs.
    destruct (nth_element_post_split _ _ _ _ Hpost Hv) as (lo & hi & Hsplit).
    eapply split_at_sorted; [done..|]. by rewrite Hs.
  - apply lookup_ge_None in Hv. rewrite (Permutation_length Hperm) in Hv.
    assert (0 < length c)%nat by (destruct c; simpl in *; [done | lia]).
    pose proof (Nat.div_lt (length c) 2). lia.
Qed.

Lemma GetMedian_even c :
  (length c `mod` 2 ≠ 1)%nat → GetMedian c = Fail AssertionFailed.
Proof. intros. unfold GetMedian. by rewrite decide_False. Qed.

Lemma merge_sort_sorted_perm (c : list Z) :
  StronglySorted Z.le (merge_sort Z.le c) ∧ merge_sort Z.le c ≡ₚ c.
Proof.
  split; [apply (StronglySorted_merge_sort _) | apply merge_sort_Permutation].
Qed.

Lemma GetMedian_full_sort c v c' :
  GetMedian c = Ok (v, c') → v = median_by_full_sort c ∧ c' ≡ₚ c.
Proof.
  intros Hget. destruct (decide (length c `mod` 2 = 1)%nat) as [Hodd|Heven].
  - destruct (GetMedian_odd c Hodd) as (v' & c'' & Hget' & Hperm & Hv).
    rewrite Hget in Hget'. simplify_eq. split; [|done].
    destruct (merge_sort_sorted_perm c) as [Hsorted Hs].
    unfold median_by_full_sort. by rewrite (Hv _ Hsorted Hs).
  - by rewrite GetMedian_even in Hget.
Qed.

(** C1. On a collection of odd length [GetMedian] returns the value that
    stands at index [length/2] in every ascending arrangement of the
    collection (the full sort by [merge_sort] is one), whatever reordering
    the library's [nth_element] did; the collection it leaves is a
    rearrangement of the one it was given. *)
Theorem GetMedian_is_sorted_middle (c : list Z) :
  (length c `mod` 2 = 1)%nat →
  ∃ c', GetMedian c = Ok (median_by_full_sort c, c') ∧
        merge_sort Z.le c !! (length c `div` 2)%nat
          = Some (median_by_full_sort c) ∧
        (∀ s, StronglySorted Z.le s → s ≡ₚ c →
              s !! (length c `div` 2)%nat = Some (median_by_full_sort c)) ∧
        c' ≡ₚ c.
Proof.
  intros Hodd.
  destruct (GetMedian_odd c Hodd) as (v & c' & Hget & Hperm & Hv).
  destruct (GetMedian_full_sort _ _ _ Hget) as [-> _].
  destruct (merge_sort_sorted_perm c) as [Hsorted Hs].
  exists c'. split_and!; [done| |done..]. by apply Hv.
Qed.
End GetMedian_facts.

Lemma select_nth_perm fuel : ∀ c nth, select_nth fuel c nth ≡ₚ c.
Proof.
  induction fuel as [|fuel IH]; intros [|p rest] nth; try done.
  cbn [select_nth].
  pose proof (filter_app_complement (λ x, x < p)%Z rest) as Hsplit.
  repeat case_decide.
  - rewrite IH. rewrite <- Hsplit at 3. by rewrite Permutation_middle.
  - rewrite <- Hsplit at 3. by rewrite Permutation_middle.
  - rewrite IH. rewrite <- Hsplit at 3. by rewrite Permutation_middle.
Qed.

Lemma select_nth_split fuel : ∀ c nth,
  (length c ≤ fuel)%nat → (nth < length c)%nat →
  ∃ lo p hi, split_at (select_nth fuel c nth) nth lo p hi.
Proof.
  induction fuel as [|fuel IH]; intros [|p rest] nth Hfuel Hnth;
    simpl in Hfuel, Hnth; try lia.
  cbn [select_nth].
  set (lo := filter (λ x, x < p)%Z rest).
  set (hi := filter (λ x, ¬ (x < p))%Z rest).
  assert (Hlo : Forall (λ x, x < p)%Z lo).
  { apply Forall_forall. by intros x [? _]%list_elem_of_filter. }
  assert (Hhi : Forall (λ y, p ≤ y)%Z hi).
  { apply Forall_forall. intros x [? _]%list_elem_of_filter. lia. }
  assert (Hlen : (length lo + length hi = length rest)%nat).
  { rewrite <- length_app. apply Permutation_length, filter_app_complement. }
  repeat case_decide.
  - destruct (IH lo nth) as (l1 & q & h1 & Heq & Hl1 & Hlo1 & Hhi1); [lia..|].
    assert (Hq : (q < p)%Z).
    { rewrite Forall_forall in Hlo. apply Hlo.
      rewrite <- (select_nth_perm fuel lo nth), Heq. apply elem_of_app; right; left. }
    exists l1, q, (h1 ++ p :: hi). split_and!; [|done..|].
    + rewrite Heq. by rewrite <- app_assoc.
    + apply Forall_app. split; [done|]. constructor; [lia|].
      eapply Forall_impl; [exact Hhi|]. intros; simpl in *; lia.
  - exists lo, p, hi. split_and!; [done..| |done].
    eapply Forall_impl; [exact Hlo|]. intros; simpl in *; lia.
  - destruct (IH hi (nth - length lo - 1)%nat)
      as (l1 & q & h1 & Heq & Hl1 & Hlo1 & Hhi1); [lia..|].
    assert (Hq : (p ≤ q)%Z).
    { rewrite Forall_forall in Hhi. apply Hhi.
      rewrite <- (select_nth_perm fuel hi (nth - length lo - 1)), Heq.
      apply elem_of_app; right; left. }
    exists (lo ++ p :: l1), q, h1. split_and!; [| |  |done].
    + rewrite Heq. by rewrite <- app_assoc.
    + rewrite length_app. simpl. lia.
    + apply Forall_app. split.
      * eapply Forall_impl; [exact Hlo|]. intros; simpl in *; lia.
      * by constructor.
Qed.

Lemma quickselect_spec c nth : nth_element_post c nth (quickselect c nth).
Proof.
  unfold quickselect.
  destruct (decide (nth < length c)%nat) as [Hlt|Hge].
  - destruct (select_nth_split (length c) c nth) as (lo & p & hi & Hsplit);
      [done..|].
    eapply split_at_post; [done | apply select_nth_perm].
  - split; [apply select_nth_perm|]. intros p Hp.
    apply lookup_lt_Some in Hp.
    rewrite (Permutation_length (select_nth_perm _ _ _)) in Hp. lia.
Qed.

(** The contract implies what the C++ standard says of [nth_element]. *)
Lemma nth_element_post_std c nth c' :
  nth_element_post c nth c' → nth_element_std c nth c'.
Proof.
  intros Hpost. pose proof Hpost as [Hperm Hpart]. split_and!; [done| |].
  - intros Hlt. rewrite <- (Permutation_length Hperm) in Hlt.
    destruct (lookup_lt_is_Some_2 _ _ Hlt) as [p Hp].
    destruct (nth_element_post_split _ _ _ _ Hpost Hp) as (lo & hi & Hsplit).
    rewrite Hp. symmetry.
    eapply split_at_sorted; [done | apply (StronglySorted_merge_sort _) |].
    by rewrite merge_sort_Permutation.
  - intros i j x y Hi Hj Hx Hy.
    assert (is_Some (c' !! nth)) as [p Hp].
    { apply lookup_lt_is_Some_2. apply lookup_lt_Some in Hy. lia. }
    destruct (Hpart p Hp) as [Hlo Hhi].
    destruct (decide (j = nth)) as [->|Hne].
    + simplify_eq. eauto.
    + etrans; [by eapply Hlo | eapply Hhi; [|done]; lia].
Qed.

Lemma filter_all {A} (P : A → Prop) `{∀ x, Decision (P x)} (l : list A) :
  Forall P l → filter P l = l.
Proof.
  induction 1 as [|x l Hx _ IH]; [done|].
  by rewrite filter_cons_True, IH.
Qed.

Lemma filter_none {A} (P : A → Prop) `{∀ x, Decision (P x)} (l : list A) :
  Forall (λ x, ¬ P x) l → filter P l = [].
Proof.
  induction 1 as [|x l Hx _ IH]; [done|].
  by rewrite filter_cons_False, IH.
Qed.

(** What the C++ standard says of [nth_element] implies the contract. *)
Lemma nth_element_std_post c nth c' :
  nth_element_std c nth c' → nth_element_post c nth c'.
Proof.
  intros (Hperm & Hnth & Hpart). split; [done|]. intros p Hp.
  split; [intros i x Hi Hx; eauto|].
  intros j y Hj Hy. destruct (Z.le_gt_cases p y) as [|Hlt]; [done|exfalso].
  assert (Hlen : (nth < length c)%nat).
  { rewrite <- (Permutation_length Hperm). by eapply lookup_lt_Some. }
  set (s := merge_sort Z.le c).
  assert (Hs : s !! nth = Some p) by (unfold s; by rewrite <- Hnth).
  assert (Hsorted : StronglySorted Z.le s) by apply (StronglySorted_merge_sort _).
  assert (Hcount : length (filter (λ x, x < p)%Z s) =
                   length (filter (λ x, x < p)%Z c')).
  { apply Permutation_length. unfold s.
    by rewrite merge_sort_Permutation, Hperm. }
  (* at most [nth] elements of the sorted range are below [p] *)
  assert (Hle : (length (filter (λ x, x < p)%Z s) ≤ nth)%nat).
  { rewrite <- (take_drop_middle s nth p Hs) in Hsorted |- *.
    apply StronglySorted_app in Hsorted as (_ & _ & Hsorted).
    apply StronglySorted_cons in Hsorted as [Hge _].
    rewrite filter_app, filter_cons_False by lia.
    rewrite (filter_none _ (drop _ _)).
    - rewrite app_nil_r. etrans; [apply length_filter|].
      rewrite length_take. lia.
    - eapply Forall_impl; [exact Hge|]. intros; simpl in *; lia. }
  (* more than [nth] elements of the reordered range are below [p] *)
  assert (Hgt : (nth < length (filter (λ x, x < p)%Z c'))%nat).
  { rewrite <- (take_drop nth c'), filter_app, length_app.
    rewrite filter_all.
    - rewrite length_take_le by (apply lookup_lt_Some in Hp; lia).
      assert (y ∈ filter (λ x, x < p)%Z (drop nth c')) as Hin.
      { apply list_elem_of_filter. split; [done|].
        apply list_elem_of_lookup. exists (j - nth)%nat.
        rewrite lookup_drop. by replace (nth + (j - nth))%nat with j by lia. }
      destruct (filter _ (drop nth c')); [by apply elem_of_nil in Hin|].
      simpl. lia.
    - apply Forall_forall. intros x (i & Hi & Hlti)%elem_of_take.
      assert (x ≤ y)%Z by (eapply (Hpart i j); [done | lia | done..]). lia. }
  lia.
Qed.

(** ** Running computations *)

Lemma bind_Ok {S A B} (m : ST S A) (k : A → ST S B) s a s' :
  m s = Ok (a, s') → (m ≫= k) s = k a s'.
Proof. unfold mbind, ST_bind. by intros ->. Qed.

Lemma runs_ret {S A} (a : A) (s : S) Q : Q a s → runs_to (mret a) s Q.
Proof. intros. by exists a, s. Qed.

Lemma runs_bind {S A B} (m : ST S A) (k : A → ST S B) s Q :
  runs_to m s (λ a s', runs_to (k a) s' Q) → runs_to (m ≫= k) s Q.
Proof.
  intros (a & s' & Hm & b & s'' & Hk & HQ). exists b, s''.
  by rewrite (bind_Ok _ _ _ _ _ Hm).
Qed.

Lemma runs_mono {S A} (m : ST S A) s (Q Q' : A → S → Prop) :
  runs_to m s Q → (∀ a s', Q a s' → Q' a s') → runs_to m s Q'.
Proof. intros (a & s' & Hm & HQ) Himp. exists a, s'. auto. Qed.

Lemma runs_lift {S A} (r : Res A) (a : A) (s : S) Q :
  r = Ok a → Q a s → runs_to (lift r) s Q.
Proof. intros -> HQ. by exists a, s. Qed.

Lemma runs_gets {S A} (f : S → A) (s : S) Q : Q (f s) s → runs_to (gets f) s Q.
Proof. intros. by exists (f s), s. Qed.

Lemma runs_Ok {S A} (m : ST S A) s a s' (Q : A → S → Prop) :
  m s = Ok (a, s') → Q a s' → runs_to m s Q.
Proof. intros. by exists a, s'. Qed.

Lemma repeatM_succ {S A} n (body : A → ST S A) a :
  repeatM (N.succ n) body a = (x ← repeatM n body a; body x).
Proof. unfold repeatM. by rewrite N.iter_succ. Qed.

(** The loop rule: an invariant indexed by the number of rounds done. *)
Lemma runs_repeatM {S A} (Inv : N → A → S → Prop) n (body : A → ST S A) a s :
  Inv 0 a s →
  (∀ k x t, k < n → Inv k x t → runs_to (body x) t (Inv (k + 1))) →
  runs_to (repeatM n body a) s (Inv n).
Proof.
  intros H0. induction n as [|n IH] using N.peano_ind; intros Hstep.
  - by apply runs_ret.
  - rewrite repeatM_succ. apply runs_bind.
    eapply runs_mono; [apply IH; intros; apply Hstep; [lia|done]|].
    intros x t Hinv. rewrite <- N.add_1_r. apply Hstep; [lia|done].
Qed.

Lemma runs_for_upto {S} (Inv : N → S → Prop) n (body : N → ST S unit) s Q :
  n < 2 ^ size_t_bits →
  Inv 0 s →
  (∀ k t, k < n → Inv k t → runs_to (body k) t (λ _, Inv (k + 1))) →
  (∀ t, Inv n t → Q tt t) →
  runs_to (for_upto n body) s Q.
Proof.
  intros Hn H0 Hstep HQ. unfold for_upto. apply runs_bind.
  eapply runs_mono.
  - apply (runs_repeatM (λ k i t, i = k ∧ Inv k t)); [done|].
    intros k i t Hk [-> Hinv]. apply runs_bind.
    eapply runs_mono; [by apply Hstep|].
    intros [] t' Hinv'. apply runs_ret. split; [|done].
    apply wrap_small. lia.
  - intros i t [_ Hinv]. apply runs_ret. auto.
Qed.

Lemma runs_on_timingData {A} (m : ST TimingData A) w Q :
  runs_to m (timingData w) (λ a td, Q a (set_timingData td w)) →
  runs_to (on_timingData m) w Q.
Proof.
  intros (a & td & Hm & HQ). exists a, (set_timingData td w).
  unfold on_timingData. by rewrite Hm.
Qed.

(** ** The generator and the work buffer in the world *)

Arguments wrap : simpl never.
Arguments lcg_step : simpl never.
Arguments N.modulo : simpl never.
Arguments N.lxor : simpl never.
Arguments N.shiftl : simpl never.
Arguments N.to_nat : simpl never.

Lemma rnd_call_run w :
  rnd_call w = Ok ((FauxRand_call (rnd w)).1, set_rnd (FauxRand_call (rnd w)).2 w).
Proof. done. Qed.

Lemma churn_refl w : churn w w.
Proof. exists (rnd w), (gWork w). by destruct w. Qed.

Lemma churn_trans w1 w2 w3 : churn w1 w2 → churn w2 w3 → churn w1 w3.
Proof.
  intros (g & l & -> & Hl) (g' & l' & -> & Hl'). exists g', l'.
  split; [done|]. by rewrite Hl'.
Qed.

Lemma churn_rnd g w : churn w (set_rnd g w).
Proof. exists g, (gWork w). by destruct w. Qed.

Lemma arr_get_lt {A} (l : list A) i :
  (N.to_nat i < length l)%nat → ∃ x, l !! N.to_nat i = Some x ∧ arr_get l i = Ok x.
Proof.
  intros Hlt. destruct (lookup_lt_is_Some_2 _ _ Hlt) as [x Hx].
  exists x. unfold arr_get. by rewrite Hx.
Qed.

Lemma arr_set_lt {A} (l : list A) i x :
  (N.to_nat i < length l)%nat → arr_set l i x = Ok (<[N.to_nat i := x]> l).
Proof. intros. unfold arr_set. by rewrite decide_True. Qed.

Lemma mod_kSlots_lt x : (N.to_nat (x mod kSlots) < N.to_nat kSlots)%nat.
Proof. pose proof (N.mod_lt x kSlots). unfold kSlots in *. lia. Qed.

Lemma RandomWork_run w :
  length (gWork w) = N.to_nat kSlots →
  ∃ old,
    gWork w !! N.to_nat ((FauxRand_call (rnd w)).1 mod kSlots) = Some old ∧
    RandomWork w =
      Ok (tt,
          let g1 := (FauxRand_call (rnd w)).2 in
          let random := (FauxRand_call g1).1 in
          set_gWork
            (<[N.to_nat ((FauxRand_call (rnd w)).1 mod kSlots) :=
                 wrap (old + N.lxor random (wrap (N.shiftl random 1)))]>
               (gWork w))
            (set_rnd (FauxRand_call g1).2 w)).
Proof.
  intros Hlen.
  pose proof (mod_kSlots_lt (FauxRand_call (rnd w)).1) as Hslot.
  rewrite <- Hlen in Hslot.
  destruct (arr_get_lt _ _ Hslot) as (old & Hold & Hget).
  exists old. split; [done|].
  unfold RandomWork.
  rewrite (bind_Ok _ _ _ _ _ (rnd_call_run w)).
  rewrite (bind_Ok _ _ _ _ _ (rnd_call_run _)).
  unfold mbind, ST_bind, gets, lift, modify. cbn [gWork set_rnd rnd].
  rewrite Hget, arr_set_lt by done. by destruct w.
Qed.

Lemma RandomWork_churn w :
  length (gWork w) = N.to_nat kSlots →
  runs_to RandomWork w (λ _ w', churn w w').
Proof.
  intros Hlen. destruct (RandomWork_run w Hlen) as (old & _ & Hrun).
  eapply runs_Ok; [done|]. eexists _, _. split; [done|].
  by rewrite length_insert.
Qed.

(** C4. [RandomWork] draws a slot index (the first draw modulo [kSlots])
    and then a value [v], adds [v xor (v << 1)] to the work buffer at that
    slot, leaves every other slot and every other global as it was, and
    leaves the generator two draws further. *)
Theorem RandomWork_effect (w : World) :
  length (gWork w) = N.to_nat kSlots →
  let slot := N.to_nat ((FauxRand_call (rnd w)).1 mod kSlots) in
  let v := (FauxRand_call (FauxRand_call (rnd w)).2).1 in
  ∃ w' old,
    RandomWork w = Ok (tt, w') ∧
    gWork w !! slot = Some old ∧
    gWork w' !! slot = Some (wrap (old + N.lxor v (wrap (N.shiftl v 1)))) ∧
    (∀ j, j ≠ slot → gWork w' !! j = gWork w !! j) ∧
    length (gWork w') = length (gWork w) ∧
    rnd w' = (FauxRand_calls 2 (rnd w)).2 ∧
    arrByValSums w' = arrByValSums w ∧
    arrByRefSums w' = arrByRefSums w ∧
    timingData w' = timingData w ∧
    sysclk w' = sysclk w ∧
    cout w' = cout w.
Proof.
  intros Hlen slot v.
  destruct (RandomWork_run w Hlen) as (old & Hold & Hrun).
  eexists _, old. split; [exact Hrun|]. cbn.
  split_and!; try done.
  - apply list_lookup_insert_eq. by eapply lookup_lt_Some.
  - intros j Hj. by apply list_lookup_insert_ne.
  - apply length_insert.
Qed.


Lemma RandomWork_effect_witness :
  let w := World_init (config_of true) (λ _, 0%Z) 1 in
  length (gWork w) = N.to_nat kSlots ∧
  ∃ w', RandomWork w = Ok (tt, w') ∧
        gWork w' !! 5%nat = Some 6880582803484 ∧
        rnd w' = mkFauxRand 2465337483252.
Proof.
  intros w. split; [reflexivity|].
  destruct (RandomWork_effect w eq_refl)
    as (w' & old & Hrun & Hold & Hnew & _ & _ & Hrnd & _).
  exists w'. split_and!; [exact Hrun | | exact Hrnd].
  vm_compute in Hold. injection Hold as <-. exact Hnew.
Defined.

(** ** ComputeValue *)

Lemma runs_to_eq {S A} (m : ST S A) s a s' :
  runs_to m s (λ x t, x = a ∧ t = s') → m s = Ok (a, s').
Proof. by intros (x & t & -> & -> & ->). Qed.

Lemma N_sum_snoc l x : N_sum (l ++ [x]) = N_sum l + x.
Proof.
  unfold N_sum. induction l as [|y l IH]; simpl; [lia|]. rewrite IH. lia.
Qed.

Lemma rem_pos x n : 1 ≤ n → rem x n = Ok (x mod n).
Proof.
  intros. unfold rem. destruct (N.eqb_spec n 0); [lia | done].
Qed.

Lemma ComputeValue_round_run arr sum w :
  1 ≤ arr_N arr → length (arr_ arr) = N.to_nat (arr_N arr) →
  let r := (FauxRand_call (rnd w)).1 in
  ComputeValue_round arr sum w =
    Ok (wrap (sum + default 0 (arr_ arr !! N.to_nat (r mod arr_N arr))),
        set_rnd (FauxRand_call (rnd w)).2 w).
Proof.
  intros Hpos Hlen r. unfold ComputeValue_round.
  rewrite (bind_Ok _ _ _ _ _ (rnd_call_run w)). fold r.
  unfold mbind, ST_bind, lift, mret, ST_ret. rewrite rem_pos by done.
  assert (Hslot : (N.to_nat (r mod arr_N arr) < length (arr_ arr))%nat).
  { pose proof (N.mod_lt r (arr_N arr)). lia. }
  destruct (arr_get_lt _ _ Hslot) as (v & Hv & ->). by rewrite Hv.
Qed.

Lemma ComputeValue_run arr w :
  1 ≤ arr_N arr → length (arr_ arr) = N.to_nat (arr_N arr) →
  ComputeValue arr w =
    Ok ((ComputeValue_ref arr (rnd w)).1,
        set_rnd (ComputeValue_ref arr (rnd w)).2 w).
Proof.
  intros Hpos Hlen. unfold ComputeValue.
  rewrite (bind_Ok _ _ _ _ _ (rnd_call_run w)).
  unfold ComputeValue_ref, ComputeValue_slots, ComputeValue_count.
  set (g1 := (FauxRand_call (rnd w)).2).
  set (count := (FauxRand_call (rnd w)).1 mod kValuesToSumMax).
  rewrite FauxRand_calls_lcg. cbn [fst snd].
  apply runs_to_eq.
  eapply runs_mono.
  - apply (runs_repeatM (λ k sum t,
      sum = wrap (N_sum ((λ slot, default 0 (arr_ arr !! N.to_nat slot))
                <$> ((λ x, x mod arr_N arr)
                <$> ((λ i, Nat.iter (S i) lcg_step (next_ g1))
                <$> seq 0 (N.to_nat k))))) ∧
      t = set_rnd (mkFauxRand (Nat.iter (N.to_nat k) lcg_step (next_ g1))) w)).
    + split; [done|]. by destruct g1.
    + intros k sum t Hk [-> ->].
      eapply runs_Ok; [by apply ComputeValue_round_run|].
      cbn [rnd set_rnd]. rewrite FauxRand_call_lcg. cbn [fst snd next_].
      replace (N.to_nat (k + 1)) with (S (N.to_nat k)) by lia.
      split; [|done].
      rewrite seq_S, !fmap_app. cbn [fmap list_fmap].
      by rewrite N_sum_snoc, wrap_add_l.
  - by intros sum t [-> ->].
Qed.

Lemma ComputeValue_churn arr w :
  1 ≤ arr_N arr → length (arr_ arr) = N.to_nat (arr_N arr) →
  runs_to (ComputeValue arr) w (λ _ w', churn w w').
Proof.
  intros Hpos Hlen. eapply runs_Ok; [by apply ComputeValue_run|].
  apply churn_rnd.
Qed.

(** C2. [ComputeValue] draws a count [c] (the first draw modulo
    [kValuesToSumMax], so below 4 whatever the length [N]), then draws [c]
    slot indices (each a draw modulo [N]) and returns the sum, in [size_t],
    of the elements at those slots; it touches [c] elements and changes
    nothing but the generator, which ends [c + 1] draws further. *)
Theorem ComputeValue_sums_few (arr : RandArray) (w : World) :
  1 ≤ arr_N arr → length (arr_ arr) = N.to_nat (arr_N arr) →
  let c := (FauxRand_call (rnd w)).1 mod kValuesToSumMax in
  let slots := ComputeValue_slots arr (rnd w) in
  c < kValuesToSumMax ∧
  length slots = N.to_nat c ∧
  (∀ i x, (FauxRand_calls (S (N.to_nat c)) (rnd w)).1 !! S i = Some x →
          slots !! i = Some (x mod arr_N arr)) ∧
  Forall (λ slot, slot < arr_N arr) slots ∧
  ComputeValue arr w =
    Ok (wrap (N_sum ((λ slot, default 0 (arr_ arr !! N.to_nat slot)) <$> slots)),
        set_rnd (FauxRand_calls (S (N.to_nat c)) (rnd w)).2 w).
Proof.
  intros Hpos Hlen c slots. split_and!.
  - by apply N.mod_lt.
  - unfold slots, ComputeValue_slots, ComputeValue_count. fold c.
    rewrite FauxRand_calls_lcg. cbn [fst]. by rewrite !length_fmap, length_seq.
  - intros i x. unfold slots, ComputeValue_slots, ComputeValue_count. fold c.
    cbn [FauxRand_calls].
    destruct (FauxRand_call (rnd w)) as [x0 g1]. cbn [snd].
    destruct (FauxRand_calls (N.to_nat c) g1) as [xs g2]. cbn [fst].
    intros Hx. rewrite list_lookup_fmap.
    change (xs !! i = Some x) in Hx. by rewrite Hx.
  - apply Forall_forall. intros slot.
    unfold slots, ComputeValue_slots. intros (x & -> & _)%list_elem_of_fmap.
    apply N.mod_lt. lia.
  - rewrite ComputeValue_run by done. unfold ComputeValue_ref. cbn [fst snd].
    do 2 f_equal. unfold ComputeValue_count. fold c.
    cbn [FauxRand_calls].
    destruct (FauxRand_call (rnd w)) as [x0 g1]. cbn [snd].
    by destruct (FauxRand_calls (N.to_nat c) g1).
Qed.

Lemma ComputeValue_sums_few_witness :
  let arr := mkRandArray uint8_t 4 [10; 20; 30; 40] in
  let w := World_init (config_of true) (λ _, 0%Z) 1 in
  1 ≤ arr_N arr ∧ length (arr_ arr) = N.to_nat (arr_N arr) ∧
  ComputeValue arr w = Ok (10, set_rnd (mkFauxRand 2465337483252) w).
Proof.
  intros arr w.
  assert (Hpos : 1 ≤ arr_N arr) by (vm_compute; discriminate).
  assert (Hlen : length (arr_ arr) = N.to_nat (arr_N arr)) by reflexivity.
  split_and!; [exact Hpos | exact Hlen |].
  destruct (ComputeValue_sums_few arr w Hpos Hlen) as (_ & _ & _ & _ & Hrun).
  exact Hrun.
Defined.

(** ** RandArray *)

Lemma RandArray_fill_run T n : ∀ w,
  ∃ elems g, RandArray_fill T n w = Ok (elems, set_rnd g w) ∧ length elems = n.
Proof.
  induction n as [|n IH]; intros w.
  - exists [], (rnd w). split; [|done]. by destruct w.
  - cbn [RandArray_fill].
    rewrite (bind_Ok _ _ _ _ _ (rnd_call_run w)).
    destruct (IH (set_rnd (FauxRand_call (rnd w)).2 w)) as (elems & g & Hrun & Hlen).
    rewrite (bind_Ok _ _ _ _ _ Hrun).
    eexists _, g. split; [done|]. simpl. by rewrite Hlen.
Qed.

Lemma RandArray_new_run T n w :
  ∃ arr g, RandArray_new T n w = Ok (arr, set_rnd g w) ∧
           arr_T arr = T ∧ arr_N arr = n ∧ length (arr_ arr) = N.to_nat n.
Proof.
  unfold RandArray_new.
  destruct (RandArray_fill_run T (N.to_nat n) w) as (elems & g & Hrun & Hlen).
  rewrite (bind_Ok _ _ _ _ _ Hrun). by eexists _, g.
Qed.

(** C10. No access leaves its array, whatever the generator holds: the
    index into the 16-slot work buffer is a remainder modulo [kSlots], the
    indices into a container of length [N >= 1] are remainders modulo [N],
    and a container is built with exactly [N] elements; so [RandomWork] and
    [ComputeValue] end without a fault. *)
Theorem accesses_in_bounds :
  (∀ w, length (gWork w) = N.to_nat kSlots →
        (FauxRand_call (rnd w)).1 mod kSlots < kSlots ∧
        ∃ w', RandomWork w = Ok (tt, w')) ∧
  (∀ arr w, 1 ≤ arr_N arr → length (arr_ arr) = N.to_nat (arr_N arr) →
        Forall (λ slot, slot < arr_N arr) (ComputeValue_slots arr (rnd w)) ∧
        ∃ sum w', ComputeValue arr w = Ok (sum, w')) ∧
  (∀ T n w, ∃ arr w', RandArray_new T n w = Ok (arr, w') ∧
        arr_N arr = n ∧ length (arr_ arr) = N.to_nat (arr_N arr)).
Proof.
  split_and!.
  - intros w Hlen. split; [by apply N.mod_lt|].
    destruct (RandomWork_run w Hlen) as (old & _ & Hrun). eauto.
  - intros arr w Hpos Hlen. split.
    + apply Forall_forall. intros slot.
      unfold ComputeValue_slots. intros (x & -> & _)%list_elem_of_fmap.
      apply N.mod_lt. lia.
    + rewrite ComputeValue_run by done. eauto.
  - intros T n w.
    destruct (RandArray_new_run T n w) as (arr & g & Hrun & _ & HN & Hlen).
    exists arr, (set_rnd g w). by rewrite HN.
Qed.

Lemma accesses_in_bounds_witness :
  let w := World_init (config_of true) (λ _, 0%Z) 1 in
  let arr := mkRandArray uint8_t 4 [10; 20; 30; 40] in
  (∃ w', RandomWork w = Ok (tt, w')) ∧
  (∃ sum w', ComputeValue arr w = Ok (sum, w')).
Proof.
  intros w arr. destruct accesses_in_bounds as (Hwork & Hcompute & _). split.
  - exact (proj2 (Hwork w eq_refl)).
  - refine (proj2 (Hcompute arr w _ eq_refl)). vm_compute. discriminate.
Defined.

(** ** The timing table *)

Ltac Zify.zify_post_hook ::= Z.to_euclidean_division_equations.

Lemma tbl_cell_Some t e a cell :
  tbl_cell t e a = Some cell ↔
  ∃ row, t !! N.to_nat e = Some row ∧ row !! N.to_nat a = Some cell.
Proof.
  unfold tbl_cell. destruct (t !! N.to_nat e) as [row|]; simpl.
  - split; [eauto|]. by intros (? & [= <-] & ?).
  - split; [done|]. by intros (? & ? & ?).
Qed.

Lemma Table_wf_cell cfg t e a :
  Table_wf cfg t → e < kCountOfElemSizesToEval → a < kCountOfArraySizesToEval →
  ∃ cell, tbl_cell t e a = Some cell ∧ length cell = N.to_nat (kTotalRuns cfg).
Proof.
  intros [Hlen Hrows] He Ha.
  destruct (lookup_lt_is_Some_2 t (N.to_nat e)) as [row Hrow]; [lia|].
  destruct (Forall_lookup_1 _ _ _ _ Hrows Hrow) as [Hlenrow Hcells].
  destruct (lookup_lt_is_Some_2 row (N.to_nat a)) as [cell Hcell]; [lia|].
  exists cell. split; [apply tbl_cell_Some; eauto|].
  by eapply (Forall_lookup_1 _ _ _ _ Hcells).
Qed.

Lemma Table_wf_put cfg t e a cell :
  Table_wf cfg t → length cell = N.to_nat (kTotalRuns cfg) →
  Table_wf cfg (tbl_put_cell t e a cell).
Proof.
  intros [Hlen Hrows] Hcell. unfold tbl_put_cell. split.
  - by rewrite length_alter.
  - apply Forall_alter; [done|]. intros row _ [Hlenrow Hcells]. split.
    + by rewrite length_insert.
    + by apply Forall_insert.
Qed.

Lemma tbl_cell_put_eq t e a cell :
  is_Some (tbl_cell t e a) → tbl_cell (tbl_put_cell t e a cell) e a = Some cell.
Proof.
  intros [old (row & Hrow & Hold)%tbl_cell_Some].
  apply tbl_cell_Some. exists (<[N.to_nat a := cell]> row). split.
  - unfold tbl_put_cell. by rewrite list_lookup_alter_eq, Hrow.
  - apply list_lookup_insert_eq. by eapply lookup_lt_Some.
Qed.

Lemma tbl_cell_put_ne t e a cell e' a' :
  (e', a') ≠ (e, a) → tbl_cell (tbl_put_cell t e a cell) e' a' = tbl_cell t e' a'.
Proof.
  intros Hne. unfold tbl_cell, tbl_put_cell.
  destruct (decide (e = e')) as [->|Hee].
  - rewrite list_lookup_alter_eq. destruct (t !! N.to_nat e') as [row|]; [|done].
    simpl. apply list_lookup_insert_ne. intros Heq. apply Hne.
    f_equal. lia.
  - rewrite list_lookup_alter_ne; [done|]. lia.
Qed.

Lemma table_get_cell t e a cell :
  tbl_cell t e a = Some cell → table_get t e a = Ok cell.
Proof.
  intros (row & Hrow & Hcell)%tbl_cell_Some.
  unfold table_get, arr_get. rewrite Hrow. simpl. by rewrite Hcell.
Qed.

Lemma table_set_cell t e a cell :
  is_Some (tbl_cell t e a) → table_set t e a cell = Ok (tbl_put_cell t e a cell).
Proof.
  intros [old (row & Hrow & Hold)%tbl_cell_Some].
  unfold table_set, arr_get. rewrite Hrow. simpl.
  rewrite arr_set_lt by (by eapply lookup_lt_Some). simpl.
  rewrite arr_set_lt by (by eapply lookup_lt_Some). f_equal.
  unfold tbl_put_cell. rewrite list_insert_alter.
  apply list_alter_ext; [|done]. intros x Hx. by simplify_eq.
Qed.

Lemma table_of_set_table s s' t td :
  table_of s (set_table s' t td) = if decide (s = s') then t else table_of s td.
Proof. by destruct s, s'. Qed.

Lemma stores_set_table s t td : stores_ (set_table s t td) = stores_ td.
Proof. by destruct s. Qed.

Lemma table_of_log_store s' s e a r td :
  table_of s' (log_store s e a r td) = table_of s' td.
Proof. by destruct s'. Qed.

Lemma store_run cfg s e a run v td :
  TimingData_wf cfg td →
  e < kCountOfElemSizesToEval → a < kCountOfArraySizesToEval →
  run < kTotalRuns cfg →
  ∃ td', store s e a run v td = Ok (tt, td') ∧ stored cfg s e a run v td td'.
Proof.
  intros Hwf He Ha Hrun.
  destruct (Table_wf_cell cfg _ e a (Hwf s) He Ha) as (cell & Hcell & Hlen).
  unfold store. rewrite (table_get_cell _ _ _ _ Hcell). simpl.
  rewrite arr_set_lt by lia. simpl.
  rewrite table_set_cell by eauto. simpl.
  eexists. split; [done|]. split_and!.
  - intros s'. rewrite table_of_log_store, table_of_set_table.
    case_decide; [|apply Hwf].
    apply Table_wf_put; [apply Hwf | by rewrite length_insert].
  - unfold log_store. simpl. by rewrite stores_set_table.
  - rewrite table_of_log_store, table_of_set_table, decide_True by done.
    unfold tbl_at. rewrite tbl_cell_put_eq by eauto. simpl.
    apply list_lookup_insert_eq. lia.
  - intros s' e' a' r' Hne.
    rewrite table_of_log_store, table_of_set_table.
    case_decide as Hs; [subst s'|done].
    unfold tbl_at. destruct (decide ((e', a') = (e, a))) as [[= -> ->]|Hea].
    + rewrite tbl_cell_put_eq by eauto. rewrite Hcell. simpl.
      apply list_lookup_insert_ne. intros Heq. apply Hne.
      repeat f_equal. lia.
    + by rewrite tbl_cell_put_ne.
Qed.

Lemma SetTimes_run cfg T a run b r v td :
  TimingData_wf cfg td → a < kCountOfArraySizesToEval → run < kTotalRuns cfg →
  ∃ e td',
    Log2 (sizeof T) = Ok e ∧ e < kCountOfElemSizesToEval ∧
    SetTimes T (2 ^ a) run b r v td = Ok (tt, td') ∧
    TimingData_wf cfg td' ∧
    stores_ td' = stores_ td ++
      [(Baselines, e, a, run); (ByRefs, e, a, run); (ByVals, e, a, run)] ∧
    tbl_at (baselines_ td') e a run = Some b ∧
    tbl_at (byRefs_ td') e a run = Some r ∧
    tbl_at (byVals_ td') e a run = Some v ∧
    ∀ s e' a' r', (e', a', r') ≠ (e, a, run) →
      tbl_at (table_of s td') e' a' r' = tbl_at (table_of s td) e' a' r'.
Proof.
  intros Hwf Ha Hrun.
  destruct (Log2_sizeof T) as (e & He & Helt & _).
  exists e. unfold SetTimes. rewrite He.
  rewrite Log2_pow2
    by (rewrite kCountOfArraySizesToEval_eq in Ha; unfold size_t_bits; lia).
  unfold mbind at 1 2. unfold ST_bind, lift.
  destruct (store_run cfg Baselines e a run b td Hwf Helt Ha Hrun)
    as (td1 & Hrun1 & Hwf1 & Hst1 & Hv1 & Hoth1).
  rewrite (bind_Ok _ _ _ _ _ Hrun1).
  destruct (store_run cfg ByRefs e a run r td1 Hwf1 Helt Ha Hrun)
    as (td2 & Hrun2 & Hwf2 & Hst2 & Hv2 & Hoth2).
  rewrite (bind_Ok _ _ _ _ _ Hrun2).
  destruct (store_run cfg ByVals e a run v td2 Hwf2 Helt Ha Hrun)
    as (td3 & Hrun3 & Hwf3 & Hst3 & Hv3 & Hoth3).
  exists td3. split_and!; [done..| | | | |].
  - rewrite Hst3, Hst2, Hst1. by rewrite <- !app_assoc.
  - change (baselines_ td3) with (table_of Baselines td3).
    rewrite Hoth3, Hoth2 by done. done.
  - change (byRefs_ td3) with (table_of ByRefs td3).
    rewrite Hoth3 by done. done.
  - done.
  - intros s e' a' r' Hne.
    rewrite Hoth3, Hoth2, Hoth1; [done|congruence..].
Qed.

(** ** The timed trials *)

Lemma advance_0 c : advance 0 c = c.
Proof. destruct c. unfold advance. simpl. by rewrite N.add_0_r. Qed.

Lemma advance_advance n m c : advance n (advance m c) = advance (m + n) c.
Proof. unfold advance. simpl. by rewrite N.add_assoc. Qed.

Lemma moved_trans w1 w2 w3 dv dr td n out dv' dr' td' n' out' :
  moved w1 dv dr td n out w2 → moved w2 dv' dr' td' n' out' w3 →
  moved w1 (dv ++ dv') (dr ++ dr') td' (n + n') (out ++ out') w3.
Proof.
  intros (Hg & Hv & Hr & Htd & Hc & Ho) (Hg' & Hv' & Hr' & Htd' & Hc' & Ho').
  unfold moved. rewrite Hg', Hv', Hr', Hc', Ho', Hg, Hv, Hr, Hc, Ho.
  by rewrite advance_advance, !app_assoc.
Qed.

Lemma churn_gWork w w' : churn w w' → length (gWork w') = length (gWork w).
Proof. by intros (g & l & -> & Hl). Qed.

Lemma GetElapsedMs_run timer w :
  GetElapsedMs timer w =
    Ok (((clk_now (sysclk w) (clk_reads (sysclk w)) - start_ timer)
           ÷ clk_ticks_per_unit (sysclk w))%Z,
        set_sysclk (advance 1 (sysclk w)) w).
Proof. done. Qed.

Section trials.
Context (cfg : Config) (arr : RandArray).
Hypothesis arr_pos : 1 ≤ arr_N arr.
Hypothesis arr_len : length (arr_ arr) = N.to_nat (arr_N arr).

Lemma work_and_compute_churn w :
  length (gWork w) = N.to_nat kSlots →
  runs_to (RandomWork;; ComputeValue arr) w (λ _ w', churn w w').
Proof.
  intros Hlen. apply runs_bind.
  eapply runs_mono; [by apply RandomWork_churn|].
  intros [] w1 H1. eapply runs_mono; [by apply ComputeValue_churn|].
  intros ? w2 H2. by eapply churn_trans.
Qed.

Lemma passes_churn (body : M N) w :
  length (gWork w) = N.to_nat kSlots →
  (∀ t, length (gWork t) = N.to_nat kSlots →
        runs_to body t (λ _ t', churn t t')) →
  runs_to (repeatM (kTotalPasses cfg)
             (λ sum, v ← body; mret (wrap (sum + v))) 0) w
          (λ _ w', churn w w').
Proof.
  intros Hlen Hbody.
  apply (runs_repeatM (λ _ _ t, churn w t)); [apply churn_refl|].
  intros k sum t _ Hchurn. apply runs_bind.
  eapply runs_mono.
  - apply Hbody. by rewrite (churn_gWork _ _ Hchurn).
  - intros v t' Ht'. apply runs_ret. by eapply churn_trans.
Qed.

Lemma Baseline_passes_churn w :
  length (gWork w) = N.to_nat kSlots →
  runs_to (Baseline_passes cfg arr) w (λ _ w', churn w w').
Proof.
  intros Hlen. unfold Baseline_passes.
  apply (runs_repeatM (λ _ _ t, churn w t)); [apply churn_refl|].
  intros k sum t _ Hchurn. apply runs_bind.
  eapply runs_mono.
  - apply RandomWork_churn. by rewrite (churn_gWork _ _ Hchurn).
  - intros [] t1 Ht1. apply runs_bind. eapply runs_mono.
    + apply ComputeValue_churn; done.
    + intros v t2 Ht2. apply runs_ret.
      eauto using churn_trans.
Qed.

Lemma ByVal_passes_churn w :
  length (gWork w) = N.to_nat kSlots →
  runs_to (ByVal_passes cfg arr) w (λ _ w', churn w w').
Proof.
  intros. apply passes_churn; [done|]. intros. by apply work_and_compute_churn.
Qed.

Lemma ByRef_passes_churn w :
  length (gWork w) = N.to_nat kSlots →
  runs_to (ByRef_passes cfg arr) w (λ _ w', churn w w').
Proof.
  intros. apply passes_churn; [done|]. intros. by apply work_and_compute_churn.
Qed.

Lemma TimeArrBaseline_run w :
  length (gWork w) = N.to_nat kSlots →
  runs_to (TimeArrBaseline cfg arr) w (λ d w',
    d = elapsed (sysclk w) (clk_reads (sysclk w)) ∧
    moved w [] [] (timingData w) 2 [] w').
Proof.
  intros Hlen. unfold TimeArrBaseline, Timer_new.
  destruct (Baseline_passes_churn (set_sysclk (advance 1 (sysclk w)) w))
    as (sum & w1 & Hpass & (g & l & -> & Hl)); [done|].
  eapply runs_Ok.
  - unfold mbind, ST_bind, sysclk_now, mret, ST_ret. fold (advance 1 (sysclk w)).
    rewrite Hpass. unfold modify. by rewrite ?GetElapsedMs_run.
  - split; [done|]. unfold moved. simpl.
    rewrite !app_nil_r. split_and!; try done.
    unfold advance. simpl. f_equal. lia.
Qed.

Lemma TimeArrByRef_run w :
  length (gWork w) = N.to_nat kSlots →
  ∃ d sum w1 w',
    (Timer_new;; ByRef_passes cfg arr) w = Ok (sum, w1) ∧
    TimeArrByRef cfg arr w = Ok (d, w') ∧
    d = elapsed (sysclk w) (clk_reads (sysclk w)) ∧
    moved w [] [sum] (timingData w) 2 [] w'.
Proof.
  intros Hlen. unfold TimeArrByRef, Timer_new.
  destruct (ByRef_passes_churn (set_sysclk (advance 1 (sysclk w)) w))
    as (sum & w1 & Hpass & (g & l & -> & Hl)); [done|].
  eexists _, sum, _, _. split_and!.
  - unfold mbind, ST_bind, sysclk_now, mret, ST_ret. fold (advance 1 (sysclk w)).
    rewrite Hpass. unfold modify. by rewrite ?GetElapsedMs_run.
  - unfold mbind, ST_bind, sysclk_now, mret, ST_ret. fold (advance 1 (sysclk w)).
    rewrite Hpass. unfold modify. by rewrite ?GetElapsedMs_run.
  - done.
  - unfold moved. simpl.
    rewrite !app_nil_r. split_and!; try done.
    unfold advance. simpl. f_equal. lia.
Qed.

Lemma TimeArrByVal_run w :
  length (gWork w) = N.to_nat kSlots →
  ∃ d sum w1 w',
    (Timer_new;; ByVal_passes cfg arr) w = Ok (sum, w1) ∧
    TimeArrByVal cfg arr w = Ok (d, w') ∧
    d = elapsed (sysclk w) (clk_reads (sysclk w)) ∧
    moved w [sum] [] (timingData w) 2 [] w'.
Proof.
  intros Hlen. unfold TimeArrByVal, Timer_new.
  destruct (ByVal_passes_churn (set_sysclk (advance 1 (sysclk w)) w))
    as (sum & w1 & Hpass & (g & l & -> & Hl)); [done|].
  eexists _, sum, _, _. split_and!.
  - unfold mbind, ST_bind, sysclk_now, mret, ST_ret. fold (advance 1 (sysclk w)).
    rewrite Hpass. unfold modify. by rewrite ?GetElapsedMs_run.
  - unfold mbind, ST_bind, sysclk_now, mret, ST_ret. fold (advance 1 (sysclk w)).
    rewrite Hpass. unfold modify. by rewrite ?GetElapsedMs_run.
  - done.
  - unfold moved. simpl.
    rewrite !app_nil_r. split_and!; try done.
    unfold advance. simpl. f_equal. lia.
Qed.
End trials.

(** ** One evaluation *)

Lemma coord_of_index run e a :
  e < kCountOfElemSizesToEval → a < kCountOfArraySizesToEval →
  coord_of ((run * kCountOfElemSizesToEval + e) * kCountOfArraySizesToEval + a)
    = (run, e, a).
Proof.
  rewrite kCountOfElemSizesToEval_eq, kCountOfArraySizesToEval_eq.
  intros He Ha. unfold coord_of, evals_per_run.
  rewrite kCountOfElemSizesToEval_eq, kCountOfArraySizesToEval_eq.
  repeat f_equal; lia.
Qed.

Lemma coord_of_inj k k' : coord_of k = coord_of k' → k = k'.
Proof.
  unfold coord_of, evals_per_run.
  rewrite kCountOfElemSizesToEval_eq, kCountOfArraySizesToEval_eq.
  intros [= H1 H2 H3]. lia.
Qed.

Lemma coord_of_bounds k :
  (coord_of k).1.2 < kCountOfElemSizesToEval ∧
  (coord_of k).2 < kCountOfArraySizesToEval.
Proof.
  unfold coord_of. simpl.
  rewrite kCountOfElemSizesToEval_eq, kCountOfArraySizesToEval_eq. lia.
Qed.

Lemma N_range_succ n : N_range (n + 1) = N_range n ++ [n].
Proof.
  unfold N_range. replace (N.to_nat (n + 1)) with (S (N.to_nat n)) by lia.
  rewrite seq_S, fmap_app. simpl. by rewrite N2Nat.id.
Qed.

Lemma stores_upto_succ n : stores_upto (n + 1) = stores_upto n ++ stores_of n.
Proof.
  unfold stores_upto. rewrite N_range_succ, bind_app. by f_equal.
Qed.

Lemma elapsed_reads now tpu m k :
  elapsed (mkClock now tpu m) k = elapsed (mkClock now tpu 0) k.
Proof. done. Qed.

Section evaluation.
Context `{!StdRanges} (cfg : Config) (now : N → Z) (tpu : Z).

Lemma EvalParamPassing_here_run n w T e a run :
  Inv cfg now tpu n w →
  Log2 (sizeof T) = Ok e → a < kCountOfArraySizesToEval →
  run < kTotalRuns cfg → coord_of n = (run, e, a) →
  ∃ w' v r,
    EvalParamPassing_here cfg T (2 ^ a) run w = Ok (tt, w') ∧
    Inv cfg now tpu (n + 1) w' ∧
    arrByValSums w' = arrByValSums w ++ [v] ∧
    arrByRefSums w' = arrByRefSums w ++ [r] ∧
    cout w' = cout w ++ [OutTiming (2 ^ a) (sizeof T)] ∧
    totals_of_evaluation cfg T (2 ^ a) w v r.
Proof.
  intros (Hgw & Hwf & Hclk & Hst & Hval & Hout) He Ha Hrun Hcoord.
  unfold EvalParamPassing_here.
  destruct (RandArray_new_run T (2 ^ a) w) as (arr & g & Hnew & _ & HN & Hlen).
  rewrite (bind_Ok _ _ _ _ _ Hnew).
  assert (Hpos : 1 ≤ arr_N arr).
  { rewrite HN. pose proof (N.pow_nonzero 2 a). lia. }
  rewrite <- HN in Hlen.
  set (w2 := set_cout (cout (set_rnd g w) ++ [OutTiming (2 ^ a) (sizeof T)])
               (set_rnd g w)).
  assert (Hpr : print (OutTiming (2 ^ a) (sizeof T)) (set_rnd g w) = Ok (tt, w2))
    by done.
  rewrite (bind_Ok _ _ _ _ _ Hpr).
  destruct (TimeArrBaseline_run cfg arr Hpos Hlen w2 Hgw)
    as (b & w3 & Hb & -> & Hm3).
  rewrite (bind_Ok _ _ _ _ _ Hb).
  assert (Hgw3 : length (gWork w3) = N.to_nat kSlots).
  { destruct Hm3 as (-> & _). done. }
  destruct (TimeArrByRef_run cfg arr Hpos Hlen w3 Hgw3)
    as (dr & r & wr & w4 & Hrloop & Hr & -> & Hm4).
  rewrite (bind_Ok _ _ _ _ _ Hr).
  assert (Hgw4 : length (gWork w4) = N.to_nat kSlots).
  { destruct Hm4 as (-> & _). done. }
  destruct (TimeArrByVal_run cfg arr Hpos Hlen w4 Hgw4)
    as (dv & v & wv & w5 & Hvloop & Hv & -> & Hm5).
  rewrite (bind_Ok _ _ _ _ _ Hv).
  pose proof (moved_trans _ _ _ _ _ _ _ _ _ _ _ _ _
                (moved_trans _ _ _ _ _ _ _ _ _ _ _ _ _ Hm3 Hm4) Hm5)
    as (Hg5 & Hv5 & Hr5 & Htd5 & Hc5 & Ho5).
  destruct Hm3 as (_ & _ & _ & Htd3 & Hc3 & _).
  destruct Hm4 as (_ & _ & _ & Htd4 & Hc4 & _).
  simpl in Hv5, Hr5, Ho5, Hc5, Htd5, Hg5, Htd3, Hc3.
  rewrite Htd4, Htd3 in Htd5.
  destruct (SetTimes_run cfg T a run
              (elapsed (sysclk w2) (clk_reads (sysclk w2)))
              (elapsed (sysclk w3) (clk_reads (sysclk w3)))
              (elapsed (sysclk w4) (clk_reads (sysclk w4)))
              (timingData w) Hwf Ha Hrun)
    as (e' & td' & He' & Helt & Hset & Hwf' & Hst' & Hb' & Hr' & Hv' & Hoth).
  rewrite He in He'. injection He' as <-.
  unfold on_timingData. rewrite Htd5, Hset.
  exists (set_timingData td' w5), v, r. split; [done|]. simpl.
  split_and!; [|done|done|by rewrite Ho5, !app_nil_r|by repeat eexists].
  assert (Hs2 : sysclk w2 = mkClock now tpu (6 * n)) by done.
  assert (Hs3 : sysclk w3 = mkClock now tpu (6 * n + 2)).
  { rewrite Hc3, Hclk. done. }
  assert (Hs4 : sysclk w4 = mkClock now tpu (6 * n + 4)).
  { rewrite Hc4, Hs3. unfold advance. simpl. f_equal. lia. }
  rewrite Hs2 in Hb'. rewrite Hs3 in Hr'. rewrite Hs4 in Hv'.
  simpl in Hb', Hr', Hv'. rewrite elapsed_reads in Hb', Hr', Hv'.
  split_and!.
  - simpl. by rewrite Hg5.
  - done.
  - simpl. rewrite Hc5, Hclk. unfold advance. simpl. f_equal. lia.
  - simpl. rewrite Hst', Hst, stores_upto_succ. f_equal.
    unfold stores_of. by rewrite Hcoord.
  - intros k s Hk. simpl timingData.
    destruct (decide (k = n)) as [->|Hne].
    + rewrite Hcoord. simpl. unfold timing_of.
      destruct s; simpl; rewrite ?N.add_0_r; done.
    + rewrite Hoth.
      * apply Hval. lia.
      * intros Heq. apply Hne, coord_of_inj. rewrite Hcoord.
        destruct (coord_of k) as [[? ?] ?]. simpl in Heq. congruence.
  - simpl. rewrite Ho5, !app_nil_r. apply Forall_app. split; [done|].
    by repeat constructor.
Qed.
End evaluation.

(** ** The run loop *)

Lemma grows_refl w : grows w w.
Proof. by split. Qed.

Lemma grows_trans w1 w2 w3 : grows w1 w2 → grows w2 w3 → grows w1 w3.
Proof. intros [? ?] [? ?]. split; by etrans. Qed.

Lemma grows_push w w' v r :
  arrByValSums w' = arrByValSums w ++ v → arrByRefSums w' = arrByRefSums w ++ r →
  grows w w'.
Proof. intros Hv Hr. split; [rewrite Hv | rewrite Hr]; by apply prefix_app_r. Qed.

Lemma TimingData_init_wf cfg : TimingData_wf cfg (TimingData_init cfg).
Proof.
  assert (Table_wf cfg
    (replicate (N.to_nat kCountOfElemSizesToEval)
       (replicate (N.to_nat kCountOfArraySizesToEval)
          (replicate (N.to_nat (kTotalRuns cfg)) 0%Z)))) as Hwf.
  { split; [by rewrite length_replicate|].
    apply Forall_replicate. split; [by rewrite length_replicate|].
    apply Forall_replicate. by rewrite length_replicate. }
  by intros [].
Qed.

Lemma Inv_print cfg now tpu n w o :
  Inv cfg now tpu n w → line_time o = None →
  Inv cfg now tpu n (set_cout (cout w ++ [o]) w).
Proof.
  intros (Hgw & Hwf & Hclk & Hst & Hval & Hout) Ho.
  split_and!; try done. simpl. apply Forall_app. split; [done|].
  by repeat constructor.
Qed.

Section run_loop.
Context `{!StdRanges} (cfg : Config) (now : N → Z) (tpu : Z).

Lemma World_init_Inv : Inv cfg now tpu 0 (World_init cfg now tpu).
Proof.
  split_and!; try done.
  - apply TimingData_init_wf.
  - intros k s Hk. lia.
Qed.

Lemma EvalParamPassing_run T e run depth : ∀ a n w,
  Log2 (sizeof T) = Ok e → e < kCountOfElemSizesToEval →
  run < kTotalRuns cfg →
  a ≤ kCountOfArraySizesToEval →
  (N.to_nat (kCountOfArraySizesToEval - a) ≤ depth)%nat →
  n = (run * kCountOfElemSizesToEval + e) * kCountOfArraySizesToEval + a →
  Inv cfg now tpu n w →
  runs_to (EvalParamPassing cfg depth T kMaxArraySizex2 (2 ^ a) run) w
    (λ _ w', Inv cfg now tpu (n + (kCountOfArraySizesToEval - a)) w' ∧
             grows w w').
Proof.
  induction depth as [|depth IH]; intros a n w He Helt Hrun Ha Hdepth Hn Hinv.
  - assert (a = kCountOfArraySizesToEval) as -> by lia.
    simpl. apply runs_ret.
    rewrite N.sub_diag, N.add_0_r. auto using grows_refl.
  - destruct (decide (a = kCountOfArraySizesToEval)) as [->|Hne].
    { simpl. apply runs_ret.
      rewrite N.sub_diag, N.add_0_r. auto using grows_refl. }
    assert (Halt : a < kCountOfArraySizesToEval) by lia.
    cbn [EvalParamPassing]. rewrite decide_False; last first.
    { change kMaxArraySizex2 with (2 ^ 12).
      intros Heq%N.pow_inj_r; [|lia].
      rewrite kCountOfArraySizesToEval_eq in Hne. done. }
    destruct (EvalParamPassing_here_run cfg now tpu n w T e a run)
      as (w1 & v & r & Hhere & Hinv1 & Hv & Hr & _); [done..| |].
    { subst n. by apply coord_of_index. }
    apply runs_bind. eapply runs_Ok; [exact Hhere|].
    replace (wrap (2 ^ a * 2)) with (2 ^ (a + 1)); last first.
    { rewrite N.pow_add_r, N.pow_1_r. symmetry. apply wrap_small.
      rewrite <- (N.pow_1_r 2) at 2. rewrite <- N.pow_add_r.
      apply pow2_lt_size. rewrite kCountOfArraySizesToEval_eq in Halt.
      unfold size_t_bits. lia. }
    eapply runs_mono.
    + apply (IH (a + 1) (n + 1)); [done..|lia|lia|lia|done].
    + intros [] w2 [Hinv2 Hgrows]. split.
      * by replace (n + (kCountOfArraySizesToEval - a))
          with (n + 1 + (kCountOfArraySizesToEval - (a + 1))) by lia.
      * eapply grows_trans; [|done]. by eapply grows_push.
Qed.

Lemma EvalParamPassing_type T run n w :
  run < kTotalRuns cfg →
  (∃ e, Log2 (sizeof T) = Ok e ∧ e < kCountOfElemSizesToEval ∧
        n = (run * kCountOfElemSizesToEval + e) * kCountOfArraySizesToEval) →
  Inv cfg now tpu n w →
  runs_to (EvalParamPassing cfg template_depth T kMaxArraySizex2 1 run) w
    (λ _ w', Inv cfg now tpu (n + kCountOfArraySizesToEval) w' ∧ grows w w').
Proof.
  intros Hrun (e & He & Helt & Hn) Hinv.
  change 1 with (2 ^ 0).
  eapply runs_mono.
  - eapply (EvalParamPassing_run T e run template_depth 0 n); try done.
    + rewrite kCountOfArraySizesToEval_eq. unfold template_depth. lia.
    + lia.
  - intros [] w' [Hinv' Hgrows]. by rewrite N.sub_0_r in Hinv'.
Qed.

Lemma main_run_run run w :
  run < kTotalRuns cfg →
  Inv cfg now tpu (evals_per_run * run) w →
  runs_to (main_run cfg run) w
    (λ _ w', Inv cfg now tpu (evals_per_run * (run + 1)) w' ∧ grows w w').
Proof.
  intros Hrun Hinv. unfold main_run.
  apply runs_bind. eapply runs_Ok; [done|].
  assert (Hinv0 : Inv cfg now tpu (evals_per_run * run)
            (set_cout (cout w ++ [OutRun run]) w)) by (by apply Inv_print).
  assert (Hg0 : grows w (set_cout (cout w ++ [OutRun run]) w))
    by (by split).
  revert Hinv0 Hg0. generalize (set_cout (cout w ++ [OutRun run]) w).
  clear Hinv. intros w0 Hinv0 Hg0.
  apply runs_bind. eapply runs_mono.
  { apply (EvalParamPassing_type uint8_t run); [done| |exact Hinv0].
    exists 0. split_and!; [done..|]. unfold evals_per_run. lia. }
  intros [] w1 [Hinv1 Hg1].
  apply runs_bind. eapply runs_mono.
  { apply (EvalParamPassing_type uint16_t run); [done| |exact Hinv1].
    exists 1. split_and!; [done..|]. unfold evals_per_run. lia. }
  intros [] w2 [Hinv2 Hg2].
  apply runs_bind. eapply runs_mono.
  { apply (EvalParamPassing_type uint32_t run); [done| |exact Hinv2].
    exists 2. split_and!; [done..|]. unfold evals_per_run. lia. }
  intros [] w3 [Hinv3 Hg3].
  eapply runs_mono.
  { apply (EvalParamPassing_type uint64_t run); [done| |exact Hinv3].
    exists 3. split_and!; [done..|]. unfold evals_per_run. lia. }
  intros [] w4 [Hinv4 Hg4]. split.
  - replace (evals_per_run * (run + 1))
      with (evals_per_run * run + kCountOfArraySizesToEval
            + kCountOfArraySizesToEval + kCountOfArraySizesToEval
            + kCountOfArraySizesToEval); [done|].
    unfold evals_per_run. rewrite kCountOfElemSizesToEval_eq. lia.
  - eauto using grows_trans.
Qed.

Lemma main_runs_from w :
  kTotalRuns cfg < 2 ^ size_t_bits →
  Inv cfg now tpu 0 w →
  runs_to (main_runs cfg) w
    (λ _ w', Inv cfg now tpu (evals_per_run * kTotalRuns cfg) w' ∧ grows w w').
Proof.
  intros Hruns Hinv. unfold main_runs.
  apply runs_bind. eapply runs_Ok; [done|].
  set (w0 := set_cout _ w).
  apply (runs_for_upto
           (λ k t, Inv cfg now tpu (evals_per_run * k) t ∧ grows w t));
    [done| | |done].
  - split; [|by split]. rewrite N.mul_0_r. by apply Inv_print.
  - intros k t Hk [Hinvk Hgk].
    eapply runs_mono; [by apply main_run_run|].
    intros [] t' [Hinv' Hg']. eauto using grows_trans.
Qed.
End run_loop.

(** ** The assignments of the run loop *)

Lemma elem_of_N_range n k : k ∈ N_range n ↔ k < n.
Proof.
  unfold N_range. rewrite list_elem_of_fmap. split.
  - intros (i & -> & Hi%elem_of_seq). lia.
  - intros Hk. exists (N.to_nat k). rewrite elem_of_seq. split; lia.
Qed.

Lemma NoDup_N_range n : NoDup (N_range n).
Proof.
  unfold N_range. apply NoDup_fmap_2_strong; [|apply NoDup_seq].
  intros x y _ _. lia.
Qed.

Lemma elem_of_stores_of s e a run k :
  (s, e, a, run) ∈ stores_of k ↔ coord_of k = (run, e, a).
Proof.
  unfold stores_of. destruct (coord_of k) as [[run' e'] a'].
  rewrite !elem_of_cons, elem_of_nil. split.
  - intros [Heq|[Heq|[Heq|[]]]]; by simplify_eq.
  - intros [= -> -> ->]. destruct s; auto.
Qed.

Lemma NoDup_stores_of k : NoDup (stores_of k).
Proof.
  unfold stores_of. destruct (coord_of k) as [[run e] a].
  apply NoDup_ListNoDup. repeat constructor; simpl; intuition discriminate.
Qed.

Lemma NoDup_stores_upto n : NoDup (stores_upto n).
Proof.
  apply NoDup_bind; [|auto using NoDup_stores_of|apply NoDup_N_range].
  intros k k' [[[s e] a] run] _ _ Hk%elem_of_stores_of Hk'%elem_of_stores_of.
  apply coord_of_inj. congruence.
Qed.

Lemma elem_of_stores_upto runs s e a run :
  (s, e, a, run) ∈ stores_upto (evals_per_run * runs) ↔
  e < kCountOfElemSizesToEval ∧ a < kCountOfArraySizesToEval ∧ run < runs.
Proof.
  unfold stores_upto. rewrite list_elem_of_bind. split.
  - intros (k & Hk%elem_of_stores_of & Hlt%elem_of_N_range).
    pose proof (coord_of_bounds k) as [He Ha]. rewrite Hk in He, Ha.
    split_and!; [done..|].
    unfold coord_of, evals_per_run in *.
    rewrite kCountOfElemSizesToEval_eq, kCountOfArraySizesToEval_eq in *.
    injection Hk as <- _ _. lia.
  - intros (He & Ha & Hrun).
    exists ((run * kCountOfElemSizesToEval + e) * kCountOfArraySizesToEval + a).
    split.
    + apply elem_of_stores_of. by apply coord_of_index.
    + apply elem_of_N_range. unfold evals_per_run.
      rewrite kCountOfElemSizesToEval_eq, kCountOfArraySizesToEval_eq in *. lia.
Qed.

Lemma NoDup_filter_eq_1 {A} `{EqDecision A} (l : list A) x :
  NoDup l → x ∈ l → length (filter (λ y, y = x) l) = 1%nat.
Proof.
  induction l as [|y l IH]; intros Hnd Hin; [by apply elem_of_nil in Hin|].
  apply NoDup_cons in Hnd as [Hy Hnd].
  destruct (decide (y = x)) as [->|Hne].
  - rewrite filter_cons_True by done. simpl. f_equal.
    rewrite filter_none; [done|].
    apply Forall_forall. by intros z Hz ->.
  - rewrite filter_cons_False by done. apply IH; [done|].
    apply elem_of_cons in Hin as [?|?]; [congruence|done].
Qed.

(** C7. When the run loop of [main] has ended, each of the three tables has
    its declared dimensions, [SetTimes] has assigned every cell of every
    series once and no cell twice (the record of its assignments has no
    duplicate and holds exactly the coordinates in range), the coordinates
    of width [sizeof T] and length [2^k < kMaxArraySizex2] are among them,
    and each cell holds the timing of the evaluation that assigned it. *)
Theorem timing_table_fully_populated (cfg : Config) (now : N → Z) (tpu : Z) :
  kTotalRuns cfg < 2 ^ size_t_bits →
  ∃ w, main_runs cfg (World_init cfg now tpu) = Ok (tt, w) ∧
    let td := timingData w in
    TimingData_wf cfg td ∧
    NoDup (stores_ td) ∧
    (∀ s e a run,
       (s, e, a, run) ∈ stores_ td ↔
       e < kCountOfElemSizesToEval ∧ a < kCountOfArraySizesToEval ∧
       run < kTotalRuns cfg) ∧
    (∀ s T k run,
       2 ^ k < kMaxArraySizex2 → run < kTotalRuns cfg →
       ∃ e a, Log2 (sizeof T) = Ok e ∧ Log2 (2 ^ k) = Ok a ∧
              (s, e, a, run) ∈ stores_ td ∧
              length (filter (λ x, x = (s, e, a, run)) (stores_ td)) = 1%nat) ∧
    (∀ s e a run,
       e < kCountOfElemSizesToEval → a < kCountOfArraySizesToEval →
       run < kTotalRuns cfg →
       tbl_at (table_of s td) e a run =
         Some (timing_of (mkClock now tpu 0) s
                 ((run * kCountOfElemSizesToEval + e)
                    * kCountOfArraySizesToEval + a))).
Proof.
  intros Hruns.
  destruct (main_runs_from cfg now tpu (World_init cfg now tpu) Hruns
              (World_init_Inv cfg now tpu))
    as ([] & w & Hmain & (Hgw & Hwf & Hclk & Hst & Hval & _) & _).
  exists w. split; [done|]. cbn zeta.
  assert (Hmem : ∀ s e a run,
    (s, e, a, run) ∈ stores_ (timingData w) ↔
    e < kCountOfElemSizesToEval ∧ a < kCountOfArraySizesToEval ∧
    run < kTotalRuns cfg).
  { intros. rewrite Hst. apply elem_of_stores_upto. }
  assert (Hnodup : NoDup (stores_ (timingData w))).
  { rewrite Hst. apply NoDup_stores_upto. }
  split_and!; [done..| |].
  - intros s T k run Hk Hrun.
    destruct (Log2_sizeof T) as (e & He & Helt & _).
    assert (Hk12 : k < 12).
    { apply (N.pow_lt_mono_r_iff 2); [lia|done]. }
    exists e, k. split_and!; [done| | |].
    + apply Log2_pow2. unfold size_t_bits. lia.
    + apply Hmem. by rewrite kCountOfArraySizesToEval_eq.
    + apply NoDup_filter_eq_1; [done|].
      apply Hmem. by rewrite kCountOfArraySizesToEval_eq.
  - intros s e a run He Ha Hrun.
    specialize (Hval ((run * kCountOfElemSizesToEval + e)
                        * kCountOfArraySizesToEval + a) s).
    rewrite coord_of_index in Hval by done. apply Hval.
    unfold evals_per_run.
    rewrite kCountOfElemSizesToEval_eq, kCountOfArraySizesToEval_eq in *. lia.
Qed.

Lemma timing_table_fully_populated_witness :
  let cfg := config_of true in
  kTotalRuns cfg < 2 ^ size_t_bits ∧
  ∃ w, main_runs cfg (World_init cfg (λ k, Z.of_N k) 1) = Ok (tt, w) ∧
       NoDup (stores_ (timingData w)) ∧
       (ByVals, 3, 11, 2) ∈ stores_ (timingData w).
Proof.
  intros cfg. split; [reflexivity|].
  destruct (timing_table_fully_populated cfg (λ k, Z.of_N k) 1 eq_refl)
    as (w & Hrun & _ & Hnd & Hmem & _).
  exists w. split_and!; [exact Hrun | exact Hnd |].
  apply Hmem. split_and!; reflexivity.
Defined.

(** ** The report *)

Lemma median_by_full_sort_perm c c' :
  c ≡ₚ c' → median_by_full_sort c = median_by_full_sort c'.
Proof.
  intros Hperm. unfold median_by_full_sort.
  rewrite (Permutation_length Hperm). do 2 f_equal.
  apply (StronglySorted_unique Z.le);
    [apply (StronglySorted_merge_sort _)..|].
  by rewrite !merge_sort_Permutation.
Qed.

Lemma Table_perm_refl t : Table_perm t t.
Proof.
  apply Forall_Forall2_diag, Forall_forall. intros row _.
  apply Forall_Forall2_diag, Forall_forall. by intros cell _.
Qed.

Lemma Table_perm_cell t0 t e a cell :
  Table_perm t0 t → tbl_cell t e a = Some cell →
  ∃ cell0, tbl_cell t0 e a = Some cell0 ∧ cell0 ≡ₚ cell.
Proof.
  intros Hperm (row & Hrow & Hcell)%tbl_cell_Some.
  destruct (Forall2_lookup_r _ _ _ _ _ Hperm Hrow) as (row0 & Hrow0 & Hrows).
  destruct (Forall2_lookup_r _ _ _ _ _ Hrows Hcell) as (cell0 & Hcell0 & Hp).
  exists cell0. split; [|done]. apply tbl_cell_Some. eauto.
Qed.

Lemma Table_perm_put t0 t e a cell cell' :
  Table_perm t0 t → tbl_cell t e a = Some cell → cell' ≡ₚ cell →
  Table_perm t0 (tbl_put_cell t e a cell').
Proof.
  intros Hperm (row & Hrow & Hcell)%tbl_cell_Some Hp.
  apply Forall2_alter_r; [done|]. intros row0 row' _ Hrow' Hrows.
  rewrite list_insert_alter. apply Forall2_alter_r; [done|].
  intros c0 c _ Hc Hc0. simplify_eq. by rewrite Hp.
Qed.

Lemma samples_perm td0 td c e a cell :
  TimingData_perm td0 td → tbl_cell (table_of c td) e a = Some cell →
  samples td0 c e a ≡ₚ cell.
Proof.
  intros Hperm Hcell.
  destruct (Table_perm_cell _ _ _ _ _ (Hperm c) Hcell) as (cell0 & H0 & Hp).
  unfold samples. by rewrite H0.
Qed.

Lemma N_to_nat_odd r : r mod 2 = 1 → (N.to_nat r `mod` 2 = 1)%nat.
Proof.
  intros Hodd. change 2%nat with (N.to_nat 2).
  by rewrite <- N2Nat.inj_mod, Hodd.
Qed.

Section report.
Context `{!StdRanges} (cfg : Config).
Hypothesis runs_odd : kTotalRuns cfg mod 2 = 1.

Lemma TimingData_median_run td0 td c e a :
  TimingData_wf cfg td → TimingData_perm td0 td →
  e < kCountOfElemSizesToEval → a < kCountOfArraySizesToEval →
  ∃ td',
    TimingData_median c e a td
      = Ok (median_by_full_sort (samples td0 c e a), td') ∧
    TimingData_wf cfg td' ∧ TimingData_perm td0 td' ∧
    stores_ td' = stores_ td.
Proof.
  intros Hwf Hperm He Ha.
  destruct (Table_wf_cell cfg _ e a (Hwf c) He Ha) as (cell & Hcell & Hlen).
  unfold TimingData_median. rewrite (table_get_cell _ _ _ _ Hcell). simpl.
  destruct (GetMedian_odd cell) as (v & cell' & Hget & Hp & _).
  { rewrite Hlen. by apply N_to_nat_odd. }
  destruct (GetMedian_full_sort _ _ _ Hget) as [-> _].
  rewrite Hget. simpl. rewrite table_set_cell by eauto. simpl.
  eexists. split_and!.
  - do 2 f_equal. apply median_by_full_sort_perm. symmetry.
    by eapply samples_perm.
  - intros s. rewrite table_of_set_table. case_decide; [|apply Hwf].
    apply Table_wf_put; [apply Hwf|]. by rewrite (Permutation_length Hp).
  - intros s. rewrite table_of_set_table. case_decide; [subst s|apply Hperm].
    by eapply Table_perm_put.
  - apply stores_set_table.
Qed.
End report.

Lemma N_range_bind_succ {B} (f : N → list B) n :
  N_range (n + 1) ≫= f = (N_range n ≫= f) ++ f n.
Proof.
  rewrite N_range_succ, bind_app. f_equal.
  change ([n] ≫= f) with (f n ++ []). apply app_nil_r.
Qed.

Lemma reported_refl w : reported w [] w.
Proof.
  unfold reported. rewrite app_nil_r. split_and!; try done.
  intros s. apply Table_perm_refl.
Qed.

Lemma Table_perm_trans : Transitive (λ t t' : Table, Table_perm t t').
Proof.
  intros t1 t2 t3 H12 H23. eapply Forall2_trans; [|done..].
  intros row1 row2 row3 Hr12 Hr23. eapply Forall2_trans; [|done..].
  intros c1 c2 c3 ? ?. by etrans.
Qed.

Lemma reported_trans w1 w2 w3 out out' :
  reported w1 out w2 → reported w2 out' w3 → reported w1 (out ++ out') w3.
Proof.
  intros (Hr & Hg & Hv & Hf & Hc & Ho & Hp & Hs)
         (Hr' & Hg' & Hv' & Hf' & Hc' & Ho' & Hp' & Hs').
  unfold reported. rewrite Hr', Hg', Hv', Hf', Hc', Ho', Hs', Ho.
  rewrite app_assoc. split_and!; try done.
  intros s. by eapply Table_perm_trans.
Qed.

Lemma samples_perm_both td td' c e a :
  TimingData_perm td td' → samples td c e a ≡ₚ samples td' c e a.
Proof.
  intros Hperm. unfold samples.
  destruct (tbl_cell (table_of c td') e a) as [cell'|] eqn:Hcell'.
  - destruct (Table_perm_cell _ _ _ _ _ (Hperm c) Hcell') as (cell & -> & Hp).
    done.
  - destruct (tbl_cell (table_of c td) e a) as [cell|] eqn:Hcell; [|done].
    apply tbl_cell_Some in Hcell as (row & Hrow & Hcell).
    destruct (Forall2_lookup_l _ _ _ _ _ (Hperm c) Hrow) as (row' & Hrow' & Hrr).
    destruct (Forall2_lookup_l _ _ _ _ _ Hrr Hcell) as (cell'' & Hc'' & _).
    assert (tbl_cell (table_of c td') e a = Some cell'') as Heq
      by (apply tbl_cell_Some; eauto).
    by rewrite Heq in Hcell'.
Qed.

Lemma report_for_perm td td' c hdr :
  TimingData_perm td td' → report_for td c hdr = report_for td' c hdr.
Proof.
  intros Hperm. unfold report_for.
  apply list_bind_ext; [|done]. intros e.
  apply list_bind_ext; [|done]. intros a.
  unfold report_line, adjusted.
  by rewrite !(median_by_full_sort_perm _ _ (samples_perm_both td td' _ e a Hperm)).
Qed.

Lemma Table_perm_wf cfg t t' : Table_perm t t' → Table_wf cfg t → Table_wf cfg t'.
Proof.
  intros Hperm [Hlen Hrows]. split.
  - by rewrite <- (Forall2_length _ _ _ Hperm).
  - apply Forall_forall. intros row' (i & Hrow')%list_elem_of_lookup_1.
    destruct (Forall2_lookup_r _ _ _ _ _ Hperm Hrow') as (row & Hrow & Hrr).
    destruct (Forall_lookup_1 _ _ _ _ Hrows Hrow) as [Hlenrow Hcells].
    split; [by rewrite <- (Forall2_length _ _ _ Hrr)|].
    apply Forall_forall. intros cell' (j & Hcell')%list_elem_of_lookup_1.
    destruct (Forall2_lookup_r _ _ _ _ _ Hrr Hcell') as (cell & Hcell & Hp).
    rewrite <- (Permutation_length Hp).
    by eapply (Forall_lookup_1 _ _ _ _ Hcells).
Qed.

Section Output.
Context `{!StdRanges} (cfg : Config).
Hypothesis runs_odd : kTotalRuns cfg mod 2 = 1.

Lemma median_in_world w out t c e a :
  TimingData_wf cfg (timingData w) → reported w out t →
  e < kCountOfElemSizesToEval → a < kCountOfArraySizesToEval →
  runs_to (on_timingData (TimingData_median c e a)) t (λ v t',
    v = median_by_full_sort (samples (timingData w) c e a) ∧
    reported w out t').
Proof.
  intros Hwf (Hr & Hg & Hv & Hf & Hc & Ho & Hp & Hs) He Ha.
  assert (Hwft : TimingData_wf cfg (timingData t)).
  { intros s. eapply Table_perm_wf; [apply Hp | apply Hwf]. }
  destruct (TimingData_median_run cfg runs_odd (timingData w) (timingData t)
              c e a Hwft Hp He Ha) as (td' & Hrun & Hwf' & Hp' & Hs').
  apply runs_on_timingData. eapply runs_Ok; [exact Hrun|].
  split; [done|]. unfold reported. simpl.
  split_and!; try done. by rewrite Hs'.
Qed.

Lemma Output_run c hdr w :
  TimingData_wf cfg (timingData w) →
  runs_to (Output c hdr) w
    (λ _ w', reported w (report_for (timingData w) c hdr) w').
Proof.
  intros Hwf. unfold Output.
  apply (runs_for_upto (λ k t,
    reported w (N_range k ≫= λ e, N_range kCountOfArraySizesToEval ≫=
                  λ a, [report_line (timingData w) c hdr e a]) t));
    [done|apply reported_refl| |done].
  intros e t He Hrep.
  apply runs_bind. eapply runs_lift.
  { apply Exp2_pow2. rewrite kCountOfElemSizesToEval_eq in He.
    unfold size_t_bits. lia. }
  rewrite N_range_bind_succ.
  set (done_ := N_range e ≫= _) in *.
  apply (runs_for_upto (λ k t',
    reported w (done_ ++ (N_range k ≫= λ a,
                  [report_line (timingData w) c hdr e a])) t'));
    [done|by rewrite app_nil_r| |done].
  intros a t' Ha Hrep'.
  apply runs_bind. eapply runs_mono; [by apply median_in_world|].
  intros ? t1 [-> Hrep1].
  apply runs_bind. eapply runs_mono; [by apply median_in_world|].
  intros ? t2 [-> Hrep2].
  apply runs_bind. eapply runs_lift.
  { apply Exp2_pow2. rewrite kCountOfArraySizesToEval_eq in Ha.
    unfold size_t_bits. lia. }
  eapply runs_Ok; [done|].
  rewrite N_range_bind_succ, app_assoc.
  destruct Hrep2 as (Hr & Hg & Hv & Hf & Hc & Ho & Hp & Hs).
  unfold reported. simpl. rewrite Ho. split_and!; try done.
  by rewrite <- !app_assoc.
Qed.

Lemma OutputResults_run w :
  TimingData_wf cfg (timingData w) →
  runs_to OutputResults w
    (λ _ w', reported w (report (timingData w)) w').
Proof.
  intros Hwf. unfold OutputResults. apply runs_bind.
  eapply runs_mono; [by apply Output_run|].
  intros [] w1 Hrep1.
  assert (Hwf1 : TimingData_wf cfg (timingData w1)).
  { intros s. eapply Table_perm_wf; [apply Hrep1 | apply Hwf]. }
  eapply runs_mono; [by apply Output_run|].
  intros [] w2 Hrep2. unfold report.
  replace (report_for (timingData w) ByVals "by val")
    with (report_for (timingData w1) ByVals "by val").
  - by eapply reported_trans.
  - symmetry. apply report_for_perm, Hrep1.
Qed.
End Output.

(** ** The order of the report *)

Lemma fmap_bind_list {A B C} (f : B → C) (g : A → list B) (l : list A) :
  f <$> (l ≫= g) = l ≫= (λ x, f <$> g x).
Proof.
  induction l as [|x l IH]; [done|].
  by rewrite !bind_cons, fmap_app, IH.
Qed.

Lemma report_for_coords td c hdr :
  report_for td c hdr = (λ p, report_line td c hdr p.1 p.2) <$> report_coords.
Proof.
  unfold report_for, report_coords. rewrite fmap_bind_list.
  apply list_bind_ext; [|done]. intros e. by rewrite fmap_bind_list.
Qed.

Lemma elem_of_report_coords e a :
  (e, a) ∈ report_coords ↔
  e < kCountOfElemSizesToEval ∧ a < kCountOfArraySizesToEval.
Proof.
  unfold report_coords. rewrite list_elem_of_bind. split.
  - intros (e' & (a' & Hin & Ha)%list_elem_of_bind & He).
    apply list_elem_of_singleton in Hin as [= -> ->].
    by rewrite <- !elem_of_N_range.
  - intros [He Ha]. exists e. rewrite list_elem_of_bind, elem_of_N_range.
    split; [|done]. exists a. rewrite elem_of_N_range.
    split; [|done]. by apply list_elem_of_singleton.
Qed.

Lemma NoDup_report_coords : NoDup report_coords.
Proof. apply (bool_decide_unpack _). by vm_compute. Qed.

Lemma report_keys_sorted :
  StronglySorted key_lt ((λ p, (2 ^ p.1, 2 ^ p.2)) <$> report_coords).
Proof. apply (bool_decide_unpack _). by vm_compute. Qed.

(** C5. The report prints the "by ref" lines and then the "by val" lines
    and nothing else; in each part the lines follow the coordinates of the
    evaluated matrix in strictly ascending order of (element size, array
    size), one line per coordinate, and the duration of a line is the median
    of the mode's samples at its coordinate minus the median of the baseline
    samples there. *)
Theorem report_order_and_values `{!StdRanges} (cfg : Config) (w : World) :
  kTotalRuns cfg mod 2 = 1 → TimingData_wf cfg (timingData w) →
  ∃ w', OutputResults w = Ok (tt, w') ∧
    let td := timingData w in
    cout w' = cout w ++ report_for td ByRefs "by ref"
                     ++ report_for td ByVals "by val" ∧
    (∀ c hdr,
       line_hdr <$> report_for td c hdr = (λ _, Some hdr) <$> report_coords ∧
       line_key <$> report_for td c hdr
         = (λ p, Some (2 ^ p.1, 2 ^ p.2)) <$> report_coords ∧
       line_time <$> report_for td c hdr
         = (λ p, Some (median_by_full_sort (samples td c p.1 p.2)
                       - median_by_full_sort (samples td Baselines p.1 p.2))%Z)
           <$> report_coords) ∧
    NoDup report_coords ∧
    (∀ e a, (e, a) ∈ report_coords ↔
            e < kCountOfElemSizesToEval ∧ a < kCountOfArraySizesToEval) ∧
    StronglySorted key_lt ((λ p, (2 ^ p.1, 2 ^ p.2)) <$> report_coords).
Proof.
  intros Hodd Hwf.
  destruct (OutputResults_run cfg Hodd w Hwf) as ([] & w' & Hrun & Hrep).
  exists w'. split; [done|]. cbn zeta. split_and!.
  - destruct Hrep as (_ & _ & _ & _ & _ & -> & _). done.
  - intros c hdr. rewrite report_for_coords, <- !list_fmap_compose. done.
  - apply NoDup_report_coords.
  - apply elem_of_report_coords.
  - apply report_keys_sorted.
Qed.

Lemma report_order_and_values_witness :
  let cfg := config_of true in
  let w := World_init cfg (λ k, Z.of_N k) 1 in
  kTotalRuns cfg mod 2 = 1 ∧ TimingData_wf cfg (timingData w) ∧
  ∃ w', @OutputResults (quickselect_ranges quickselect_spec) w = Ok (tt, w') ∧
        cout w' = cout w ++ report_for (timingData w) ByRefs "by ref"
                         ++ report_for (timingData w) ByVals "by val".
Proof.
  intros cfg w.
  assert (Hwf : TimingData_wf cfg (timingData w)).
  { intros []; unfold Table_wf; apply (bool_decide_unpack _); by vm_compute. }
  split_and!; [reflexivity | exact Hwf |].
  destruct (@report_order_and_values (quickselect_ranges quickselect_spec)
              cfg w eq_refl Hwf) as (w' & Hrun & Hout & _).
  exists w'. split; [exact Hrun | exact Hout].
Defined.

(** ** The whole of main *)

Lemma print_run o w : print o w = Ok (tt, set_cout (cout w ++ [o]) w).
Proof. done. Qed.

Lemma runs_bind_inv {S A B} (m : ST S A) (k : A → ST S B) s Q :
  runs_to (m ≫= k) s Q → runs_to m s (λ a s', runs_to (k a) s' Q).
Proof.
  intros (b & s'' & Hrun & HQ). unfold mbind, ST_bind in Hrun.
  destruct (m s) as [[a s']|] eqn:Hm; [|done].
  exists a, s'. split; [done|]. by exists b, s''.
Qed.

Section main.
Context `{!StdRanges} (cfg : Config) (now : N → Z) (tpu : Z).
Hypothesis runs_odd : kTotalRuns cfg mod 2 = 1.
Hypothesis runs_size_t : kTotalRuns cfg < 2 ^ size_t_bits.

Lemma runs_pos : 0 < kTotalRuns cfg.
Proof. destruct (N.eq_dec (kTotalRuns cfg) 0) as [H0|]; [|lia].
  rewrite H0 in runs_odd. done. Qed.

(** The first evaluation of [main]: run 0, [uint8_t], array size 1. *)
Lemma first_evaluation :
  ∃ w0 w1 v r,
    (print (OutText "Running timing evaluation");; print (OutRun 0))
      (World_init cfg now tpu) = Ok (tt, w0) ∧
    totals_of_evaluation cfg uint8_t 1 w0 v r ∧
    (print (OutText "Running timing evaluation");;
     print (OutRun 0);;
     EvalParamPassing_here cfg uint8_t 1 0) (World_init cfg now tpu)
      = Ok (tt, w1) ∧
    arrByValSums w1 = [v] ∧ arrByRefSums w1 = [r] ∧
    Inv cfg now tpu 1 w1.
Proof.
  rewrite (bind_Ok _ _ _ _ _ (print_run _ _)).
  rewrite (bind_Ok _ _ _ _ _ (print_run _ _)).
  rewrite (bind_Ok _ _ _ _ _ (print_run _ _)).
  set (w0 := set_cout _ (set_cout _ _)).
  destruct (EvalParamPassing_here_run cfg now tpu 0 w0 uint8_t 0 0 0)
    as (w1 & v & r & Hhere & Hinv & Hv & Hr & _ & Htot); try done.
  - unfold w0. apply Inv_print; [|done]. apply Inv_print; [|done].
    apply World_init_Inv.
  - apply runs_pos.
  - exists w0, w1, v, r. by split_and!.
Qed.

Lemma EvalParamPassing_S depth T MaxArrSize ArrSize run :
  EvalParamPassing cfg (S depth) T MaxArrSize ArrSize run =
    if decide (ArrSize = MaxArrSize) then mret tt
    else (EvalParamPassing_here cfg T ArrSize run;;
          EvalParamPassing cfg depth T MaxArrSize (wrap (ArrSize * 2)) run).
Proof. done. Qed.

Lemma main_run_after_first depth run w1 :
  (11 ≤ depth)%nat →
  run < kTotalRuns cfg →
  Inv cfg now tpu (evals_per_run * run + 1) w1 →
  runs_to (EvalParamPassing cfg depth uint8_t kMaxArraySizex2 2 run;;
           EvalParamPassing cfg template_depth uint16_t kMaxArraySizex2 1 run;;
           EvalParamPassing cfg template_depth uint32_t kMaxArraySizex2 1 run;;
           EvalParamPassing cfg template_depth uint64_t kMaxArraySizex2 1 run)
    w1
    (λ _ w', Inv cfg now tpu (evals_per_run * (run + 1)) w' ∧ grows w1 w').
Proof.
  intros Hdepth Hrun Hinv.
  apply runs_bind. eapply runs_mono.
  { change 2 with (2 ^ 1) at 1.
    apply (EvalParamPassing_run cfg now tpu uint8_t 0 run
             depth 1 (evals_per_run * run + 1));
      try done.
    unfold evals_per_run.
    rewrite kCountOfElemSizesToEval_eq, kCountOfArraySizesToEval_eq. lia. }
  intros [] w2 [Hinv2 Hg2].
  apply runs_bind. eapply runs_mono.
  { apply (EvalParamPassing_type cfg now tpu uint16_t run);
      [done| |exact Hinv2].
    exists 1. split_and!; [done..|]. unfold evals_per_run.
    rewrite kCountOfArraySizesToEval_eq. lia. }
  intros [] w3 [Hinv3 Hg3].
  apply runs_bind. eapply runs_mono.
  { apply (EvalParamPassing_type cfg now tpu uint32_t run);
      [done| |exact Hinv3].
    exists 2. split_and!; [done..|]. unfold evals_per_run.
    rewrite kCountOfArraySizesToEval_eq. lia. }
  intros [] w4 [Hinv4 Hg4].
  eapply runs_mono.
  { apply (EvalParamPassing_type cfg now tpu uint64_t run);
      [done| |exact Hinv4].
    exists 3. split_and!; [done..|]. unfold evals_per_run.
    rewrite kCountOfArraySizesToEval_eq. lia. }
  intros [] w5 [Hinv5 Hg5]. split.
  - replace (evals_per_run * (run + 1))
      with (evals_per_run * run + 1 + (kCountOfArraySizesToEval - 1)
            + kCountOfArraySizesToEval + kCountOfArraySizesToEval
            + kCountOfArraySizesToEval); [done|].
    unfold evals_per_run.
    rewrite kCountOfElemSizesToEval_eq, kCountOfArraySizesToEval_eq. lia.
  - eauto using grows_trans.
Qed.

Lemma main_runs_first w1 :
  (print (OutText "Running timing evaluation");;
   print (OutRun 0);;
   EvalParamPassing_here cfg uint8_t 1 0) (World_init cfg now tpu)
    = Ok (tt, w1) →
  Inv cfg now tpu 1 w1 →
  runs_to (main_runs cfg) (World_init cfg now tpu)
    (λ _ w', Inv cfg now tpu (evals_per_run * kTotalRuns cfg) w' ∧
             grows w1 w').
Proof.
  intros Hfirst Hinv1. unfold main_runs.
  rewrite (bind_Ok _ _ _ _ _ (print_run _ _)) in Hfirst.
  apply runs_bind. eapply runs_Ok; [apply print_run|].
  set (w00 := set_cout _ _) in *.
  apply (runs_for_upto (λ k t,
    (k = 0 ∧ t = w00) ∨
    (0 < k ∧ Inv cfg now tpu (evals_per_run * k) t ∧ grows w1 t)));
    [done|by left| |].
  - intros k t Hk [[-> ->]|(Hpos & Hinv & Hg)].
    + unfold main_run.
      rewrite (bind_Ok _ _ _ _ _ (print_run _ _)) in Hfirst.
      apply runs_bind. eapply runs_Ok; [apply print_run|].
      assert (∃ d, template_depth = S d ∧ (11 ≤ d)%nat) as (d & Hd & Hle).
      { exists (pred template_depth). split; [done|].
        apply Nat.leb_le. by vm_compute. }
      rewrite Hd at 1. rewrite EvalParamPassing_S, decide_False by done.
      apply runs_bind. apply runs_bind. eapply runs_Ok; [exact Hfirst|].
      replace (wrap (1 * 2)) with 2 by done.
      apply runs_bind_inv. eapply runs_mono.
      * apply (main_run_after_first d 0 w1); [done|apply runs_pos|].
        by rewrite N.mul_0_r.
      * intros [] t' [Hinv' Hg']. right. split_and!; [lia|done..].
    + eapply runs_mono; [by apply main_run_run|].
      intros [] t' [Hinv' Hg']. right.
      split_and!; [lia|done|by eapply grows_trans].
  - intros t [[H0 _]|(_ & Hinv & Hg)]; [|done].
    pose proof runs_pos. lia.
Qed.
End main.

Section main_report.
Context `{!StdRanges} (cfg : Config) (now : N → Z) (tpu : Z).
Hypothesis runs_odd : kTotalRuns cfg mod 2 = 1.
Hypothesis runs_size_t : kTotalRuns cfg < 2 ^ size_t_bits.

Lemma main_report_run w v vs r rs :
  TimingData_wf cfg (timingData w) →
  arrByValSums w = v :: vs → arrByRefSums w = r :: rs →
  runs_to main_report w (λ code w',
    code = to_int (wrap (v + r)) ∧
    cout w' = cout w ++ [OutText "";
                         OutText "Param Pass Type, Array Size, sizeof(T), Time"]
                     ++ report (timingData w) ∧
    arrByValSums w' = arrByValSums w ∧ arrByRefSums w' = arrByRefSums w).
Proof.
  intros Hwf Hv Hr. unfold main_report.
  apply runs_bind. eapply runs_Ok; [apply print_run|].
  apply runs_bind. eapply runs_Ok; [apply print_run|].
  set (w0 := set_cout _ (set_cout _ w)).
  apply runs_bind. eapply runs_mono.
  { apply (OutputResults_run cfg runs_odd w0). exact Hwf. }
  intros [] w' (_ & _ & Hv' & Hr' & _ & Ho & _).
  apply runs_bind, runs_gets. rewrite Hv'. simpl. rewrite Hv.
  apply runs_bind. eapply runs_lift; [done|].
  apply runs_bind, runs_gets. rewrite Hr'. simpl. rewrite Hr.
  apply runs_bind. eapply runs_lift; [done|].
  apply runs_ret. split_and!; [done| |by rewrite Hv', <- Hv|by rewrite Hr', <- Hr].
  rewrite Ho. simpl. by rewrite <- !app_assoc.
Qed.

(** [main] from its first evaluation to its return value. *)
Lemma main_run_spec :
  ∃ w0 w1 v r w2 w',
    (print (OutText "Running timing evaluation");; print (OutRun 0))
      (World_init cfg now tpu) = Ok (tt, w0) ∧
    totals_of_evaluation cfg uint8_t 1 w0 v r ∧
    (print (OutText "Running timing evaluation");;
     print (OutRun 0);;
     EvalParamPassing_here cfg uint8_t 1 0) (World_init cfg now tpu)
      = Ok (tt, w1) ∧
    arrByValSums w1 = [v] ∧ arrByRefSums w1 = [r] ∧
    main_runs cfg (World_init cfg now tpu) = Ok (tt, w2) ∧
    Inv cfg now tpu (evals_per_run * kTotalRuns cfg) w2 ∧
    main cfg (World_init cfg now tpu) = Ok (to_int (wrap (v + r)), w') ∧
    head (arrByValSums w') = Some v ∧ head (arrByRefSums w') = Some r ∧
    cout w' = cout w2 ++ [OutText "";
                          OutText "Param Pass Type, Array Size, sizeof(T), Time"]
                      ++ report (timingData w2).
Proof.
  destruct (first_evaluation cfg now tpu runs_odd runs_size_t)
    as (w0 & w1 & v & r & Hw0 & Htot & Hfirst & Hv & Hr & Hinv1).
  destruct (main_runs_first cfg now tpu runs_odd runs_size_t w1 Hfirst Hinv1)
    as ([] & w2 & Hruns & Hinv2 & [[vs Hvs] [rs Hrs]]).
  rewrite Hv in Hvs. rewrite Hr in Hrs. simpl in Hvs, Hrs.
  destruct (main_report_run w2 v vs r rs) as (code & w' & Hrep & -> & Ho & Hv' & Hr');
    [apply Hinv2|done..|].
  exists w0, w1, v, r, w2, w'. split_and!; try done.
  - unfold main. by rewrite (bind_Ok _ _ _ _ _ Hruns).
  - by rewrite Hv', Hvs.
  - by rewrite Hr', Hrs.
Qed.
End main_report.

Lemma to_int_wrap x :
  to_int (wrap x) = ((Z.of_N x + 2 ^ 31) mod 2 ^ 32 - 2 ^ 31)%Z.
Proof.
  unfold to_int, wrap, size_t_bits. rewrite N2Z.inj_mod.
  change (Z.of_N (2 ^ 64)) with (2 ^ 64)%Z.
  rewrite Z.mod_mod_divide by (by exists (2 ^ 32)%Z).
  pose proof (N2Z.is_nonneg x).
  change (2 ^ 32)%Z with 4294967296%Z. change (2 ^ 31)%Z with 2147483648%Z.
  case_match; lia.
Qed.

(** C9. The value [main] returns is the [int] conversion of the [size_t]
    sum of the front elements of the two sum vectors, and these are the
    totals [v] of the by-value loop and [r] of the by-reference loop of the
    first evaluation (run 0, [uint8_t], array size 1), after which each
    vector holds one element. *)
Theorem main_exit_code `{!StdRanges} (cfg : Config) (now : N → Z) (tpu : Z) :
  kTotalRuns cfg mod 2 = 1 → kTotalRuns cfg < 2 ^ size_t_bits →
  ∃ w0 w1 v r w',
    (print (OutText "Running timing evaluation");; print (OutRun 0))
      (World_init cfg now tpu) = Ok (tt, w0) ∧
    totals_of_evaluation cfg uint8_t 1 w0 v r ∧
    (print (OutText "Running timing evaluation");;
     print (OutRun 0);;
     EvalParamPassing_here cfg uint8_t 1 0) (World_init cfg now tpu)
      = Ok (tt, w1) ∧
    arrByValSums w1 = [v] ∧ arrByRefSums w1 = [r] ∧
    main cfg (World_init cfg now tpu) = Ok (to_int (wrap (v + r)), w') ∧
    head (arrByValSums w') = Some v ∧ head (arrByRefSums w') = Some r ∧
    to_int (wrap (v + r)) = ((Z.of_N (v + r) + 2 ^ 31) mod 2 ^ 32 - 2 ^ 31)%Z.
Proof.
  intros Hodd Hsize.
  destruct (main_run_spec cfg now tpu Hodd Hsize)
    as (w0 & w1 & v & r & w2 & w' & Hw0 & Htot & Hfirst & Hv & Hr & _ & _
        & Hmain & Hv' & Hr' & _).
  exists w0, w1, v, r, w'. split_and!; try done.
  apply to_int_wrap.
Qed.

Lemma main_exit_code_witness :
  let cfg := config_of true in
  let W0 := World_init cfg (λ k, Z.of_N k) 1 in
  kTotalRuns cfg mod 2 = 1 ∧ kTotalRuns cfg < 2 ^ size_t_bits ∧
  ∃ w0 w1 v r w',
    totals_of_evaluation cfg uint8_t 1 w0 v r ∧
    (print (OutText "Running timing evaluation");;
     print (OutRun 0);;
     EvalParamPassing_here cfg uint8_t 1 0) W0 = Ok (tt, w1) ∧
    arrByValSums w1 = [v] ∧ arrByRefSums w1 = [r] ∧
    @main (quickselect_ranges quickselect_spec) cfg W0
      = Ok (to_int (wrap (v + r)), w').
Proof.
  intros cfg W0. split_and!; [reflexivity..|].
  destruct (@main_exit_code (quickselect_ranges quickselect_spec) cfg
              (λ k, Z.of_N k) 1 eq_refl eq_refl)
    as (w0 & w1 & v & r & w' & _ & Htot & Hfirst & Hv & Hr & Hmain & _).
  exists w0, w1, v, r, w'.
  split_and!; [exact Htot | exact Hfirst | exact Hv | exact Hr | exact Hmain].
Defined.

(** ** Programmer errors *)

(** C8. An even [kTotalRuns] stops the build at the static assertion;
    [Exp2] of an exponent below the width of [size_t] passes its assertion
    and returns the power of two; [Log2] of a power of two passes its
    assertion and returns the exponent; and with an odd [kTotalRuns] every
    cell of a timing table has odd length, [GetMedian] passes its assertion
    on it, and [main] runs to its end without a fault.  Outside these
    preconditions the assertions fail. *)
Theorem programmer_errors_caught `{!StdRanges} :
  (∀ cfg, kTotalRuns cfg mod 2 = 0 → program cfg = None) ∧
  (∀ cfg, kTotalRuns cfg mod 2 = 1 → program cfg = Some (main cfg)) ∧
  (∀ exponent, exponent < size_t_bits → Exp2 exponent = Ok (2 ^ exponent)) ∧
  (∀ exponent, size_t_bits ≤ exponent → Exp2 exponent = Fail AssertionFailed) ∧
  (∀ k, k < size_t_bits →
        has_single_bit (2 ^ k) = true ∧ Log2 (2 ^ k) = Ok k) ∧
  (∀ x, (∀ k, x ≠ 2 ^ k) → Log2 x = Fail AssertionFailed) ∧
  (∀ cfg td c e a,
     kTotalRuns cfg mod 2 = 1 → TimingData_wf cfg td →
     e < kCountOfElemSizesToEval → a < kCountOfArraySizesToEval →
     ∃ cell v cell',
       tbl_cell (table_of c td) e a = Some cell ∧
       (length cell `mod` 2 = 1)%nat ∧
       GetMedian cell = Ok (v, cell')) ∧
  (∀ c : list Z, (length c `mod` 2 ≠ 1)%nat →
     GetMedian c = Fail AssertionFailed) ∧
  (∀ cfg now tpu,
     kTotalRuns cfg mod 2 = 1 → kTotalRuns cfg < 2 ^ size_t_bits →
     ∃ code w', main cfg (World_init cfg now tpu) = Ok (code, w')).
Proof.
  split_and!.
  - intros cfg Heven. unfold program, static_assert_runs_odd.
    by rewrite Heven.
  - intros cfg Hodd. unfold program, static_assert_runs_odd.
    by rewrite Hodd.
  - apply Exp2_pow2.
  - apply Exp2_fails.
  - intros k Hk. split; [apply has_single_bit_pow2 | by apply Log2_pow2].
  - intros x Hx. apply Log2_not_pow2.
    destruct (has_single_bit x) eqn:Hbit; [|done].
    apply has_single_bit_inv in Hbit. by destruct (Hx (N.log2 x)).
  - intros cfg td c e a Hodd Hwf He Ha.
    destruct (Table_wf_cell cfg _ e a (Hwf c) He Ha) as (cell & Hcell & Hlen).
    assert (Hcellodd : (length cell `mod` 2 = 1)%nat).
    { rewrite Hlen. by apply N_to_nat_odd. }
    destruct (GetMedian_odd cell Hcellodd) as (v & cell' & Hget & _).
    by exists cell, v, cell'.
  - apply GetMedian_even.
  - intros cfg now tpu Hodd Hsize.
    destruct (main_run_spec cfg now tpu Hodd Hsize)
      as (_ & _ & v & r & _ & w' & _ & _ & _ & _ & _ & _ & _ & Hmain & _).
    eauto.
Qed.

Lemma programmer_errors_caught_witness :
  let H := quickselect_ranges quickselect_spec in
  program (mkConfig 4 100000) = None ∧
  program (config_of true) = Some (main (config_of true)) ∧
  Exp2 11 = Ok 2048 ∧ Exp2 64 = Fail AssertionFailed ∧
  Log2 4096 = Ok 12 ∧ Log2 12 = Fail AssertionFailed ∧
  GetMedian [3; 1]%Z = Fail AssertionFailed ∧
  ∃ code w', main (config_of true)
               (World_init (config_of true) (λ k, Z.of_N k) 1)
             = Ok (code, w').
Proof.
  intros H.
  destruct (@programmer_errors_caught H)
    as (Heven & Hodd & Hexp & Hexp' & Hlog & Hlog' & _ & Hmed & Hmain).
  split_and!.
  - exact (Heven (mkConfig 4 100000) eq_refl).
  - exact (Hodd (config_of true) eq_refl).
  - exact (Hexp 11 eq_refl).
  - apply Hexp'. discriminate.
  - exact (proj2 (Hlog 12 eq_refl)).
  - reflexivity.
  - apply Hmed. discriminate.
  - exact (Hmain (config_of true) (λ k, Z.of_N k) 1%Z eq_refl eq_refl).
Defined.

(** ** The sign of the adjusted durations *)

Lemma Inv_samples cfg now tpu w s e a :
  Inv cfg now tpu (evals_per_run * kTotalRuns cfg) w →
  e < kCountOfElemSizesToEval → a < kCountOfArraySizesToEval →
  samples (timingData w) s e a =
    (λ run, timing_of (mkClock now tpu 0) s
              ((run * kCountOfElemSizesToEval + e)
                 * kCountOfArraySizesToEval + a))
      <$> N_range (kTotalRuns cfg).
Proof.
  intros (_ & Hwf & _ & _ & Hval & _) He Ha.
  destruct (Table_wf_cell cfg _ e a (Hwf s) He Ha) as (cell & Hcell & Hlen).
  unfold samples. rewrite Hcell. simpl.
  apply list_eq_same_length with (N.to_nat (kTotalRuns cfg)); [|done|].
  { unfold N_range. by rewrite !length_fmap, length_seq. }
  intros i x y Hi Hx Hy.
  unfold N_range in Hy. rewrite <- list_fmap_compose, list_lookup_fmap in Hy.
  rewrite lookup_seq_lt in Hy by done. simpl in Hy. injection Hy as <-.
  specialize (Hval ((N.of_nat i * kCountOfElemSizesToEval + e)
                      * kCountOfArraySizesToEval + a) s).
  rewrite coord_of_index in Hval by done. simpl in Hval.
  unfold tbl_at in Hval. rewrite Hcell in Hval. simpl in Hval.
  rewrite Nat2N.id, Hx in Hval. injection Hval as ->; [done|].
  unfold evals_per_run.
  rewrite kCountOfElemSizesToEval_eq, kCountOfArraySizesToEval_eq in *. lia.
Qed.

Lemma elem_of_report_for td c hdr o :
  o ∈ report_for td c hdr →
  ∃ e a, e < kCountOfElemSizesToEval ∧ a < kCountOfArraySizesToEval ∧
         o = report_line td c hdr e a.
Proof.
  unfold report_for.
  intros (e & (a & Ho & Ha)%list_elem_of_bind & He)%list_elem_of_bind.
  apply list_elem_of_singleton in Ho. exists e, a.
  by rewrite <- !elem_of_N_range.
Qed.

(** C6, as the code has it. Every data line that [main] prints comes from
    the report, for a mode and a coordinate of the matrix, and its duration
    is the signed difference of the median of the mode's samples and the
    median of the baseline samples: it is negative exactly when the mode's
    median is below the baseline's. *)
Theorem adjusted_duration_is_signed `{!StdRanges} (cfg : Config)
    (now : N → Z) (tpu : Z) :
  kTotalRuns cfg mod 2 = 1 → kTotalRuns cfg < 2 ^ size_t_bits →
  ∃ w2 code w',
    main_runs cfg (World_init cfg now tpu) = Ok (tt, w2) ∧
    main cfg (World_init cfg now tpu) = Ok (code, w') ∧
    ∀ hdr arrSize elemSize time,
      OutData hdr arrSize elemSize time ∈ cout w' →
      ∃ c e a,
        (c = ByRefs ∧ hdr = "by ref" ∨ c = ByVals ∧ hdr = "by val") ∧
        e < kCountOfElemSizesToEval ∧ a < kCountOfArraySizesToEval ∧
        arrSize = 2 ^ a ∧ elemSize = 2 ^ e ∧
        let mode := median_by_full_sort (samples (timingData w2) c e a) in
        let base := median_by_full_sort (samples (timingData w2) Baselines e a) in
        time = (mode - base)%Z ∧
        ((0 ≤ time)%Z ↔ (base ≤ mode)%Z) ∧
        ((time < 0)%Z ↔ (mode < base)%Z).
Proof.
  intros Hodd Hsize.
  destruct (main_run_spec cfg now tpu Hodd Hsize)
    as (_ & _ & v & r & w2 & w' & _ & _ & _ & _ & _ & Hruns & Hinv & Hmain
        & _ & _ & Hout).
  exists w2, (to_int (wrap (v + r))), w'. split_and!; [done..|].
  intros hdr arrSize elemSize time Hin.
  rewrite Hout in Hin. destruct Hinv as (_ & _ & _ & _ & _ & Hnodata).
  apply elem_of_app in Hin as [Hin|Hin].
  { rewrite Forall_forall in Hnodata. by apply Hnodata in Hin. }
  apply elem_of_app in Hin as [Hin|Hin].
  { apply elem_of_cons in Hin as [?|Hin]; [done|].
    apply elem_of_cons in Hin as [?|Hin]; [done|].
    by apply elem_of_nil in Hin. }
  unfold report in Hin.
  apply elem_of_app in Hin as [Hin|Hin];
    apply elem_of_report_for in Hin as (e & a & He & Ha & [= -> -> -> ->]);
    [exists ByRefs, e, a | exists ByVals, e, a];
    (split_and!; [auto|done..| | |]; unfold adjusted; [done|lia|lia]).
Qed.

Lemma adjusted_duration_is_signed_witness :
  let cfg := config_of true in
  kTotalRuns cfg mod 2 = 1 ∧ kTotalRuns cfg < 2 ^ size_t_bits ∧
  ∃ code w',
    @main (quickselect_ranges quickselect_spec) cfg
      (World_init cfg clock_fast_calls 1) = Ok (code, w').
Proof.
  intros cfg. split_and!; [reflexivity..|].
  destruct (@adjusted_duration_is_signed (quickselect_ranges quickselect_spec)
              cfg clock_fast_calls 1 eq_refl eq_refl)
    as (w2 & code & w' & _ & Hmain & _).
  exists code, w'. exact Hmain.
Defined.

(** C6, as it is stated, fails: under a clock that gives every by-reference
    loop 3 units and every baseline loop 5, the debug build prints the line
    "by ref, 1, 1, -2". *)
Lemma report_negative_counterexample :
  ¬ @report_never_negative (quickselect_ranges quickselect_spec)
      (config_of true).
Proof.
  intros Hclaim.
  destruct (@main_run_spec (quickselect_ranges quickselect_spec)
              (config_of true) clock_fast_calls 1 eq_refl eq_refl)
    as (_ & _ & v & r & w2 & w' & _ & _ & _ & _ & _ & Hruns & Hinv & Hmain
        & _ & _ & Hout).
  assert (Hline : OutData "by ref" 1 1 (-2) ∈ cout w').
  { rewrite Hout. apply elem_of_app. right. apply elem_of_app. right.
    unfold report. apply elem_of_app. left.
    unfold report_for. apply list_elem_of_bind. exists 0.
    split; [|by apply elem_of_N_range].
    apply list_elem_of_bind. exists 0.
    split; [|by apply elem_of_N_range].
    apply list_elem_of_singleton. unfold report_line, adjusted.
    rewrite !(Inv_samples _ _ _ _ _ _ _ Hinv) by done.
    by vm_compute. }
  specialize (Hclaim clock_fast_calls 1%Z _ w' _ _ _ _ Hmain Hline). lia.
Qed.

(** ** Exp2 and Log2 as conversions between sizes and indices *)

Lemma mod_mod_mul x m n : m ≠ 0 → n ≠ 0 → (x mod (m * n)) mod m = x mod m.
Proof.
  intros Hm Hn. rewrite N.Div0.mod_mul_r.
  rewrite (N.mul_comm m (_ mod n)), N.Div0.mod_add. apply N.Div0.mod_mod.
Qed.

Lemma wrap_mod_pow2 x k : k ≤ size_t_bits → wrap x mod 2 ^ k = x mod 2 ^ k.
Proof.
  intros Hk. unfold wrap.
  replace size_t_bits with (k + (size_t_bits - k)) by lia.
  rewrite N.pow_add_r. apply mod_mod_mul; apply N.pow_nonzero; lia.
Qed.

Lemma Log2_loop_floor bound : ∀ x result,
  (N.to_nat (N.log2 x) ≤ bound)%nat → result + N.log2 x < 2 ^ size_t_bits →
  Log2_loop bound x result = Ok (result + N.log2 x).
Proof.
  induction bound as [|bound IH]; intros x result Hb Hres.
  - assert (Hx : N.log2 x = 0) by lia.
    cbn [Log2_loop]. rewrite N.shiftr_eq_0 by lia. simpl.
    by rewrite Hx, N.add_0_r.
  - cbn [Log2_loop].
    destruct (N.eqb_spec (N.shiftr x 1) 0) as [H0|Hnz].
    + apply N.shiftr_eq_0_iff in H0 as [->|[_ Hlt]].
      * simpl. by rewrite N.add_0_r.
      * replace (N.log2 x) with 0 by lia. by rewrite N.add_0_r.
    + assert (1 ≤ N.log2 x).
      { destruct (N.le_gt_cases 1 (N.log2 x)); [done|].
        destruct Hnz. by apply N.shiftr_eq_0. }
      rewrite (wrap_small (result + 1)) by lia.
      rewrite IH; rewrite N.log2_shiftr; [f_equal; lia | lia | lia].
Qed.

Lemma log2_lt_size x : x < 2 ^ size_t_bits → N.log2 x < size_t_bits.
Proof.
  intros Hx. destruct (N.eq_dec x 0) as [->|Hnz]; [done|].
  apply N.log2_lt_pow2; [lia | done].
Qed.

(** X1. The loop of [Log2] computes the position of the highest set bit
    of any word (0 for the words 0 and 1) within the 64 rounds a word
    allows; so [Log2] returns the floor of the binary logarithm exactly on
    the words that pass [has_single_bit] and fails its assertion on all
    others. *)
Theorem Log2_loop_is_floor_log2 (x : N) :
  x < 2 ^ size_t_bits →
  Log2_loop (N.to_nat size_t_bits) x 0 = Ok (N.log2 x) ∧
  Log2 x = if has_single_bit x then Ok (N.log2 x) else Fail AssertionFailed.
Proof.
  intros Hx. pose proof (log2_lt_size x Hx) as Hlog.
  assert (Hloop : Log2_loop (N.to_nat size_t_bits) x 0 = Ok (N.log2 x)).
  { rewrite Log2_loop_floor; [done | lia |].
    rewrite N.add_0_l. unfold size_t_bits in *.
    eapply N.lt_trans; [exact Hlog | reflexivity]. }
  split; [done|]. unfold Log2. by destruct (has_single_bit x).
Qed.

Lemma Log2_loop_is_floor_log2_witness :
  Log2_loop (N.to_nat size_t_bits) 1000 0 = Ok 9 ∧
  Log2 1000 = Fail AssertionFailed.
Proof. apply (Log2_loop_is_floor_log2 1000). reflexivity. Defined.

(** X2. [Exp2] and [Log2] are inverse to each other: the logarithm of
    whatever [Exp2] returns is the exponent it was given, and [Exp2] of
    whatever [Log2] returns for a word is that word. *)
Theorem Exp2_Log2_round_trip :
  (∀ e p, Exp2 e = Ok p → Log2 p = Ok e) ∧
  (∀ p k, p < 2 ^ size_t_bits → Log2 p = Ok k → Exp2 k = Ok p).
Proof.
  split.
  - intros e p. unfold Exp2 at 1.
    destruct (N.ltb_spec e size_t_bits) as [Hlt|]; [|done].
    rewrite N.shiftl_1_l, wrap_small by (by apply pow2_lt_size).
    intros [= <-]. by apply Log2_pow2.
  - intros p k Hp. unfold Log2.
    destruct (has_single_bit p) eqn:Hbit; [|done].
    apply has_single_bit_inv in Hbit.
    pose proof (log2_lt_size p Hp) as Hlog.
    rewrite Log2_loop_floor; [| lia |].
    + rewrite N.add_0_l. intros [= <-]. rewrite Exp2_pow2 by done.
      by rewrite <- Hbit.
    + rewrite N.add_0_l. unfold size_t_bits in *.
      eapply N.lt_trans; [exact Hlog | reflexivity].
Qed.

Lemma Exp2_Log2_round_trip_witness :
  Log2 2048 = Ok 11 ∧ Exp2 11 = Ok 2048.
Proof.
  destruct Exp2_Log2_round_trip as [H1 H2]. split.
  - apply (H1 11 2048). reflexivity.
  - apply (H2 2048 11); reflexivity.
Defined.

(** ** The low bits of the generator *)

(** Modulo 4 the recurrence is a step of 3, that is, a step back by 1. *)
Lemma lcg_step_mod4 x : lcg_step x mod 4 = (x + 3) mod 4.
Proof.
  unfold lcg_step. rewrite (wrap_mod_pow2 _ 2) by done.
  change (2 ^ 2) with 4. lia.
Qed.

Lemma iter_lcg_mod4 n x :
  Nat.iter n lcg_step x mod 4 = (x + 3 * N.of_nat n) mod 4.
Proof.
  induction n as [|n IH]; [simpl; f_equal; lia|].
  rewrite Nat.iter_succ, lcg_step_mod4.
  rewrite <- N.Div0.add_mod_idemp_l, IH, N.Div0.add_mod_idemp_l. f_equal. lia.
Qed.

(** [2 ^ k] steps of the recurrence are an affine map [A * x + C] with
    [A = 1] modulo [2 ^ (k + 1)] and [C = 0] modulo [2 ^ k]. *)
Lemma iter_pow2_affine (k : nat) :
  ∃ A C, (∀ x, Nat.iter (2 ^ k)%nat lcg_step x = wrap (A * x + C)) ∧
         A mod 2 ^ (N.of_nat k + 1) = 1 ∧ C mod 2 ^ N.of_nat k = 0.
Proof.
  induction k as [|k (A & C & Hiter & HA & HC)].
  - exists 214013, 2531011. split_and!; [|reflexivity..].
    intros x. change (2 ^ 0)%nat with 1%nat. rewrite Nat.iter_succ.
    unfold lcg_step. simpl. f_equal. lia.
  - exists (A * A), (C * (A + 1)).
    replace (N.of_nat (S k)) with (N.of_nat k + 1) by lia.
    set (P := 2 ^ N.of_nat k) in *.
    assert (HP : 2 ^ (N.of_nat k + 1) = 2 * P).
    { unfold P. by rewrite N.pow_add_r, N.mul_comm. }
    assert (HP2 : 2 ^ (N.of_nat k + 1 + 1) = 4 * P).
    { rewrite N.pow_add_r, HP. lia. }
    assert (HPpos : 0 < P) by (unfold P; apply N.neq_0_lt_0, N.pow_nonzero; lia).
    rewrite HP in HA |- *. rewrite HP2.
    split_and!.
    + intros x. replace (2 ^ S k)%nat with (2 ^ k + 2 ^ k)%nat by (simpl; lia).
      rewrite Nat.iter_add, !Hiter. unfold wrap.
      rewrite <- N.Div0.add_mod_idemp_l, N.Div0.mul_mod_idemp_r,
        N.Div0.add_mod_idemp_l.
      f_equal. lia.
    + pose proof (N.div_mod A (2 * P)) as HdA. rewrite HA in HdA.
      specialize (HdA ltac:(lia)). revert HdA.
      generalize (A / (2 * P)). intros q ->.
      replace ((2 * P * q + 1) * (2 * P * q + 1))
        with (1 + (P * q * q + q) * (4 * P)) by ring.
      rewrite N.Div0.mod_add. apply N.mod_small. lia.
    + pose proof (N.div_mod A (2 * P)) as HdA. rewrite HA in HdA.
      specialize (HdA ltac:(lia)). revert HdA.
      generalize (A / (2 * P)). intros q ->.
      pose proof (N.div_mod C P) as HdC. rewrite HC in HdC.
      specialize (HdC ltac:(lia)). revert HdC.
      generalize (C / P). intros c ->.
      replace ((P * c + 0) * (2 * P * q + 1 + 1))
        with (c * (P * q + 1) * (2 * P)) by ring.
      apply N.Div0.mod_mul.
Qed.

Lemma iter_pow2_low_bits (k : nat) x :
  N.of_nat k ≤ size_t_bits →
  Nat.iter (2 ^ k)%nat lcg_step x mod 2 ^ N.of_nat k = x mod 2 ^ N.of_nat k.
Proof.
  intros Hk. destruct (iter_pow2_affine k) as (A & C & -> & HA & HC).
  rewrite wrap_mod_pow2 by done.
  assert (HA' : A mod 2 ^ N.of_nat k = 1 mod 2 ^ N.of_nat k).
  { rewrite <- HA. rewrite N.pow_add_r, N.pow_1_r.
    symmetry. apply mod_mod_mul; [apply N.pow_nonzero|]; lia. }
  rewrite <- N.Div0.add_mod_idemp_r, HC, N.add_0_r.
  rewrite <- N.Div0.mul_mod_idemp_l, HA', N.Div0.mul_mod_idemp_l.
  f_equal. lia.
Qed.

(** X3. The low [k] bits of the values the generator returns repeat with
    period [2 ^ k], for every [k] up to the word size: the value of call
    [i + 2 ^ k] agrees with the value of call [i] modulo [2 ^ k].  So the
    slot indices [rnd() % kSlots] repeat every 16 calls and the counts
    [rnd() % kValuesToSumMax] every 4. *)
Theorem FauxRand_low_bits_period (k m i : nat) (g : FauxRand) (x : N) :
  N.of_nat k ≤ size_t_bits →
  (FauxRand_calls m g).1 !! i = Some x →
  ∃ y, (FauxRand_calls (m + 2 ^ k) g).1 !! (i + 2 ^ k)%nat = Some y ∧
       y mod 2 ^ N.of_nat k = x mod 2 ^ N.of_nat k.
Proof.
  intros Hk. rewrite !FauxRand_calls_lcg. cbn [fst].
  rewrite !list_lookup_fmap. intros Hx.
  destruct (seq 0 m !! i) as [j|] eqn:Hj; [|done].
  apply lookup_seq in Hj as [-> Hlt]. injection Hx as <-.
  rewrite lookup_seq_lt by lia. eexists. split; [done|].
  replace (S (0 + (i + 2 ^ k))) with (2 ^ k + S (0 + i))%nat by lia.
  rewrite Nat.iter_add. by apply iter_pow2_low_bits.
Qed.

Lemma FauxRand_low_bits_period_witness :
  ∃ y, (FauxRand_calls 17 (mkFauxRand 42)).1 !! 16%nat = Some y ∧
       y mod kSlots = 11519557 mod kSlots.
Proof.
  destruct (FauxRand_low_bits_period 4 1 0 (mkFauxRand 42) 11519557)
    as (y & Hy & Hmod); [vm_compute; discriminate | reflexivity |].
  exists y. split; [exact Hy | exact Hmod].
Defined.

(** ** The median as a statistic *)

Section GetMedian_more.
Context `{!StdRanges}.

Lemma GetMedian_Ok_odd c v c' :
  GetMedian c = Ok (v, c') → (length c `mod` 2 = 1)%nat.
Proof.
  intros Hget. destruct (decide (length c `mod` 2 = 1)%nat); [done|].
  by rewrite GetMedian_even in Hget.
Qed.

Lemma GetMedian_Ok_split c v c' :
  GetMedian c = Ok (v, c') →
  c' ≡ₚ c ∧ ∃ lo hi, split_at c' (length c `div` 2) lo v hi.
Proof.
  intros Hget. pose proof (GetMedian_Ok_odd _ _ _ Hget) as Hodd.
  unfold GetMedian in Hget. rewrite decide_True in Hget by done.
  pose proof (nth_element_spec c (length c `div` 2)%nat) as Hpost.
  destruct (nth_element c (length c `div` 2)%nat !! (length c `div` 2)%nat)
    as [p|] eqn:Hp; [|done].
  injection Hget as <- <-. split; [apply Hpost|].
  by eapply nth_element_post_split.
Qed.

Lemma GetMedian_Ok_elem c v c' : GetMedian c = Ok (v, c') → v ∈ c.
Proof.
  intros Hget.
  destruct (GetMedian_Ok_split _ _ _ Hget) as (Hperm & lo & hi & -> & _).
  rewrite <- Hperm. apply elem_of_app. right. left.
Qed.

(** X4. The median does not depend on the order of the samples: if
    [GetMedian] returns [v] on a collection, it returns [v] on every
    rearrangement of it, and in particular on the collection as the first
    call left it. *)
Theorem GetMedian_order_independent (c1 c2 : list Z) (v : Z) (c1' : list Z) :
  GetMedian c1 = Ok (v, c1') → c1 ≡ₚ c2 →
  (∃ c2', GetMedian c2 = Ok (v, c2')) ∧
  (∃ c1'', GetMedian c1' = Ok (v, c1'')).
Proof.
  intros Hget Hperm.
  pose proof (GetMedian_Ok_odd _ _ _ Hget) as Hodd.
  destruct (GetMedian_full_sort _ _ _ Hget) as [-> Hperm'].
  assert (Hany : ∀ c, c ≡ₚ c1 →
            ∃ c', GetMedian c = Ok (median_by_full_sort c1, c')).
  { intros c Hc.
    destruct (GetMedian_odd c) as (v & c' & Hgetc & _).
    { by rewrite (Permutation_length Hc). }
    destruct (GetMedian_full_sort _ _ _ Hgetc) as [-> _].
    exists c'. by rewrite <- (median_by_full_sort_perm _ _ Hc). }
  split; apply Hany; [by symmetry | done].
Qed.

Lemma GetMedian_Ok_counts c v c' :
  GetMedian c = Ok (v, c') →
  (length (filter (λ x, x < v)%Z c) ≤ length c `div` 2)%nat ∧
  (length (filter (λ x, v < x)%Z c) ≤ length c `div` 2)%nat.
Proof.
  intros Hget. pose proof (GetMedian_Ok_odd _ _ _ Hget) as Hodd.
  destruct (GetMedian_Ok_split _ _ _ Hget)
    as (Hperm & lo & hi & Heq & Hlen & Hlo & Hhi).
  rewrite Heq in Hperm.
  pose proof (Permutation_length Hperm) as Hlens.
  rewrite length_app in Hlens. cbn [length] in Hlens.
  assert (Hfilter : ∀ (P : Z → Prop) `{!∀ x, Decision (P x)},
            length (filter P c) = length (filter P (lo ++ v :: hi))).
  { intros P ?. by rewrite Hperm. }
  rewrite !Hfilter. split.
  - rewrite filter_app, filter_cons_False by lia.
    rewrite (filter_none _ hi); last first.
    { eapply Forall_impl; [exact Hhi|]. intros y Hy. cbn in *. lia. }
    rewrite app_nil_r. rewrite <- Hlen. apply length_filter.
  - rewrite filter_app, filter_cons_False by lia.
    rewrite (filter_none _ lo); last first.
    { eapply Forall_impl; [exact Hlo|]. intros y Hy. cbn in *. lia. }
    cbn [app]. etrans; [apply length_filter|].
    pose proof (Nat.div_mod_eq (length c) 2). lia.
Qed.

(** X5. The value [GetMedian] returns is one of the samples, at most half
    of the samples (rounded down) are smaller than it and at most half are
    greater. *)
Theorem GetMedian_balanced (c : list Z) (v : Z) (c' : list Z) :
  GetMedian c = Ok (v, c') →
  v ∈ c ∧
  (length (filter (λ x, x < v)%Z c) ≤ length c `div` 2)%nat ∧
  (length (filter (λ x, v < x)%Z c) ≤ length c `div` 2)%nat.
Proof.
  intros Hget. split; [by eapply GetMedian_Ok_elem|].
  by eapply GetMedian_Ok_counts.
Qed.

(** X6. [GetMedian] fails its assertion on an empty collection; on a
    single sample it returns that sample; on an odd number of equal samples
    it returns their value; and in the last two cases it leaves the
    collection as it was. *)
Theorem GetMedian_edge_cases :
  GetMedian [] = Fail AssertionFailed ∧
  (∀ x, GetMedian [x] = Ok (x, [x])) ∧
  (∀ x n, GetMedian (replicate (2 * n + 1) x)
            = Ok (x, replicate (2 * n + 1) x)).
Proof.
  assert (Hrep : ∀ x n, GetMedian (replicate (2 * n + 1) x)
                          = Ok (x, replicate (2 * n + 1) x)).
  { intros x n.
    destruct (GetMedian_odd (replicate (2 * n + 1) x))
      as (v & c' & Hget & Hperm & _).
    { rewrite length_replicate, (Nat.mul_comm 2 n), Nat.add_comm.
      by rewrite Nat.Div0.mod_add. }
    rewrite Hget. symmetry in Hperm. apply replicate_Permutation in Hperm as <-.
    do 2 f_equal.
    pose proof (GetMedian_Ok_elem _ _ _ Hget) as Hin.
    by apply elem_of_replicate in Hin as [-> _]. }
  split_and!; [done | | done].
  intros x. apply (Hrep x 0%nat).
Qed.
End GetMedian_more.

Lemma GetMedian_order_independent_witness :
  let H := quickselect_ranges quickselect_spec in
  (∃ c', GetMedian [-4; 31; 17; 5; 17]%Z = Ok (17%Z, c')) ∧
  (∃ c', GetMedian [-4; 5; 17; 17; 31]%Z = Ok (17%Z, c')).
Proof.
  intros H.
  apply (GetMedian_order_independent [31; -4; 17; 5; 17]%Z
           [-4; 31; 17; 5; 17]%Z 17%Z [-4; 5; 17; 17; 31]%Z).
  - reflexivity.
  - apply perm_swap.
Defined.

Lemma GetMedian_balanced_witness :
  let H := quickselect_ranges quickselect_spec in
  (17 ∈ [31; -4; 17; 5; 17])%Z ∧
  (length (filter (λ x, x < 17)%Z [31; -4; 17; 5; 17]%Z) ≤ 2)%nat ∧
  (length (filter (λ x, 17 < x)%Z [31; -4; 17; 5; 17]%Z) ≤ 2)%nat.
Proof.
  intros H.
  apply (GetMedian_balanced [31; -4; 17; 5; 17]%Z 17%Z [-4; 5; 17; 17; 31]%Z).
  reflexivity.
Defined.

(** ** The median is monotone *)

Lemma length_filter_split {A} (P : A → Prop) `{!∀ x, Decision (P x)} (l : list A) :
  (length (filter P l) + length (filter (λ x, ¬ P x) l) = length l)%nat.
Proof.
  induction l as [|x l IH]; [done|].
  destruct (decide (P x)).
  - rewrite filter_cons_True, (filter_cons_False (λ x, ¬ P x)) by auto.
    simpl. lia.
  - rewrite filter_cons_False, (filter_cons_True (λ x, ¬ P x)) by auto.
    simpl. lia.
Qed.

Lemma length_filter_impl {A} (P Q : A → Prop) `{!∀ x, Decision (P x)}
    `{!∀ x, Decision (Q x)} (l : list A) :
  (∀ x, P x → Q x) → (length (filter P l) ≤ length (filter Q l))%nat.
Proof.
  intros Himp. induction l as [|x l IH]; [done|].
  destruct (decide (P x)) as [HP|HP].
  - rewrite filter_cons_True, (filter_cons_True Q) by auto. simpl. lia.
  - rewrite filter_cons_False by done.
    destruct (decide (Q x)).
    + rewrite filter_cons_True by done. simpl. lia.
    + by rewrite filter_cons_False.
Qed.

Lemma length_filter_Forall2 (m : Z) (a b : list Z) :
  Forall2 Z.le a b →
  (length (filter (λ x, m ≤ x)%Z a) ≤ length (filter (λ x, m ≤ x)%Z b))%nat.
Proof.
  induction 1 as [|x y a b Hxy _ IH]; [done|].
  destruct (decide (m ≤ x)%Z).
  - rewrite !filter_cons_True by lia. simpl. lia.
  - rewrite filter_cons_False by done.
    destruct (decide (m ≤ y)%Z).
    + rewrite filter_cons_True by done. simpl. lia.
    + by rewrite filter_cons_False.
Qed.

Section GetMedian_mono.
Context `{!StdRanges}.

Lemma GetMedian_mono a b va a' vb b' :
  GetMedian a = Ok (va, a') → GetMedian b = Ok (vb, b') →
  Forall2 Z.le a b → (va ≤ vb)%Z.
Proof.
  intros Ha Hb Hab.
  destruct (Z.le_gt_cases va vb) as [|Hlt]; [done|exfalso].
  pose proof (GetMedian_Ok_odd _ _ _ Ha) as Hodd.
  pose proof (Forall2_length _ _ _ Hab) as Hlen.
  destruct (GetMedian_Ok_counts _ _ _ Ha) as [Hless _].
  destruct (GetMedian_Ok_counts _ _ _ Hb) as [_ Hmore].
  pose proof (length_filter_split (λ x, va ≤ x)%Z a) as Hsplit.
  pose proof (length_filter_impl (λ x, ¬ (va ≤ x))%Z (λ x, x < va)%Z a) as H1.
  pose proof (length_filter_Forall2 va a b Hab) as H2.
  pose proof (length_filter_impl (λ x, va ≤ x)%Z (λ x, vb < x)%Z b) as H3.
  pose proof (Nat.div_mod_eq (length a) 2).
  rewrite <- Hlen in Hmore.
  assert (length (filter (λ x, ¬ (va ≤ x))%Z a)
          ≤ length (filter (λ x, x < va)%Z a))%nat by (apply H1; intros; lia).
  assert (length (filter (λ x, va ≤ x)%Z b)
          ≤ length (filter (λ x, vb < x)%Z b))%nat by (apply H3; intros; lia).
  lia.
Qed.

Lemma median_by_full_sort_mono (a b : list Z) :
  (length a `mod` 2 = 1)%nat → Forall2 Z.le a b →
  (median_by_full_sort a ≤ median_by_full_sort b)%Z.
Proof.
  intros Hodd Hab. pose proof (Forall2_length _ _ _ Hab) as Hlen.
  destruct (GetMedian_odd a Hodd) as (va & a' & Ha & _).
  destruct (GetMedian_odd b) as (vb & b' & Hb & _); [by rewrite <- Hlen|].
  destruct (GetMedian_full_sort _ _ _ Ha) as [<- _].
  destruct (GetMedian_full_sort _ _ _ Hb) as [<- _].
  by eapply GetMedian_mono.
Qed.

(** X7. [GetMedian] is monotone: if every sample of one collection is at
    most the sample at the same position of another, the median of the
    first is at most the median of the second. *)
Theorem GetMedian_monotone (a b : list Z) (va vb : Z) (a' b' : list Z) :
  GetMedian a = Ok (va, a') → GetMedian b = Ok (vb, b') →
  Forall2 Z.le a b → (va ≤ vb)%Z.
Proof. apply GetMedian_mono. Qed.
End GetMedian_mono.

Lemma GetMedian_monotone_witness :
  let H := quickselect_ranges quickselect_spec in
  GetMedian [9; 2; 5]%Z = Ok (5%Z, [2; 5; 9]%Z) ∧
  GetMedian [9; 7; 6]%Z = Ok (7%Z, [6; 7; 9]%Z) ∧
  (5 ≤ 7)%Z.
Proof.
  intros H. split_and!; [reflexivity | reflexivity |].
  apply (GetMedian_monotone [9; 2; 5]%Z [9; 7; 6]%Z 5%Z 7%Z
           [2; 5; 9]%Z [6; 7; 9]%Z); [reflexivity | reflexivity |].
  repeat constructor; lia.
Defined.

(** ** The contents of a RandArray and the size of its sums *)

Lemma RandArray_fill_draws T n : ∀ w,
  RandArray_fill T n w =
    Ok (cast_to T <$> (FauxRand_calls n (rnd w)).1,
        set_rnd (FauxRand_calls n (rnd w)).2 w).
Proof.
  induction n as [|n IH]; intros w.
  - cbn. by destruct w.
  - cbn [RandArray_fill].
    rewrite (bind_Ok _ _ _ _ _ (rnd_call_run w)).
    rewrite (bind_Ok _ _ _ _ _ (IH _)).
    cbn [FauxRand_calls rnd set_rnd].
    destruct (FauxRand_call (rnd w)) as [x g1]. cbn [fst snd].
    destruct (FauxRand_calls n g1) as [xs g2]. cbn [fst snd].
    by destruct w.
Qed.

(** X8. The constructor of [RandArray<T, N>] takes exactly [N] draws from
    the generator, in slot order, and stores each converted to [T]: the
    array has [N] elements, every element fits [T], and nothing but the
    generator changes. *)
Theorem RandArray_new_contents (T : ElemT) (n : N) (w : World) :
  let draws := FauxRand_calls (N.to_nat n) (rnd w) in
  RandArray_new T n w =
    Ok (mkRandArray T n (cast_to T <$> draws.1), set_rnd draws.2 w) ∧
  length (cast_to T <$> draws.1) = N.to_nat n ∧
  Forall (λ x, x < 2 ^ (sizeof T * CHAR_BIT)) (cast_to T <$> draws.1).
Proof.
  intros draws. split_and!.
  - unfold RandArray_new.
    by rewrite (bind_Ok _ _ _ _ _ (RandArray_fill_draws T _ w)).
  - unfold draws. rewrite FauxRand_calls_lcg. cbn [fst].
    by rewrite !length_fmap, length_seq.
  - apply Forall_fmap, Forall_forall. intros x _. cbn.
    apply N.mod_lt, N.pow_nonzero. lia.
Qed.

Lemma N_sum_bound (l : list N) B :
  Forall (λ x, x ≤ B) l → N_sum l ≤ N.of_nat (length l) * B.
Proof.
  induction 1 as [|x l Hx _ IH]; [done|].
  unfold N_sum in *. cbn [foldr length]. lia.
Qed.

(** X9. If every element of the array is at most [B] and
    [(kValuesToSumMax - 1) * B] fits [size_t], the sum [ComputeValue]
    returns is the exact sum of the elements it picks, without wrap-around,
    and is at most [(kValuesToSumMax - 1) * B]. *)
Theorem ComputeValue_bounded (arr : RandArray) (w : World) (B : N) :
  1 ≤ arr_N arr → length (arr_ arr) = N.to_nat (arr_N arr) →
  Forall (λ x, x ≤ B) (arr_ arr) →
  (kValuesToSumMax - 1) * B < 2 ^ size_t_bits →
  ∃ sum w',
    ComputeValue arr w = Ok (sum, w') ∧
    sum = N_sum ((λ slot, default 0 (arr_ arr !! N.to_nat slot))
                   <$> ComputeValue_slots arr (rnd w)) ∧
    sum ≤ (kValuesToSumMax - 1) * B.
Proof.
  intros Hpos Hlen HB Hfit. rewrite ComputeValue_run by done.
  eexists _, _. split; [done|].
  unfold ComputeValue_ref. cbn [fst].
  set (picks := (λ slot, default 0 (arr_ arr !! N.to_nat slot))
                  <$> ComputeValue_slots arr (rnd w)).
  assert (Hsum : N_sum picks ≤ (kValuesToSumMax - 1) * B).
  { etrans.
    - apply (N_sum_bound _ B). apply Forall_fmap, Forall_forall.
      intros slot _. cbn.
      destruct (arr_ arr !! N.to_nat slot) as [x|] eqn:Hx; cbn; [|lia].
      by apply (Forall_lookup_1 _ _ _ _ HB Hx).
    - apply N.mul_le_mono_r. unfold picks, ComputeValue_slots.
      rewrite !length_fmap, FauxRand_calls_lcg. cbn [fst].
      rewrite length_fmap, length_seq, N2Nat.id.
      unfold ComputeValue_count, kValuesToSumMax.
      pose proof (N.mod_lt (FauxRand_call (rnd w)).1 4). lia. }
  rewrite wrap_small by lia. done.
Qed.

Lemma ComputeValue_bounded_witness :
  let arr := mkRandArray uint8_t 4 [10; 20; 30; 40] in
  let w := World_init (config_of true) (λ _, 0%Z) 1 in
  ∃ sum w', ComputeValue arr w = Ok (sum, w') ∧ sum ≤ 765.
Proof.
  intros arr w.
  destruct (ComputeValue_bounded arr w 255) as (sum & w' & Hrun & _ & Hle);
    [vm_compute; discriminate | reflexivity | | reflexivity |].
  - apply (bool_decide_unpack _). by vm_compute.
  - exists sum, w'. split; [exact Hrun | exact Hle].
Defined.

(** ** The generator after ComputeValue *)

Lemma ComputeValue_aligned arr w :
  1 ≤ arr_N arr → length (arr_ arr) = N.to_nat (arr_N arr) →
  runs_to (ComputeValue arr) w
    (λ _ w', churn w w' ∧ next_ (rnd w') mod kValuesToSumMax = 0).
Proof.
  intros Hpos Hlen. eapply runs_Ok; [by apply ComputeValue_run|].
  split; [apply churn_rnd|].
  cbn [rnd set_rnd]. unfold ComputeValue_ref, ComputeValue_count. cbn [snd].
  rewrite FauxRand_calls_lcg, FauxRand_call_lcg. cbn [fst snd next_].
  unfold kValuesToSumMax. rewrite iter_lcg_mod4, N2Nat.id. lia.
Qed.

(** X10. Whatever the generator holds before, [ComputeValue] leaves it in a
    state that is a multiple of [kValuesToSumMax]: the count [c] is the
    first draw modulo 4, every draw steps the state back by 1 modulo 4, and
    [c] further draws follow. *)
Theorem ComputeValue_leaves_generator_aligned (arr : RandArray) (w : World) :
  1 ≤ arr_N arr → length (arr_ arr) = N.to_nat (arr_N arr) →
  ∃ sum w', ComputeValue arr w = Ok (sum, w') ∧
            next_ (rnd w') mod kValuesToSumMax = 0.
Proof.
  intros Hpos Hlen.
  destruct (ComputeValue_aligned arr w Hpos Hlen) as (sum & w' & Hrun & _ & Ha).
  by exists sum, w'.
Qed.

Lemma ComputeValue_leaves_generator_aligned_witness :
  let arr := mkRandArray uint8_t 4 [10; 20; 30; 40] in
  let w := World_init (config_of true) (λ _, 0%Z) 1 in
  ∃ sum w', ComputeValue arr w = Ok (sum, w') ∧
            next_ (rnd w') mod kValuesToSumMax = 0.
Proof.
  intros arr w.
  apply (ComputeValue_leaves_generator_aligned arr w);
    [vm_compute; discriminate | reflexivity].
Defined.

(** ** A pass of a timed loop when the generator is aligned *)

Lemma wrap_add_r x y : wrap (x + wrap y) = wrap (x + y).
Proof. unfold wrap. by rewrite N.Div0.add_mod_idemp_r. Qed.

Lemma ST_bind_assoc {S A B C} (m : ST S A) (f : A → ST S B) (g : B → ST S C) s :
  ((m ≫= f) ≫= g) s = (m ≫= (λ x, f x ≫= g)) s.
Proof. unfold mbind, ST_bind. by destruct (m s) as [[a s']|]. Qed.

Lemma repeatM_ext {S A} n (body body' : A → ST S A) a s :
  (∀ x t, body x t = body' x t) → repeatM n body a s = repeatM n body' a s.
Proof.
  intros Hext. revert s. induction n as [|n IH] using N.peano_ind; intros s.
  - done.
  - rewrite !repeatM_succ. unfold mbind, ST_bind. rewrite IH.
    by destruct (repeatM n body' a s) as [[x t]|].
Qed.

Section aligned.
Context (arr : RandArray).
Hypothesis arr_pos : 1 ≤ arr_N arr.
Hypothesis arr_len : length (arr_ arr) = N.to_nat (arr_N arr).

Lemma aligned_pass w :
  length (gWork w) = N.to_nat kSlots →
  next_ (rnd w) mod kValuesToSumMax = 0 →
  ∃ w',
    (RandomWork;; ComputeValue arr) w
      = Ok (wrap (default 0
                    (arr_ arr !! N.to_nat
                       (Nat.iter 4 lcg_step (next_ (rnd w)) mod arr_N arr))),
            w') ∧
    rnd w' = mkFauxRand (Nat.iter 4 lcg_step (next_ (rnd w))) ∧
    churn w w'.
Proof.
  intros Hlen Halign.
  destruct (RandomWork_run w Hlen) as (old & _ & Hwork).
  rewrite (bind_Ok _ _ _ _ _ Hwork). cbn zeta.
  rewrite ComputeValue_run by done. cbn [rnd set_gWork set_rnd].
  unfold ComputeValue_ref, ComputeValue_slots, ComputeValue_count.
  rewrite !FauxRand_call_lcg. cbn [fst snd next_].
  set (s := next_ (rnd w)) in *.
  assert (Hc : lcg_step (lcg_step (lcg_step s)) mod kValuesToSumMax = 1).
  { change (lcg_step (lcg_step (lcg_step s))) with (Nat.iter 3 lcg_step s).
    unfold kValuesToSumMax in *. rewrite iter_lcg_mod4. lia. }
  rewrite Hc. change (N.to_nat 1) with 1%nat.
  cbn [FauxRand_calls]. rewrite FauxRand_call_lcg. cbn [fst snd fmap list_fmap].
  eexists. split_and!.
  - unfold N_sum. cbn [foldr]. rewrite N.add_0_r. reflexivity.
  - done.
  - eexists _, _. split.
    + by destruct w.
    + cbn. by rewrite length_insert.
Qed.

Lemma aligned_passes n w :
  length (gWork w) = N.to_nat kSlots →
  next_ (rnd w) mod kValuesToSumMax = 0 →
  runs_to (repeatM n (λ sum, v ← (RandomWork;; ComputeValue arr);
                             mret (wrap (sum + v))) 0) w
    (λ sum w',
       sum = wrap (N_sum (pass_pick arr (next_ (rnd w)) <$> seq 0 (N.to_nat n))) ∧
       rnd w' = mkFauxRand (Nat.iter (4 * N.to_nat n) lcg_step (next_ (rnd w))) ∧
       churn w w').
Proof.
  intros Hlen Halign.
  apply (runs_repeatM (λ k sum t,
    sum = wrap (N_sum (pass_pick arr (next_ (rnd w)) <$> seq 0 (N.to_nat k))) ∧
    rnd t = mkFauxRand (Nat.iter (4 * N.to_nat k) lcg_step (next_ (rnd w))) ∧
    churn w t)).
  - split_and!; [done | by destruct (rnd w) | apply churn_refl].
  - intros k sum t _ (-> & Hrnd & Hchurn).
    destruct (aligned_pass t) as (t' & Hpass & Hrnd' & Hchurn').
    { by rewrite (churn_gWork _ _ Hchurn). }
    { rewrite Hrnd. cbn [next_]. unfold kValuesToSumMax in *.
      rewrite iter_lcg_mod4. lia. }
    apply runs_bind. eapply runs_Ok; [exact Hpass|]. apply runs_ret.
    rewrite Hrnd in Hpass, Hrnd'. cbn [next_] in Hrnd'.
    replace (N.to_nat (k + 1)) with (S (N.to_nat k)) by lia.
    split_and!.
    + rewrite seq_S, fmap_app. cbn [fmap list_fmap].
      rewrite N_sum_snoc, wrap_add_l, wrap_add_r. do 2 f_equal.
      unfold pass_pick. rewrite Hrnd. cbn [next_].
      replace (4 * (0 + N.to_nat k) + 4)%nat with (4 + 4 * N.to_nat k)%nat by lia.
      by rewrite Nat.iter_add.
    + rewrite Hrnd'.
      replace (4 * S (N.to_nat k))%nat with (4 + 4 * N.to_nat k)%nat by lia.
      by rewrite Nat.iter_add.
    + by eapply churn_trans.
Qed.
End aligned.

(** X11. When the generator state is a multiple of 4 (as [ComputeValue]
    always leaves it), a call of [ByVal] or [ByRef] draws exactly four
    numbers: the slot of [RandomWork] is one of 3, 7, 11 and 15,
    the count [numValuesToSum] is 1, and the value returned is the one
    element at the slot given by the fourth draw; the generator is again at
    a multiple of 4 afterwards. *)
Theorem aligned_pass_sums_one_element (arr : RandArray) (w : World) :
  1 ≤ arr_N arr → length (arr_ arr) = N.to_nat (arr_N arr) →
  length (gWork w) = N.to_nat kSlots →
  next_ (rnd w) mod kValuesToSumMax = 0 →
  ∃ x1 x2 x3 x4 g' v w',
    FauxRand_calls 4 (rnd w) = ([x1; x2; x3; x4], g') ∧
    x1 mod kSlots ∈ [3; 7; 11; 15] ∧
    x3 mod kValuesToSumMax = 1 ∧
    v = wrap (default 0 (arr_ arr !! N.to_nat (x4 mod arr_N arr))) ∧
    ByVal arr w = Ok (v, w') ∧ ByRef arr w = Ok (v, w') ∧
    rnd w' = g' ∧ next_ g' mod kValuesToSumMax = 0.
Proof.
  intros Hpos Hlen Hwork Halign.
  destruct (aligned_pass arr Hpos Hlen w Hwork Halign) as (w' & Hpass & Hrnd & _).
  rewrite FauxRand_calls_lcg. cbn [seq fmap list_fmap].
  eexists _, _, _, _, _, _, w'. split; [reflexivity|].
  unfold kValuesToSumMax, kSlots in *.
  split_and!; [| |reflexivity|exact Hpass|exact Hpass|exact Hrnd|].
  - set (x1 := Nat.iter 1 lcg_step (next_ (rnd w))).
    assert (Hx1 : x1 mod 16 mod 4 = 3).
    { rewrite (mod_mod_mul _ 4 4) by done. unfold x1.
      rewrite iter_lcg_mod4. lia. }
    pose proof (N.mod_lt x1 16) as Hlt.
    assert (Hslot : x1 mod 16 = 3 ∨ x1 mod 16 = 7 ∨ x1 mod 16 = 11 ∨
                    x1 mod 16 = 15) by lia.
    repeat destruct Hslot as [Hslot|Hslot]; rewrite Hslot;
      repeat first [left | right].
  - rewrite iter_lcg_mod4. lia.
  - cbn [next_]. rewrite iter_lcg_mod4. lia.
Qed.

Lemma aligned_pass_sums_one_element_witness :
  let arr := mkRandArray uint8_t 4 [10; 20; 30; 40] in
  let w := set_rnd (mkFauxRand 8) (World_init (config_of true) (λ _, 0%Z) 1) in
  ∃ w', ByVal arr w = Ok (10, w') ∧ ByRef arr w = Ok (10, w').
Proof.
  intros arr w.
  destruct (aligned_pass_sums_one_element arr w)
    as (x1 & x2 & x3 & x4 & g' & v & w' & Hcalls & _ & _ & Hv & Hval & Href & _);
    [vm_compute; discriminate | reflexivity | reflexivity | reflexivity |].
  injection Hcalls as <- <- <- <- <-. vm_compute in Hv. subst v.
  exists w'. split; [exact Hval | exact Href].
Defined.

(** X12. Started with the generator at a multiple of 4, each of the three
    timed loops adds exactly one element per pass, the one picked by the
    fourth draw of that pass: its total is the [size_t] sum of these picks
    and the generator ends [4 * kTotalPasses] draws further; nothing but
    the generator and the work buffer changes. *)
Theorem timed_loops_closed_form (cfg : Config) (arr : RandArray) (w : World) :
  1 ≤ arr_N arr → length (arr_ arr) = N.to_nat (arr_N arr) →
  length (gWork w) = N.to_nat kSlots →
  next_ (rnd w) mod kValuesToSumMax = 0 →
  let passes := N.to_nat (kTotalPasses cfg) in
  let total := wrap (N_sum (pass_pick arr (next_ (rnd w)) <$> seq 0 passes)) in
  ∃ wb wr wv,
    Baseline_passes cfg arr w = Ok (total, wb) ∧
    ByRef_passes cfg arr w = Ok (total, wr) ∧
    ByVal_passes cfg arr w = Ok (total, wv) ∧
    rnd wb = (FauxRand_calls (4 * passes) (rnd w)).2 ∧
    rnd wr = (FauxRand_calls (4 * passes) (rnd w)).2 ∧
    rnd wv = (FauxRand_calls (4 * passes) (rnd w)).2 ∧
    churn w wb ∧ churn w wr ∧ churn w wv.
Proof.
  intros Hpos Hlen Hwork Halign passes total. subst passes total.
  destruct (aligned_passes arr Hpos Hlen (kTotalPasses cfg) w Hwork Halign)
    as (sum & w' & Hrun & -> & Hrnd & Hchurn).
  rewrite FauxRand_calls_lcg. cbn [snd].
  exists w', w', w'. split_and!; try done.
  unfold Baseline_passes. rewrite <- Hrun. apply repeatM_ext.
  intros x t. symmetry. apply ST_bind_assoc.
Qed.

Lemma timed_loops_closed_form_witness :
  let cfg := mkConfig 3 2 in
  let arr := mkRandArray uint8_t 4 [10; 20; 30; 40] in
  let w := set_rnd (mkFauxRand 8) (World_init cfg (λ _, 0%Z) 1) in
  ∃ wv, ByVal_passes cfg arr w = Ok (20, wv) ∧
        rnd wv = (FauxRand_calls 8 (mkFauxRand 8)).2.
Proof.
  intros cfg arr w.
  destruct (timed_loops_closed_form cfg arr w)
    as (_ & _ & wv & _ & _ & Hv & _ & _ & Hrnd & _);
    [vm_compute; discriminate | reflexivity | reflexivity | reflexivity |].
  exists wv. split; [exact Hv | exact Hrnd].
Defined.

(** ** The timer *)

(** X13. A [Timer] read once, under a clock that did not go back between
    its two readings, returns the whole units in the interval, rounded down:
    a non-negative [d] with
    [d * ticks_per_unit <= interval < (d + 1) * ticks_per_unit].  The clock
    is read exactly twice. *)
Theorem Timer_measures_whole_units (w : World) :
  let c := sysclk w in
  let k := clk_reads c in
  (0 < clk_ticks_per_unit c)%Z → (clk_now c k ≤ clk_now c (k + 1))%Z →
  ∃ d,
    (timer ← Timer_new; GetElapsedMs timer) w
      = Ok (d, set_sysclk (advance 2 c) w) ∧
    (0 ≤ d)%Z ∧
    (d * clk_ticks_per_unit c ≤ clk_now c (k + 1) - clk_now c k
       < (d + 1) * clk_ticks_per_unit c)%Z.
Proof.
  intros c k Htpu Hmono. eexists. split.
  - unfold Timer_new, GetElapsedMs, mbind, ST_bind, sysclk_now, mret, ST_ret,
      duration_cast. cbn. unfold advance. fold c. fold k.
    replace (k + 1 + 1) with (k + 2) by lia. reflexivity.
  - fold c k. cbn [start_].
    pose proof (Z.quot_rem' (clk_now c (k + 1) - clk_now c k)
                  (clk_ticks_per_unit c)) as Hq.
    pose proof (Z.rem_bound_pos (clk_now c (k + 1) - clk_now c k)
                  (clk_ticks_per_unit c)) as Hr.
    split; [apply Z.quot_pos; lia | lia].
Qed.

Lemma Timer_measures_whole_units_witness :
  let w := World_init (config_of true) (λ k, (1999 * Z.of_N k)%Z) 1000 in
  ∃ w', (timer ← Timer_new; GetElapsedMs timer) w = Ok (1%Z, w').
Proof.
  intros w.
  destruct (Timer_measures_whole_units w) as (d & Hrun & _ & Hd);
    [reflexivity | vm_compute; discriminate |].
  change (d * 1000 ≤ 1999 - 0 < (d + 1) * 1000)%Z in Hd.
  assert (d = 1%Z) as -> by lia.
  eexists. exact Hrun.
Defined.

(** ** What a timed trial changes *)

(** X14. Each of the three timed trials ends without a fault, reads the
    clock exactly twice and returns the elapsed units between these two
    readings, prints nothing and leaves the timing table alone.  The
    baseline trial pushes nothing; the by-reference trial pushes exactly one
    sum on [arrByRefSums] and none on [arrByValSums]; the by-value trial
    does the converse. *)
Theorem timed_trials_effects (cfg : Config) (arr : RandArray) (w : World) :
  1 ≤ arr_N arr → length (arr_ arr) = N.to_nat (arr_N arr) →
  length (gWork w) = N.to_nat kSlots →
  let d := elapsed (sysclk w) (clk_reads (sysclk w)) in
  (∃ wb, TimeArrBaseline cfg arr w = Ok (d, wb) ∧
         moved w [] [] (timingData w) 2 [] wb) ∧
  (∃ sum wr, TimeArrByRef cfg arr w = Ok (d, wr) ∧
             moved w [] [sum] (timingData w) 2 [] wr) ∧
  (∃ sum wv, TimeArrByVal cfg arr w = Ok (d, wv) ∧
             moved w [sum] [] (timingData w) 2 [] wv).
Proof.
  intros Hpos Hlen Hwork d. split_and!.
  - destruct (TimeArrBaseline_run cfg arr Hpos Hlen w Hwork)
      as (d' & wb & Hrun & -> & Hmoved). eauto.
  - destruct (TimeArrByRef_run cfg arr Hpos Hlen w Hwork)
      as (d' & sum & _ & wr & _ & Hrun & -> & Hmoved). eauto.
  - destruct (TimeArrByVal_run cfg arr Hpos Hlen w Hwork)
      as (d' & sum & _ & wv & _ & Hrun & -> & Hmoved). eauto.
Qed.

Lemma timed_trials_effects_witness :
  let cfg := mkConfig 3 2 in
  let arr := mkRandArray uint8_t 4 [10; 20; 30; 40] in
  let w := World_init cfg (λ k, (5 * Z.of_N k)%Z) 1 in
  (∃ wb, TimeArrBaseline cfg arr w = Ok (5%Z, wb) ∧
         arrByValSums wb = [] ∧ arrByRefSums wb = []) ∧
  (∃ sum wv, TimeArrByVal cfg arr w = Ok (5%Z, wv) ∧
             arrByValSums wv = [sum] ∧ arrByRefSums wv = []).
Proof.
  intros cfg arr w.
  destruct (timed_trials_effects cfg arr w)
    as ((wb & Hb & _ & Hbv & Hbr & _) & _ & (sum & wv & Hv & _ & Hvv & Hvr & _));
    [vm_compute; discriminate | reflexivity | reflexivity |].
  split.
  - exists wb. split_and!; [exact Hb | exact Hbv | exact Hbr].
  - exists sum, wv. split_and!; [exact Hv | exact Hvv | exact Hvr].
Defined.

(** ** The loops of one evaluation *)

Section evaluation_loops.
Context (cfg : Config) (arr : RandArray).
Hypothesis arr_pos : 1 ≤ arr_N arr.
Hypothesis arr_len : length (arr_ arr) = N.to_nat (arr_N arr).

Lemma Baseline_passes_aligned w :
  1 ≤ kTotalPasses cfg →
  length (gWork w) = N.to_nat kSlots →
  runs_to (Baseline_passes cfg arr) w
    (λ _ w', churn w w' ∧ next_ (rnd w') mod kValuesToSumMax = 0).
Proof.
  intros Hpasses Hlen. unfold Baseline_passes.
  replace (kTotalPasses cfg) with (N.succ (N.pred (kTotalPasses cfg))) by lia.
  rewrite repeatM_succ. apply runs_bind.
  eapply runs_mono.
  { apply (Baseline_passes_churn
             (mkConfig (kTotalRuns cfg) (N.pred (kTotalPasses cfg)))
             arr arr_pos arr_len w Hlen). }
  intros sum w1 H1. apply runs_bind. eapply runs_mono.
  { apply RandomWork_churn. by rewrite (churn_gWork _ _ H1). }
  intros [] w2 H2. apply runs_bind. eapply runs_mono.
  { by apply ComputeValue_aligned. }
  intros v w3 [H3 Halign]. apply runs_ret. split; [|done].
  exact (churn_trans _ _ _ (churn_trans _ _ _ H1 H2) H3).
Qed.

Lemma TimeArrBaseline_aligned w :
  1 ≤ kTotalPasses cfg →
  length (gWork w) = N.to_nat kSlots →
  runs_to (TimeArrBaseline cfg arr) w
    (λ _ w', moved w [] [] (timingData w) 2 [] w' ∧
             next_ (rnd w') mod kValuesToSumMax = 0).
Proof.
  intros Hpasses Hlen. unfold TimeArrBaseline, Timer_new.
  destruct (Baseline_passes_aligned (set_sysclk (advance 1 (sysclk w)) w))
    as (sum & w1 & Hpass & (g & l & -> & Hl) & Halign); [done..|].
  eapply runs_Ok.
  - unfold mbind, ST_bind, sysclk_now, mret, ST_ret. fold (advance 1 (sysclk w)).
    rewrite Hpass. unfold modify. by rewrite ?GetElapsedMs_run.
  - split; [|exact Halign]. unfold moved. simpl.
    rewrite !app_nil_r. split_and!; try done.
    unfold advance. simpl. f_equal. lia.
Qed.

Lemma TimeArrByRef_aligned w :
  length (gWork w) = N.to_nat kSlots →
  next_ (rnd w) mod kValuesToSumMax = 0 →
  let passes := N.to_nat (kTotalPasses cfg) in
  runs_to (TimeArrByRef cfg arr) w
    (λ _ w',
       moved w []
         [wrap (N_sum (pass_pick arr (next_ (rnd w)) <$> seq 0 passes))]
         (timingData w) 2 [] w' ∧
       rnd w' = (FauxRand_calls (4 * passes) (rnd w)).2 ∧
       next_ (rnd w') mod kValuesToSumMax = 0).
Proof.
  intros Hlen Halign passes. unfold TimeArrByRef, Timer_new.
  destruct (aligned_passes arr arr_pos arr_len (kTotalPasses cfg)
              (set_sysclk (advance 1 (sysclk w)) w))
    as (sum & w1 & Hpass & -> & Hrnd & (g & l & -> & Hl)); [done..|].
  cbn [rnd set_sysclk] in *.
  eapply runs_Ok.
  - unfold mbind, ST_bind, sysclk_now, mret, ST_ret. fold (advance 1 (sysclk w)).
    unfold ByRef_passes, ByRef. rewrite Hpass.
    unfold modify. by rewrite ?GetElapsedMs_run.
  - cbn [rnd set_gWork set_rnd set_sysclk] in Hrnd. subst g.
    rewrite FauxRand_calls_lcg. split_and!.
    + unfold moved. simpl. rewrite !app_nil_r. split_and!; try done.
      unfold advance. simpl. f_equal. lia.
    + done.
    + cbn [rnd set_gWork set_rnd set_sysclk set_arrByRefSums
           set_arrByValSums next_].
      unfold kValuesToSumMax in *. rewrite iter_lcg_mod4. lia.
Qed.

Lemma TimeArrByVal_aligned w :
  length (gWork w) = N.to_nat kSlots →
  next_ (rnd w) mod kValuesToSumMax = 0 →
  let passes := N.to_nat (kTotalPasses cfg) in
  runs_to (TimeArrByVal cfg arr) w
    (λ _ w',
       moved w
         [wrap (N_sum (pass_pick arr (next_ (rnd w)) <$> seq 0 passes))] []
         (timingData w) 2 [] w' ∧
       rnd w' = (FauxRand_calls (4 * passes) (rnd w)).2 ∧
       next_ (rnd w') mod kValuesToSumMax = 0).
Proof.
  intros Hlen Halign passes. unfold TimeArrByVal, Timer_new.
  destruct (aligned_passes arr arr_pos arr_len (kTotalPasses cfg)
              (set_sysclk (advance 1 (sysclk w)) w))
    as (sum & w1 & Hpass & -> & Hrnd & (g & l & -> & Hl)); [done..|].
  cbn [rnd set_sysclk] in *.
  eapply runs_Ok.
  - unfold mbind, ST_bind, sysclk_now, mret, ST_ret. fold (advance 1 (sysclk w)).
    unfold ByVal_passes, ByVal. rewrite Hpass.
    unfold modify. by rewrite ?GetElapsedMs_run.
  - cbn [rnd set_gWork set_rnd set_sysclk] in Hrnd. subst g.
    rewrite FauxRand_calls_lcg. split_and!.
    + unfold moved. simpl. rewrite !app_nil_r. split_and!; try done.
      unfold advance. simpl. f_equal. lia.
    + done.
    + cbn [rnd set_gWork set_rnd set_sysclk set_arrByRefSums
           set_arrByValSums next_].
      unfold kValuesToSumMax in *. rewrite iter_lcg_mod4. lia.
Qed.
End evaluation_loops.

(** X15. In the three trials of one evaluation, in the order of
    [EvalParamPassing], whatever the generator holds at the start: if the
    loops make at least one pass, the baseline trial leaves the generator at
    a multiple of 4, so every call of the by-reference loop and then of the
    by-value loop adds exactly one element; the two sums pushed are the sums
    of these picks, and each loop moves the generator [4 * kTotalPasses]
    draws on. *)
Theorem evaluation_sums_one_element_per_pass (cfg : Config) (arr : RandArray)
    (w : World) :
  1 ≤ arr_N arr → length (arr_ arr) = N.to_nat (arr_N arr) →
  length (gWork w) = N.to_nat kSlots → 1 ≤ kTotalPasses cfg →
  let passes := N.to_nat (kTotalPasses cfg) in
  ∃ db wb dr wr dv wv,
    TimeArrBaseline cfg arr w = Ok (db, wb) ∧
    TimeArrByRef cfg arr wb = Ok (dr, wr) ∧
    TimeArrByVal cfg arr wr = Ok (dv, wv) ∧
    next_ (rnd wb) mod kValuesToSumMax = 0 ∧
    arrByRefSums wv = arrByRefSums w ++
      [wrap (N_sum (pass_pick arr (next_ (rnd wb)) <$> seq 0 passes))] ∧
    arrByValSums wv = arrByValSums w ++
      [wrap (N_sum (pass_pick arr (next_ (rnd wr)) <$> seq 0 passes))] ∧
    rnd wr = (FauxRand_calls (4 * passes) (rnd wb)).2 ∧
    rnd wv = (FauxRand_calls (4 * passes) (rnd wr)).2.
Proof.
  intros Hpos Hlen Hwork Hpasses passes.
  destruct (TimeArrBaseline_aligned cfg arr Hpos Hlen w Hpasses Hwork)
    as (db & wb & Hb & (Hgb & Hvb & Hrb & _) & Hab).
  destruct (TimeArrByRef_aligned cfg arr Hpos Hlen wb)
    as (dr & wr & Hr & (Hgr & Hvr & Hrr & _) & Hrndr & Har);
    [by rewrite Hgb | done |].
  destruct (TimeArrByVal_aligned cfg arr Hpos Hlen wr)
    as (dv & wv & Hv & (Hgv & Hvv & Hrv & _) & Hrndv & Hav);
    [by rewrite Hgr, Hgb | done |].
  exists db, wb, dr, wr, dv, wv. split_and!; try done.
  - rewrite Hrv, Hrr, Hrb. by rewrite !app_nil_r.
  - rewrite Hvv, Hvr, Hvb. by rewrite !app_nil_r.
Qed.

Lemma evaluation_sums_one_element_per_pass_witness :
  let cfg := mkConfig 3 2 in
  let arr := mkRandArray uint8_t 4 [10; 20; 30; 40] in
  let w := World_init cfg (λ k, Z.of_N k) 1 in
  ∃ db wb dr wr dv wv,
    TimeArrBaseline cfg arr w = Ok (db, wb) ∧
    TimeArrByRef cfg arr wb = Ok (dr, wr) ∧
    TimeArrByVal cfg arr wr = Ok (dv, wv) ∧
    length (arrByRefSums wv) = 1%nat ∧ length (arrByValSums wv) = 1%nat.
Proof.
  intros cfg arr w.
  destruct (evaluation_sums_one_element_per_pass cfg arr w)
    as (db & wb & dr & wr & dv & wv & Hb & Hr & Hv & _ & Href & Hval & _);
    [vm_compute; discriminate | reflexivity | reflexivity
    | vm_compute; discriminate |].
  exists db, wb, dr, wr, dv, wv.
  split_and!; [exact Hb | exact Hr | exact Hv | |].
  - by rewrite Href.
  - by rewrite Hval.
Defined.

(** ** SetTimes on its own *)

(** X16. After [SetTimes<T>(2^a, run, baseline, byRef, byVal)] on tables of
    the declared dimensions, with [a] and [run] in range, the three tables
    hold the three durations at (log2 (sizeof T), a, run), every other entry
    of every table is as before, and the tables keep their dimensions. *)
Theorem SetTimes_then_lookup (cfg : Config) (T : ElemT) (a run : N)
    (baseline byRef byVal : Z) (td : TimingData) :
  TimingData_wf cfg td → a < kCountOfArraySizesToEval → run < kTotalRuns cfg →
  ∃ e td',
    Log2 (sizeof T) = Ok e ∧
    SetTimes T (2 ^ a) run baseline byRef byVal td = Ok (tt, td') ∧
    TimingData_wf cfg td' ∧
    tbl_at (baselines_ td') e a run = Some baseline ∧
    tbl_at (byRefs_ td') e a run = Some byRef ∧
    tbl_at (byVals_ td') e a run = Some byVal ∧
    ∀ s e' a' r', (e', a', r') ≠ (e, a, run) →
      tbl_at (table_of s td') e' a' r' = tbl_at (table_of s td) e' a' r'.
Proof.
  intros Hwf Ha Hrun.
  destruct (SetTimes_run cfg T a run baseline byRef byVal td Hwf Ha Hrun)
    as (e & td' & He & _ & Hset & Hwf' & _ & Hb & Hr & Hv & Hframe).
  by exists e, td'.
Qed.

Lemma SetTimes_then_lookup_witness :
  let cfg := config_of true in
  ∃ td',
    SetTimes uint32_t 8 2 50 30 40 (TimingData_init cfg) = Ok (tt, td') ∧
    tbl_at (baselines_ td') 2 3 2 = Some 50%Z ∧
    tbl_at (byRefs_ td') 2 3 2 = Some 30%Z ∧
    tbl_at (byVals_ td') 2 3 2 = Some 40%Z.
Proof.
  intros cfg.
  destruct (SetTimes_then_lookup cfg uint32_t 3 2 50 30 40 (TimingData_init cfg))
    as (e & td' & He & Hset & _ & Hb & Hr & Hv & _);
    [apply TimingData_init_wf | reflexivity | reflexivity |].
  vm_compute in He. injection He as <-.
  exists td'. split_and!; [exact Hset | exact Hb | exact Hr | exact Hv].
Defined.





(** ** What main prints and leaves behind *)

Lemma pushed_refl w : pushed w 0 [] w.
Proof. unfold pushed. by rewrite !Nat.add_0_r, app_nil_r. Qed.

Lemma pushed_trans w1 w2 w3 k k' out out' :
  pushed w1 k out w2 → pushed w2 k' out' w3 →
  pushed w1 (k + k') (out ++ out') w3.
Proof.
  intros (Hv & Hr & Ho) (Hv' & Hr' & Ho'). unfold pushed.
  rewrite Hv', Hr', Ho', Hv, Hr, Ho, app_assoc. split_and!; [lia | lia | done].
Qed.

Lemma pushed_print w o : pushed w 0 [o] (set_cout (cout w ++ [o]) w).
Proof. unfold pushed. cbn. by rewrite !Nat.add_0_r. Qed.

Lemma N_range_lookup n i :
  (i < N.to_nat n)%nat → N_range n !! i = Some (N.of_nat i).
Proof.
  intros Hi. unfold N_range. by rewrite list_lookup_fmap, lookup_seq_lt.
Qed.

Lemma length_N_range n : length (N_range n) = N.to_nat n.
Proof. unfold N_range. by rewrite length_fmap, length_seq. Qed.

Lemma length_bind_const {A B} (f : A → list B) (l : list A) c :
  (∀ x, length (f x) = c) → length (l ≫= f) = (length l * c)%nat.
Proof.
  intros Hf. induction l as [|x l IH]; [done|].
  rewrite bind_cons, length_app, Hf, IH. simpl. lia.
Qed.

Lemma length_progress_of_type T :
  length (progress_of_type T) = N.to_nat kCountOfArraySizesToEval.
Proof. unfold progress_of_type. by rewrite length_fmap, length_N_range. Qed.

Section trace.
Context `{!StdRanges} (cfg : Config) (now : N → Z) (tpu : Z).

Lemma EvalParamPassing_trace T e run depth : ∀ a n w,
  Log2 (sizeof T) = Ok e → e < kCountOfElemSizesToEval →
  run < kTotalRuns cfg →
  a ≤ kCountOfArraySizesToEval →
  (N.to_nat (kCountOfArraySizesToEval - a) ≤ depth)%nat →
  n = (run * kCountOfElemSizesToEval + e) * kCountOfArraySizesToEval + a →
  Inv cfg now tpu n w →
  runs_to (EvalParamPassing cfg depth T kMaxArraySizex2 (2 ^ a) run) w
    (λ _ w', Inv cfg now tpu (n + (kCountOfArraySizesToEval - a)) w' ∧
             pushed w (N.to_nat (kCountOfArraySizesToEval - a))
                    (drop (N.to_nat a) (progress_of_type T)) w').
Proof.
  assert (Hlast : ∀ n w, Inv cfg now tpu n w →
            Inv cfg now tpu
              (n + (kCountOfArraySizesToEval - kCountOfArraySizesToEval)) w ∧
            pushed w
              (N.to_nat (kCountOfArraySizesToEval - kCountOfArraySizesToEval))
              (drop (N.to_nat kCountOfArraySizesToEval) (progress_of_type T)) w).
  { intros n w Hinv. rewrite N.sub_diag, N.add_0_r. split; [done|].
    rewrite drop_ge by (by rewrite length_progress_of_type).
    apply pushed_refl. }
  induction depth as [|depth IH]; intros a n w He Helt Hrun Ha Hdepth Hn Hinv.
  - assert (a = kCountOfArraySizesToEval) as -> by lia.
    simpl. apply runs_ret. by apply Hlast.
  - destruct (decide (a = kCountOfArraySizesToEval)) as [->|Hne].
    { simpl. apply runs_ret. by apply Hlast. }
    assert (Halt : a < kCountOfArraySizesToEval) by lia.
    cbn [EvalParamPassing]. rewrite decide_False; last first.
    { change kMaxArraySizex2 with (2 ^ 12).
      intros Heq%N.pow_inj_r; [|lia].
      rewrite kCountOfArraySizesToEval_eq in Hne. done. }
    destruct (EvalParamPassing_here_run cfg now tpu n w T e a run)
      as (w1 & v & r & Hhere & Hinv1 & Hv & Hr & Ho & _); [done..| |].
    { subst n. by apply coord_of_index. }
    apply runs_bind. eapply runs_Ok; [exact Hhere|].
    replace (wrap (2 ^ a * 2)) with (2 ^ (a + 1)); last first.
    { rewrite N.pow_add_r, N.pow_1_r. symmetry. apply wrap_small.
      rewrite <- (N.pow_1_r 2) at 2. rewrite <- N.pow_add_r.
      apply pow2_lt_size. rewrite kCountOfArraySizesToEval_eq in Halt.
      unfold size_t_bits. lia. }
    eapply runs_mono.
    + apply (IH (a + 1) (n + 1)); [done..|lia|lia|lia|done].
    + intros [] w2 [Hinv2 Hpush]. split.
      * by replace (n + (kCountOfArraySizesToEval - a))
          with (n + 1 + (kCountOfArraySizesToEval - (a + 1))) by lia.
      * assert (Hstep : pushed w 1 [OutTiming (2 ^ a) (sizeof T)] w1).
        { unfold pushed. rewrite Hv, Hr, Ho, !length_app. done. }
        pose proof (pushed_trans _ _ _ _ _ _ _ Hstep Hpush) as Hall.
        replace (N.to_nat (kCountOfArraySizesToEval - a))
          with (1 + N.to_nat (kCountOfArraySizesToEval - (a + 1)))%nat by lia.
        rewrite (drop_S _ (OutTiming (2 ^ a) (sizeof T)) (N.to_nat a)).
        { by replace (S (N.to_nat a)) with (N.to_nat (a + 1)) by lia. }
        unfold progress_of_type.
        rewrite list_lookup_fmap, N_range_lookup by lia.
        cbn. by rewrite N2Nat.id.
Qed.

Lemma EvalParamPassing_type_trace T run n w :
  run < kTotalRuns cfg →
  (∃ e, Log2 (sizeof T) = Ok e ∧ e < kCountOfElemSizesToEval ∧
        n = (run * kCountOfElemSizesToEval + e) * kCountOfArraySizesToEval) →
  Inv cfg now tpu n w →
  runs_to (EvalParamPassing cfg template_depth T kMaxArraySizex2 1 run) w
    (λ _ w', Inv cfg now tpu (n + kCountOfArraySizesToEval) w' ∧
             pushed w (N.to_nat kCountOfArraySizesToEval)
                    (progress_of_type T) w').
Proof.
  intros Hrun (e & He & Helt & Hn) Hinv.
  change 1 with (2 ^ 0).
  eapply runs_mono.
  - eapply (EvalParamPassing_trace T e run template_depth 0 n); try done.
    + rewrite kCountOfArraySizesToEval_eq. unfold template_depth. lia.
    + lia.
  - intros [] w' [Hinv' Hpush]. by rewrite N.sub_0_r in Hinv', Hpush.
Qed.

Lemma main_run_trace run w :
  run < kTotalRuns cfg →
  Inv cfg now tpu (evals_per_run * run) w →
  runs_to (main_run cfg run) w
    (λ _ w', Inv cfg now tpu (evals_per_run * (run + 1)) w' ∧
             pushed w (N.to_nat evals_per_run) (progress_of_run run) w').
Proof.
  intros Hrun Hinv. unfold main_run.
  apply runs_bind. eapply runs_Ok; [done|].
  assert (Hinv0 : Inv cfg now tpu (evals_per_run * run)
            (set_cout (cout w ++ [OutRun run]) w)) by (by apply Inv_print).
  pose proof (pushed_print w (OutRun run)) as Hp0.
  revert Hinv0 Hp0. generalize (set_cout (cout w ++ [OutRun run]) w).
  clear Hinv. intros w0 Hinv0 Hp0.
  apply runs_bind. eapply runs_mono.
  { apply (EvalParamPassing_type_trace uint8_t run); [done| |exact Hinv0].
    exists 0. split_and!; [done..|]. unfold evals_per_run. lia. }
  intros [] w1 [Hinv1 Hp1].
  apply runs_bind. eapply runs_mono.
  { apply (EvalParamPassing_type_trace uint16_t run); [done| |exact Hinv1].
    exists 1. split_and!; [done..|]. unfold evals_per_run. lia. }
  intros [] w2 [Hinv2 Hp2].
  apply runs_bind. eapply runs_mono.
  { apply (EvalParamPassing_type_trace uint32_t run); [done| |exact Hinv2].
    exists 2. split_and!; [done..|]. unfold evals_per_run. lia. }
  intros [] w3 [Hinv3 Hp3].
  eapply runs_mono.
  { apply (EvalParamPassing_type_trace uint64_t run); [done| |exact Hinv3].
    exists 3. split_and!; [done..|]. unfold evals_per_run. lia. }
  intros [] w4 [Hinv4 Hp4]. split.
  - replace (evals_per_run * (run + 1))
      with (evals_per_run * run + kCountOfArraySizesToEval
            + kCountOfArraySizesToEval + kCountOfArraySizesToEval
            + kCountOfArraySizesToEval); [done|].
    unfold evals_per_run. rewrite kCountOfElemSizesToEval_eq. lia.
  - pose proof (pushed_trans _ _ _ _ _ _ _ Hp0
        (pushed_trans _ _ _ _ _ _ _ Hp1
           (pushed_trans _ _ _ _ _ _ _ Hp2
              (pushed_trans _ _ _ _ _ _ _ Hp3 Hp4)))) as Hall.
    unfold progress_of_run. cbn [mbind list_bind].
    rewrite app_nil_r.
    replace (N.to_nat evals_per_run)
      with (0 + (N.to_nat kCountOfArraySizesToEval
            + (N.to_nat kCountOfArraySizesToEval
               + (N.to_nat kCountOfArraySizesToEval
                  + N.to_nat kCountOfArraySizesToEval))))%nat; [exact Hall|].
    unfold evals_per_run. rewrite kCountOfElemSizesToEval_eq. lia.
Qed.

Lemma main_runs_trace w :
  kTotalRuns cfg < 2 ^ size_t_bits →
  Inv cfg now tpu 0 w →
  runs_to (main_runs cfg) w
    (λ _ w', Inv cfg now tpu (evals_per_run * kTotalRuns cfg) w' ∧
             pushed w (N.to_nat (evals_per_run * kTotalRuns cfg))
                    (progress cfg) w').
Proof.
  intros Hruns Hinv. unfold main_runs.
  apply runs_bind. eapply runs_Ok; [done|].
  set (w0 := set_cout _ w).
  apply (runs_for_upto
           (λ k t, Inv cfg now tpu (evals_per_run * k) t ∧
                   pushed w (N.to_nat (evals_per_run * k))
                     (OutText "Running timing evaluation"
                        :: (N_range k ≫= progress_of_run)) t));
    [done| | |done].
  - split.
    + rewrite N.mul_0_r. by apply Inv_print.
    + rewrite N.mul_0_r. apply pushed_print.
  - intros k t Hk [Hinvk Hpk].
    eapply runs_mono; [by apply main_run_trace|].
    intros [] t' [Hinv' Hp']. split; [done|].
    pose proof (pushed_trans _ _ _ _ _ _ _ Hpk Hp') as Hall.
    rewrite N_range_bind_succ, app_comm_cons.
    by replace (N.to_nat (evals_per_run * (k + 1)))
      with (N.to_nat (evals_per_run * k) + N.to_nat evals_per_run)%nat by lia.
Qed.
End trace.

Section main_final.
Context `{!StdRanges} (cfg : Config) (now : N → Z) (tpu : Z).
Hypothesis runs_odd : kTotalRuns cfg mod 2 = 1.
Hypothesis runs_size_t : kTotalRuns cfg < 2 ^ size_t_bits.

Lemma main_report_reported w :
  TimingData_wf cfg (timingData w) →
  arrByValSums w ≠ [] → arrByRefSums w ≠ [] →
  runs_to main_report w (λ _ w',
    reported w ([OutText "";
                 OutText "Param Pass Type, Array Size, sizeof(T), Time"]
                  ++ report (timingData w)) w').
Proof.
  intros Hwf Hv Hr. unfold main_report.
  apply runs_bind. eapply runs_Ok; [apply print_run|].
  apply runs_bind. eapply runs_Ok; [apply print_run|].
  set (w0 := set_cout _ (set_cout _ w)).
  assert (Hrep0 : reported w
            [OutText ""; OutText "Param Pass Type, Array Size, sizeof(T), Time"]
            w0).
  { unfold reported, w0. cbn. rewrite <- app_assoc. split_and!; try done.
    intros s. apply Table_perm_refl. }
  apply runs_bind. eapply runs_mono.
  { apply (OutputResults_run cfg runs_odd w0). exact Hwf. }
  intros [] w' Hrep.
  pose proof (reported_trans _ _ _ _ _ Hrep0 Hrep) as Hall.
  destruct Hrep as (_ & _ & Hv' & Hr' & _).
  apply runs_bind, runs_gets. rewrite Hv'. cbn [arrByValSums w0 set_cout].
  destruct (arrByValSums w) as [|v vs] eqn:Hvs; [done|].
  apply runs_bind. eapply runs_lift; [done|].
  apply runs_bind, runs_gets. rewrite Hr'. cbn [arrByRefSums w0 set_cout].
  destruct (arrByRefSums w) as [|r rs] eqn:Hrs; [done|].
  apply runs_bind. eapply runs_lift; [done|].
  apply runs_ret. exact Hall.
Qed.

Lemma main_final :
  ∃ w2 code w',
    main_runs cfg (World_init cfg now tpu) = Ok (tt, w2) ∧
    Inv cfg now tpu (evals_per_run * kTotalRuns cfg) w2 ∧
    pushed (World_init cfg now tpu)
           (N.to_nat (evals_per_run * kTotalRuns cfg)) (progress cfg) w2 ∧
    main cfg (World_init cfg now tpu) = Ok (code, w') ∧
    reported w2 ([OutText "";
                  OutText "Param Pass Type, Array Size, sizeof(T), Time"]
                   ++ report (timingData w2)) w'.
Proof.
  destruct (main_runs_trace cfg now tpu (World_init cfg now tpu) runs_size_t
              (World_init_Inv cfg now tpu))
    as ([] & w2 & Hruns & Hinv & Hpush).
  pose proof (runs_pos cfg runs_odd) as Hpos.
  assert (Hn : (0 < N.to_nat (evals_per_run * kTotalRuns cfg))%nat).
  { unfold evals_per_run.
    rewrite kCountOfElemSizesToEval_eq, kCountOfArraySizesToEval_eq. lia. }
  destruct (main_report_reported w2) as (code & w' & Hrep & Hreported).
  - apply Hinv.
  - destruct Hpush as (Hv & _). intros Hnil. rewrite Hnil in Hv.
    cbn in Hv. lia.
  - destruct Hpush as (_ & Hr & _). intros Hnil. rewrite Hnil in Hr.
    cbn in Hr. lia.
  - exists w2, code, w'. split_and!; try done.
    unfold main. by rewrite (bind_Ok _ _ _ _ _ Hruns).
Qed.
End main_final.

Lemma length_progress cfg :
  length (progress cfg) = N.to_nat (1 + 49 * kTotalRuns cfg).
Proof.
  unfold progress. cbn [length].
  rewrite (length_bind_const _ _ 49), length_N_range; [lia|].
  intros run. unfold progress_of_run. cbn [length].
  by rewrite (length_bind_const _ _ 12) by apply length_progress_of_type.
Qed.

Lemma length_report td : length (report td) = 96%nat.
Proof.
  unfold report. rewrite length_app.
  assert (Hfor : ∀ c hdr, length (report_for td c hdr) = 48%nat).
  { intros c hdr. unfold report_for.
    rewrite (length_bind_const _ _ 12), length_N_range; [done|].
    intros e. by rewrite (length_bind_const _ _ 1), length_N_range. }
  by rewrite !Hfor.
Qed.

(** X18. Everything [main] prints: the banner; for each run, in order, its
    number and one progress line per element type (8, 16, 32, 64 bits) and
    array size (1 to 2048); an empty line and the column header; then the
    report computed from the timing data the run loop left, whose samples
    are the timings the clock gave.  That is [49 * kTotalRuns + 99] lines. *)
Theorem main_prints `{!StdRanges} (cfg : Config) (now : N → Z) (tpu : Z) :
  kTotalRuns cfg mod 2 = 1 → kTotalRuns cfg < 2 ^ size_t_bits →
  ∃ w2 code w',
    main_runs cfg (World_init cfg now tpu) = Ok (tt, w2) ∧
    main cfg (World_init cfg now tpu) = Ok (code, w') ∧
    cout w' = main_output cfg (timingData w2) ∧
    length (cout w') = N.to_nat (49 * kTotalRuns cfg + 99) ∧
    ∀ s e a, e < kCountOfElemSizesToEval → a < kCountOfArraySizesToEval →
      samples (timingData w2) s e a =
        (λ run, timing_of (mkClock now tpu 0) s
                  ((run * kCountOfElemSizesToEval + e)
                     * kCountOfArraySizesToEval + a))
          <$> N_range (kTotalRuns cfg).
Proof.
  intros Hodd Hsize.
  destruct (main_final cfg now tpu Hodd Hsize)
    as (w2 & code & w' & Hruns & Hinv & (_ & _ & Ho2) & Hmain & Hrep).
  assert (Hout : cout w' = main_output cfg (timingData w2)).
  { destruct Hrep as (_ & _ & _ & _ & _ & -> & _). by rewrite Ho2. }
  exists w2, code, w'. split_and!; [done..| |].
  - rewrite Hout. unfold main_output.
    rewrite !length_app, length_progress, length_report. cbn [length]. lia.
  - intros s e a He Ha. by apply Inv_samples.
Qed.

Lemma main_prints_witness :
  let cfg := config_of true in
  let W0 := World_init cfg (λ k, Z.of_N k) 1 in
  ∃ w2 code w',
    @main_runs cfg W0 = Ok (tt, w2) ∧
    @main (quickselect_ranges quickselect_spec) cfg W0 = Ok (code, w') ∧
    cout w' = main_output cfg (timingData w2) ∧
    length (cout w') = 246%nat.
Proof.
  intros cfg W0.
  destruct (@main_prints (quickselect_ranges quickselect_spec) cfg
              (λ k, Z.of_N k) 1 eq_refl eq_refl)
    as (w2 & code & w' & Hruns & Hmain & Hout & Hlen & _).
  exists w2, code, w'.
  split_and!; [exact Hruns | exact Hmain | exact Hout | exact Hlen].
Defined.

(** X19. When [main] returns, [arrByValSums] and [arrByRefSums] each hold
    one entry per evaluation: [48 * kTotalRuns] entries. *)
Theorem sum_vectors_after_main `{!StdRanges} (cfg : Config) (now : N → Z)
    (tpu : Z) :
  kTotalRuns cfg mod 2 = 1 → kTotalRuns cfg < 2 ^ size_t_bits →
  ∃ code w',
    main cfg (World_init cfg now tpu) = Ok (code, w') ∧
    length (arrByValSums w') = N.to_nat (evals_per_run * kTotalRuns cfg) ∧
    length (arrByRefSums w') = N.to_nat (evals_per_run * kTotalRuns cfg) ∧
    evals_per_run = 48.
Proof.
  intros Hodd Hsize.
  destruct (main_final cfg now tpu Hodd Hsize)
    as (w2 & code & w' & _ & _ & (Hv & Hr & _) & Hmain & Hrep).
  destruct Hrep as (_ & _ & Hv' & Hr' & _).
  exists code, w'. split_and!; [done | | | done].
  - by rewrite Hv', Hv.
  - by rewrite Hr', Hr.
Qed.

Lemma sum_vectors_after_main_witness :
  let cfg := config_of true in
  ∃ code w',
    @main (quickselect_ranges quickselect_spec) cfg
      (World_init cfg (λ k, Z.of_N k) 1) = Ok (code, w') ∧
    length (arrByValSums w') = 144%nat ∧ length (arrByRefSums w') = 144%nat.
Proof.
  intros cfg.
  destruct (@sum_vectors_after_main (quickselect_ranges quickselect_spec) cfg
              (λ k, Z.of_N k) 1 eq_refl eq_refl)
    as (code & w' & Hmain & Hv & Hr & _).
  exists code, w'. split_and!; [exact Hmain | exact Hv | exact Hr].
Defined.

(** X20. [main] reads the clock six times per evaluation, all of them in
    its run loop: [288 * kTotalRuns] readings; the report reads none. *)
Theorem clock_reads_of_main `{!StdRanges} (cfg : Config) (now : N → Z)
    (tpu : Z) :
  kTotalRuns cfg mod 2 = 1 → kTotalRuns cfg < 2 ^ size_t_bits →
  ∃ w2 code w',
    main_runs cfg (World_init cfg now tpu) = Ok (tt, w2) ∧
    main cfg (World_init cfg now tpu) = Ok (code, w') ∧
    sysclk w2 = mkClock now tpu (288 * kTotalRuns cfg) ∧
    sysclk w' = sysclk w2.
Proof.
  intros Hodd Hsize.
  destruct (main_final cfg now tpu Hodd Hsize)
    as (w2 & code & w' & Hruns & Hinv & _ & Hmain & Hrep).
  destruct Hinv as (_ & _ & Hclk & _).
  destruct Hrep as (_ & _ & _ & _ & Hclk' & _).
  exists w2, code, w'. split_and!; try done.
  rewrite Hclk. f_equal. unfold evals_per_run.
  rewrite kCountOfElemSizesToEval_eq, kCountOfArraySizesToEval_eq. lia.
Qed.

Lemma clock_reads_of_main_witness :
  let cfg := config_of true in
  ∃ code w',
    @main (quickselect_ranges quickselect_spec) cfg
      (World_init cfg (λ k, Z.of_N k) 1) = Ok (code, w') ∧
    clk_reads (sysclk w') = 864.
Proof.
  intros cfg.
  destruct (@clock_reads_of_main (quickselect_ranges quickselect_spec) cfg
              (λ k, Z.of_N k) 1 eq_refl eq_refl)
    as (w2 & code & w' & _ & Hmain & Hclk & Hclk').
  exists code, w'. split; [exact Hmain|]. by rewrite Hclk', Hclk.
Defined.

(** X21. The report can be repeated: a second [OutputResults] prints the
    same lines again.  Both calls change nothing but the output and the
    order of the samples inside the cells of the timing tables (the
    generator, the work buffer, the sum vectors and the clock are as
    before, and each cell holds the same samples). *)
Theorem report_is_repeatable `{!StdRanges} (cfg : Config) (w : World) :
  kTotalRuns cfg mod 2 = 1 → TimingData_wf cfg (timingData w) →
  ∃ w1 w2,
    OutputResults w = Ok (tt, w1) ∧ OutputResults w1 = Ok (tt, w2) ∧
    cout w2 = cout w ++ report (timingData w) ++ report (timingData w) ∧
    reported w (report (timingData w)) w1 ∧
    reported w (report (timingData w) ++ report (timingData w)) w2 ∧
    TimingData_wf cfg (timingData w2).
Proof.
  intros Hodd Hwf.
  destruct (OutputResults_run cfg Hodd w Hwf) as ([] & w1 & Hrun1 & Hrep1).
  assert (Hwf1 : TimingData_wf cfg (timingData w1)).
  { intros s. eapply Table_perm_wf; [apply Hrep1 | apply Hwf]. }
  destruct (OutputResults_run cfg Hodd w1 Hwf1) as ([] & w2 & Hrun2 & Hrep2).
  assert (Hsame : report (timingData w1) = report (timingData w)).
  { unfold report. f_equal; symmetry; apply report_for_perm, Hrep1. }
  rewrite Hsame in Hrep2.
  pose proof (reported_trans _ _ _ _ _ Hrep1 Hrep2) as Hrep.
  exists w1, w2. split_and!; try done.
  - apply Hrep.
  - intros s. eapply Table_perm_wf; [apply Hrep | apply Hwf].
Qed.

Lemma report_is_repeatable_witness :
  let cfg := config_of true in
  let w := World_init cfg (λ k, Z.of_N k) 1 in
  ∃ w1 w2,
    @OutputResults (quickselect_ranges quickselect_spec) w = Ok (tt, w1) ∧
    @OutputResults (quickselect_ranges quickselect_spec) w1 = Ok (tt, w2) ∧
    cout w2 = cout w ++ report (timingData w) ++ report (timingData w).
Proof.
  intros cfg w.
  destruct (@report_is_repeatable (quickselect_ranges quickselect_spec) cfg w)
    as (w1 & w2 & H1 & H2 & Ho & _); [reflexivity | apply TimingData_init_wf |].
  exists w1, w2. split_and!; [exact H1 | exact H2 | exact Ho].
Defined.

Lemma median_by_full_sort_elem (c : list Z) :
  c ≠ [] → median_by_full_sort c ∈ c.
Proof.
  intros Hne. unfold median_by_full_sort.
  destruct (merge_sort Z.le c !! (length c `div` 2)%nat) as [v|] eqn:Hv.
  - cbn. rewrite <- (merge_sort_Permutation Z.le c).
    by eapply list_elem_of_lookup_2.
  - apply lookup_ge_None in Hv.
    rewrite (Permutation_length (merge_sort_Permutation _ _)) in Hv.
    assert (0 < length c)%nat by (destruct c; simpl in *; [done | lia]).
    pose proof (Nat.div_lt (length c) 2). lia.
Qed.

(** X22. Under a clock that never goes back, with a positive number of
    ticks in a unit, every sample the run loop stores is non-negative, and
    so is the median of every cell: a negative duration in the report can
    only come from the subtraction of the baseline. *)
Theorem samples_never_negative (cfg : Config) (now : N → Z) (tpu : Z) :
  kTotalRuns cfg mod 2 = 1 → kTotalRuns cfg < 2 ^ size_t_bits →
  (0 < tpu)%Z → (∀ k, (now k ≤ now (k + 1)%N)%Z) →
  ∃ w, main_runs cfg (World_init cfg now tpu) = Ok (tt, w) ∧
    ∀ s e a, e < kCountOfElemSizesToEval → a < kCountOfArraySizesToEval →
      length (samples (timingData w) s e a) = N.to_nat (kTotalRuns cfg) ∧
      Forall (λ v, 0 ≤ v)%Z (samples (timingData w) s e a) ∧
      (0 ≤ median_by_full_sort (samples (timingData w) s e a))%Z.
Proof.
  intros Hodd Hsize Htpu Hmono.
  destruct (main_runs_from cfg now tpu (World_init cfg now tpu) Hsize
              (World_init_Inv cfg now tpu))
    as ([] & w & Hruns & Hinv & _).
  exists w. split; [done|]. intros s e a He Ha.
  rewrite (Inv_samples cfg now tpu w s e a Hinv He Ha).
  set (l := _ <$> N_range (kTotalRuns cfg)).
  assert (Hlen : length l = N.to_nat (kTotalRuns cfg)).
  { unfold l. by rewrite length_fmap, length_N_range. }
  assert (Hall : Forall (λ v, 0 ≤ v)%Z l).
  { apply Forall_fmap, Forall_forall. intros run _. cbn.
    unfold timing_of, elapsed. cbn [clk_now clk_ticks_per_unit].
    apply Z.quot_pos; [|lia]. specialize (Hmono (6 * ((run *
      kCountOfElemSizesToEval + e) * kCountOfArraySizesToEval + a)
      + match s with Baselines => 0 | ByRefs => 2 | ByVals => 4 end)). lia. }
  split_and!; [done..|].
  rewrite Forall_forall in Hall. apply Hall, median_by_full_sort_elem.
  pose proof (runs_pos cfg Hodd). intros Hnil. rewrite Hnil in Hlen.
  cbn in Hlen. lia.
Qed.

Lemma samples_never_negative_witness :
  let cfg := config_of true in
  ∃ w, main_runs cfg (World_init cfg (λ k, Z.of_N k) 1) = Ok (tt, w) ∧
    (0 ≤ median_by_full_sort (samples (timingData w) ByRefs 0 0))%Z.
Proof.
  intros cfg.
  destruct (samples_never_negative cfg (λ k, Z.of_N k) 1)
    as (w & Hruns & Hall); [reflexivity | reflexivity | reflexivity | |].
  - intros k. lia.
  - exists w. split; [exact Hruns|].
    apply (Hall ByRefs 0 0); reflexivity.
Defined.

(** ** When the report has no negative line *)

(** X23. If in no evaluation the by-reference loop or the by-value loop
    was timed faster than the baseline loop of the same evaluation, no line
    of the report of [main] has a negative duration. *)
Theorem report_nonnegative_when_never_faster `{!StdRanges} (cfg : Config)
    (now : N → Z) (tpu : Z) :
  kTotalRuns cfg mod 2 = 1 → kTotalRuns cfg < 2 ^ size_t_bits →
  (∀ k s, k < evals_per_run * kTotalRuns cfg →
     (timing_of (mkClock now tpu 0) Baselines k
        ≤ timing_of (mkClock now tpu 0) s k)%Z) →
  ∃ code w',
    main cfg (World_init cfg now tpu) = Ok (code, w') ∧
    ∀ hdr arrSize elemSize time,
      OutData hdr arrSize elemSize time ∈ cout w' → (0 ≤ time)%Z.
Proof.
  intros Hodd Hsize Hslow.
  destruct (main_run_spec cfg now tpu Hodd Hsize)
    as (_ & _ & v & r & w2 & w' & _ & _ & _ & _ & _ & Hruns & Hinv & Hmain
        & _ & _ & Hout).
  exists (to_int (wrap (v + r))), w'. split; [done|].
  assert (Hadj : ∀ c e a,
            e < kCountOfElemSizesToEval → a < kCountOfArraySizesToEval →
            (0 ≤ adjusted (timingData w2) c e a)%Z).
  { intros c e a He Ha. unfold adjusted.
    rewrite !(Inv_samples _ _ _ _ _ _ _ Hinv) by done.
    apply Zle_minus_le_0, median_by_full_sort_mono.
    - rewrite length_fmap, length_N_range. by apply N_to_nat_odd.
    - apply Forall2_fmap, Forall_Forall2_diag, Forall_forall.
      intros run Hrun%elem_of_N_range. apply Hslow.
      unfold evals_per_run.
      rewrite kCountOfElemSizesToEval_eq, kCountOfArraySizesToEval_eq in *.
      lia. }
  intros hdr arrSize elemSize time Hin.
  rewrite Hout in Hin. destruct Hinv as (_ & _ & _ & _ & _ & Hnodata).
  apply elem_of_app in Hin as [Hin|Hin].
  { rewrite Forall_forall in Hnodata. by apply Hnodata in Hin. }
  apply elem_of_app in Hin as [Hin|Hin].
  { apply elem_of_cons in Hin as [?|Hin]; [done|].
    apply elem_of_cons in Hin as [?|Hin]; [done|].
    by apply elem_of_nil in Hin. }
  unfold report in Hin.
  apply elem_of_app in Hin as [Hin|Hin];
    apply elem_of_report_for in Hin as (e & a & He & Ha & [= -> -> -> ->]);
    by apply Hadj.
Qed.

Lemma report_nonnegative_when_never_faster_witness :
  let cfg := config_of true in
  ∃ code w',
    @main (quickselect_ranges quickselect_spec) cfg
      (World_init cfg (λ k, Z.of_N k) 1) = Ok (code, w') ∧
    ∀ hdr arrSize elemSize time,
      OutData hdr arrSize elemSize time ∈ cout w' → (0 ≤ time)%Z.
Proof.
  intros cfg.
  apply (@report_nonnegative_when_never_faster
           (quickselect_ranges quickselect_spec) cfg (λ k, Z.of_N k) 1);
    [reflexivity | reflexivity |].
  intros k s _. unfold timing_of, elapsed. cbn [clk_now clk_ticks_per_unit].
  rewrite !Z.quot_1_r. lia.
Defined.

(** ** Runs of the model on small inputs *)

Lemma GetMedian_is_sorted_middle_witness :
  let c := [31; -4; 17; 5; 17]%Z in
  (length c `mod` 2 = 1)%nat ∧
  ∃ c', @GetMedian (quickselect_ranges quickselect_spec) c
          = Ok (17%Z, c') ∧
        merge_sort Z.le c !! 2%nat = Some 17%Z ∧
        c' ≡ₚ c.
Proof.
  intros c. split; [reflexivity|].
  destruct (@GetMedian_is_sorted_middle (quickselect_ranges quickselect_spec)
              c eq_refl) as (c' & Hget & Hsort & _ & Hperm).
  exists c'. split_and!; [exact Hget | exact Hsort | exact Hperm].
Defined.

Example GetMedian_1 :
  @GetMedian (quickselect_ranges quickselect_spec) [7]%Z = Ok (7%Z, [7]%Z).
Proof. reflexivity. Qed.

Example GetMedian_3 :
  @GetMedian (quickselect_ranges quickselect_spec) [9; 2; 5]%Z
    = Ok (5%Z, [2; 5; 9]%Z).
Proof. reflexivity. Qed.

Example GetMedian_5 :
  @GetMedian (quickselect_ranges quickselect_spec) [31; -4; 17; 5; 17]%Z
    = Ok (17%Z, [-4; 5; 17; 17; 31]%Z).
Proof. reflexivity. Qed.

Example GetMedian_4 :
  @GetMedian (quickselect_ranges quickselect_spec) [4; 3; 2; 1]%Z
    = Fail AssertionFailed.
Proof. reflexivity. Qed.

Example FauxRand_first_three :
  (FauxRand_calls 3 (mkFauxRand 42)).1
    = [11519557; 2465337483252; 527614270805741287].
Proof. reflexivity. Qed.

Example Log2_sizes :
  Log2 1 = Ok 0 ∧ Log2 8 = Ok 3 ∧ Log2 kMaxArraySizex2 = Ok 12 ∧
  Log2 0 = Fail AssertionFailed ∧ Log2 6 = Fail AssertionFailed.
Proof. by split_and!. Qed.

Example Exp2_edges :
  Exp2 0 = Ok 1 ∧ Exp2 63 = Ok 9223372036854775808 ∧
  Exp2 64 = Fail AssertionFailed.
Proof. by split_and!. Qed.

Example to_int_edges :
  to_int 5 = 5%Z ∧ to_int (2 ^ 31) = (- 2 ^ 31)%Z ∧
  to_int (2 ^ 32 + 7) = 7%Z ∧ to_int (2 ^ 64 - 1) = (-1)%Z.
Proof. by split_and!. Qed.

Example clock_fast_calls_readings :
  clock_fast_calls <$> N_range 8 = [0; 5; 5; 8; 8; 12; 12; 17]%Z.
Proof. reflexivity. Qed.
